(** * LockFreeRingBuffer: the sequential behaviour of [src/core/ring_buffer.h]

    A shallow embedding of the single-producer/single-consumer ring buffer
    [LockFreeRingBuffer<T, Size>] and of the properties its specification
    states about one thread of control driving both ends.

    Conventions.
    - A [size_t] is a [Z] in [[0, 2^64)]; [+] wraps, [%] by zero is undefined.
    - [std::array<T, Size>] is a [list T]; indexing outside the array is
      undefined.
    - Undefined behaviour is the result [None]; a defined call returns
      [Some (return value, buffer after the call, caller's object after the
      call)].
    - The atomic loads and stores are plain reads and writes of the two
      cursors: the memory orders only matter between threads. *)

(** Further down: the buffer against a bounded queue under any order of
    calls; the producer and consumer threads of [market_data_pipeline_test]
    interleaved access by access; the latency statistics of that test; from
    the test programs, [increment_counter], [SeqLock], [ThreadBarrier] and
    the driver [main]; and the accesses of [TryPush] and [TryPop] with their
    memory orders: the happens-before edges between the two threads, and
    that no slot is read and written concurrently. *)

From stdpp Require Import base option list numbers sorting strings.

Local Open Scope Z_scope.

(** ** [size_t] arithmetic *)

Module SizeT.

Definition modulus : Z := 2 ^ 64.

(** [a + b] on [size_t]: unsigned arithmetic wraps. *)
Definition add (a b : Z) : Z := (a + b) `mod` modulus.

(** [a % b] on [size_t]: undefined when the divisor is zero. *)
Definition rem (a b : Z) : option Z :=
  if decide (b = 0) then None else Some (a `mod` b).

(** [a * b] on [size_t]: wraps as [+] does. *)
Definition mul (a b : Z) : Z := (a * b) `mod` modulus.

End SizeT.

(** ** [std::array] *)

Module StdArray.

(** [a[i]] as an rvalue. *)
Definition get {T : Type} (a : list T) (i : Z) : option T :=
  a !! Z.to_nat i.

(** [a[i] = x]. *)
Definition set {T : Type} (a : list T) (i : Z) (x : T) : option (list T) :=
  if decide (Z.to_nat i < length a)%nat then Some (<[Z.to_nat i := x]> a)
  else None.

End StdArray.

(** ** The buffer *)

Section LockFreeRingBuffer.

(** The template parameters. *)
Context {T : Type}.
Variable Size : Z.

(** What move assignment leaves in its source: the identity for a
    trivially copyable [T], some valid but unspecified value otherwise. *)
Variable moved_from : T → T.

Record LockFreeRingBuffer : Type := mkLockFreeRingBuffer {
  write_idx_ : Z;
  read_idx_ : Z;
  buffer_ : list T
}.

(** The implicit constructor: both cursors start at zero; the slots are
    default-initialised, to whatever [slots] holds. *)
Definition fresh (slots : list T) : LockFreeRingBuffer :=
  {| write_idx_ := 0; read_idx_ := 0; buffer_ := slots |}.

(** [bool TryPush(const T& item)].  The third component is the caller's
    [item] after the call. *)
Definition TryPush (rb : LockFreeRingBuffer) (item : T)
  : option (bool * LockFreeRingBuffer * T) :=
  let current_write := write_idx_ rb in
  next_write ← SizeT.rem (SizeT.add current_write 1) Size;
  if decide (next_write = read_idx_ rb) then
    Some (false, rb, item)
  else
    (* copy assignment: the source is left as it is *)
    slots ← StdArray.set (buffer_ rb) current_write item;
    Some (true,
          {| write_idx_ := next_write;
             read_idx_ := read_idx_ rb;
             buffer_ := slots |},
          item).

(** [bool TryPop(T* output)].  [output] is the object behind the pointer
    before the call, the third component is that object after it. *)
Definition TryPop (rb : LockFreeRingBuffer) (output : T)
  : option (bool * LockFreeRingBuffer * T) :=
  let current_read := read_idx_ rb in
  if decide (current_read = write_idx_ rb) then
    Some (false, rb, output)
  else
    (* move assignment: the slot keeps what the move left behind *)
    v ← StdArray.get (buffer_ rb) current_read;
    slots ← StdArray.set (buffer_ rb) current_read (moved_from v);
    next_read ← SizeT.rem (SizeT.add current_read 1) Size;
    Some (true,
          {| write_idx_ := write_idx_ rb;
             read_idx_ := next_read;
             buffer_ := slots |},
          v).

(** ** Callers *)

(** A caller's step, and what the caller sees of it. *)
Inductive op : Type :=
| Push (item : T)
| Pop.

Inductive event : Type :=
| Pushed (ok : bool)
| Popped (ok : bool) (result : T).

(** A caller that owns one [result] object and hands its address to every
    [TryPop], as [basic_functionality_test] does. *)
Fixpoint run (ops : list op) (rb : LockFreeRingBuffer) (result : T)
  : option (list event * LockFreeRingBuffer * T) :=
  match ops with
  | [] => Some ([], rb, result)
  | Push item :: ops' =>
      '(ok, rb', _) ← TryPush rb item;
      '(evs, rb'', result') ← run ops' rb' result;
      Some (Pushed ok :: evs, rb'', result')
  | Pop :: ops' =>
      '(ok, rb', result') ← TryPop rb result;
      '(evs, rb'', result'') ← run ops' rb' result';
      Some (Popped ok result' :: evs, rb'', result'')
  end.

(** The states a buffer can be in: those some caller drives it to. *)
Inductive reachable : LockFreeRingBuffer → Prop :=
| reachable_fresh slots :
    length slots = Z.to_nat Size → reachable (fresh slots)
| reachable_push rb item ok rb' item' :
    reachable rb → TryPush rb item = Some (ok, rb', item') → reachable rb'
| reachable_pop rb output ok rb' output' :
    reachable rb → TryPop rb output = Some (ok, rb', output') → reachable rb'.

(** ** The class invariant *)

Definition valid_size : Prop := 0 < Size < SizeT.modulus.

Record wf (rb : LockFreeRingBuffer) : Prop := mkWf {
  wf_size : valid_size;
  wf_write : 0 ≤ write_idx_ rb < Size;
  wf_read : 0 ≤ read_idx_ rb < Size;
  wf_slots : length (buffer_ rb) = Z.to_nat Size
}.

Definition is_empty (rb : LockFreeRingBuffer) : Prop :=
  read_idx_ rb = write_idx_ rb.

Definition is_full (rb : LockFreeRingBuffer) : Prop :=
  (write_idx_ rb + 1) `mod` Size = read_idx_ rb.

#[global] Instance is_empty_dec rb : Decision (is_empty rb).
Proof. unfold is_empty. apply _. Defined.

#[global] Instance is_full_dec rb : Decision (is_full rb).
Proof. unfold is_full. apply _. Defined.

(** The number of live elements. *)
Definition count (rb : LockFreeRingBuffer) : Z :=
  (write_idx_ rb - read_idx_ rb) `mod` Size.

(** [holds rb q]: the live elements of [rb], oldest first, are [q]. *)
Definition holds (rb : LockFreeRingBuffer) (q : list T) : Prop :=
  Z.of_nat (length q) = count rb ∧
  ∀ (i : nat) (x : T),
    q !! i = Some x →
    buffer_ rb !! Z.to_nat ((read_idx_ rb + Z.of_nat i) `mod` Size) = Some x.

End LockFreeRingBuffer.

Arguments LockFreeRingBuffer : clear implicits.
Arguments op : clear implicits.
Arguments event : clear implicits.

(** ** The sequential specification

    A first-in first-out queue bounded at [Size - 1] elements, driven through
    the buffer's interface: what a caller sees, whatever the representation. *)

Module Fifo.
Section Fifo.

Context {T : Type}.
Variable Size : Z.

Definition push (q : list T) (item : T) : bool * list T :=
  if decide (Size - 1 ≤ Z.of_nat (length q)) then (false, q)
  else (true, q ++ [item]).

Definition pop (q : list T) (output : T) : bool * list T * T :=
  match q with
  | [] => (false, q, output)
  | x :: q' => (true, q', x)
  end.

Fixpoint run (ops : list (op T)) (q : list T) (result : T)
  : list (event T) * list T * T :=
  match ops with
  | [] => ([], q, result)
  | Push item :: ops' =>
      let '(ok, q') := push q item in
      let '(evs, q'', result') := run ops' q' result in
      (Pushed ok :: evs, q'', result')
  | Pop :: ops' =>
      let '(ok, q', result') := pop q result in
      let '(evs, q'', result'') := run ops' q' result' in
      (Popped ok result' :: evs, q'', result'')
  end.

End Fifo.
End Fifo.

(** The items whose [TryPush] returned true, in the order of the calls. *)
Fixpoint accepted {T : Type} (ops : list (op T)) (evs : list (event T))
  : list T :=
  match ops, evs with
  | Push item :: ops', Pushed ok :: evs' =>
      if ok then item :: accepted ops' evs' else accepted ops' evs'
  | _ :: ops', _ :: evs' => accepted ops' evs'
  | _, _ => []
  end.

(** The values the [TryPop]s that returned true handed out, in order. *)
Fixpoint delivered {T : Type} (evs : list (event T)) : list T :=
  match evs with
  | [] => []
  | Popped true v :: evs' => v :: delivered evs'
  | _ :: evs' => delivered evs'
  end.

(** The live elements, oldest first: the slots from the read cursor up to
    the write cursor, around the end of the array. *)
Definition live {T : Type} (Size : Z) (rb : LockFreeRingBuffer T) : list T :=
  omap (λ i : nat,
          buffer_ rb !! Z.to_nat ((read_idx_ rb + Z.of_nat i) `mod` Size))
       (seq 0 (Z.to_nat (count Size rb))).

(** ** Latency statistics

    The closing block of [market_data_pipeline_test]
    ([src/tests/ring_buffer.cpp]): the latencies the consumer recorded are
    sorted, and four of them are reported. *)

Module StdVector.

(** [v.size()]. *)
Definition size {A : Type} (v : list A) : Z := Z.of_nat (length v).

(** [v.front()], undefined on an empty vector. *)
Definition front {A : Type} (v : list A) : option A := head v.

(** [v.back()], undefined on an empty vector. *)
Definition back {A : Type} (v : list A) : option A := v !! pred (length v).

(** [v[i]], undefined outside the vector. *)
Definition index {A : Type} (v : list A) (i : Z) : option A :=
  v !! Z.to_nat i.

End StdVector.

(** [std::sort(v.begin(), v.end())] on [int64_t]: the ascending
    rearrangement of [v]. *)
Definition std_sort (v : list Z) : list Z := merge_sort Z.le v.

Record LatencyStats : Type := mkLatencyStats {
  min_latency : Z;
  max_latency : Z;
  median_latency : Z;
  p99_latency : Z
}.

Definition latency_statistics (latencies : list Z) : option LatencyStats :=
  let latencies := std_sort latencies in
  min_latency ← StdVector.front latencies;
  max_latency ← StdVector.back latencies;
  median_latency ← StdVector.index latencies (StdVector.size latencies / 2);
  p99_latency ←
    StdVector.index latencies
      (SizeT.mul (StdVector.size latencies) 99 / 100);
  Some {| min_latency := min_latency;
          max_latency := max_latency;
          median_latency := median_latency;
          p99_latency := p99_latency |}.

(** ** One producer thread and one consumer thread

    The two threads of [market_data_pipeline_test], interleaved load by load
    and store by store.  Each step of a thread is one access to the shared
    buffer, taken on the memory as it then is: the interleavings are the
    sequentially consistent ones, the [memory_order] arguments are not
    modelled.  The producer pushes its ticks in turn,
    [while (!buffer.TryPush(tick)) yield]; the consumer pops as many,
    [while (!buffer.TryPop(&tick)) yield], and processes each tick it gets,
    which [received] records.  The clock, the random prices and the counters
    that are only printed are left out. *)

Inductive thread : Type := Producer | Consumer.

(** Where a thread is in its call: what it does next, and its locals. *)
Inductive push_pc : Type :=
| PushCall                                    (* load [write_idx_] *)
| PushCheck (current_write next_write : Z)    (* load [read_idx_], compare *)
| PushSlot (current_write next_write : Z)     (* assign the slot *)
| PushPublish (current_write next_write : Z). (* store [write_idx_] *)

Inductive pop_pc : Type :=
| PopCall                                     (* load [read_idx_] *)
| PopCheck (current_read : Z)                 (* load [write_idx_], compare *)
| PopSlot (current_read : Z)                  (* move the slot out *)
| PopPublish (current_read : Z).              (* store [read_idx_] *)

Section Pipeline.

Context {T : Type}.
Variable Size : Z.
Variable moved_from : T → T.

Record pipeline : Type := mkPipeline {
  buffer : LockFreeRingBuffer T;  (* shared *)
  todo : list T;                  (* producer: ticks not yet pushed *)
  producer_pc : push_pc;
  remaining : nat;                (* consumer: pops still to do *)
  consumer_pc : pop_pc;
  tick : T;                       (* consumer: its [tick] object *)
  received : list T               (* consumer: the ticks it processed *)
}.

Definition pipeline_start (slots : list T) (ticks : list T) (n : nat)
    (tick0 : T) : pipeline :=
  {| buffer := fresh slots;
     todo := ticks; producer_pc := PushCall;
     remaining := n; consumer_pc := PopCall; tick := tick0; received := [] |}.

Definition producer_moves (c : pipeline) (rb : LockFreeRingBuffer T)
    (ticks : list T) (pc : push_pc) : pipeline :=
  {| buffer := rb;
     todo := ticks; producer_pc := pc;
     remaining := remaining c; consumer_pc := consumer_pc c;
     tick := tick c; received := received c |}.

Definition consumer_moves (c : pipeline) (rb : LockFreeRingBuffer T)
    (n : nat) (pc : pop_pc) (t : T) (log : list T) : pipeline :=
  {| buffer := rb;
     todo := todo c; producer_pc := producer_pc c;
     remaining := n; consumer_pc := pc; tick := t; received := log |}.

(** One step of the producer: the next access of [TryPush] for the first
    tick of [todo].  Once every tick is pushed the thread has finished and
    its steps do nothing. *)
Definition producer_step (c : pipeline) : option pipeline :=
  let rb := buffer c in
  match todo c with
  | [] => Some c
  | item :: rest =>
      match producer_pc c with
      | PushCall =>
          let current_write := write_idx_ rb in
          next_write ← SizeT.rem (SizeT.add current_write 1) Size;
          Some (producer_moves c rb (todo c)
                  (PushCheck current_write next_write))
      | PushCheck current_write next_write =>
          if decide (next_write = read_idx_ rb) then
            (* [return false]; yield; call again *)
            Some (producer_moves c rb (todo c) PushCall)
          else
            Some (producer_moves c rb (todo c)
                    (PushSlot current_write next_write))
      | PushSlot current_write next_write =>
          slots ← StdArray.set (buffer_ rb) current_write item;
          Some (producer_moves c
                  {| write_idx_ := write_idx_ rb;
                     read_idx_ := read_idx_ rb;
                     buffer_ := slots |}
                  (todo c) (PushPublish current_write next_write))
      | PushPublish current_write next_write =>
          (* [return true]; on to the next tick *)
          Some (producer_moves c
                  {| write_idx_ := next_write;
                     read_idx_ := read_idx_ rb;
                     buffer_ := buffer_ rb |}
                  rest PushCall)
      end
  end.

(** One step of the consumer: the next access of [TryPop]. *)
Definition consumer_step (c : pipeline) : option pipeline :=
  let rb := buffer c in
  match remaining c with
  | O => Some c
  | S n =>
      match consumer_pc c with
      | PopCall =>
          Some (consumer_moves c rb (remaining c)
                  (PopCheck (read_idx_ rb)) (tick c) (received c))
      | PopCheck current_read =>
          if decide (current_read = write_idx_ rb) then
            (* [return false]; yield; call again *)
            Some (consumer_moves c rb (remaining c) PopCall
                    (tick c) (received c))
          else
            Some (consumer_moves c rb (remaining c)
                    (PopSlot current_read) (tick c) (received c))
      | PopSlot current_read =>
          v ← StdArray.get (buffer_ rb) current_read;
          slots ← StdArray.set (buffer_ rb) current_read (moved_from v);
          Some (consumer_moves c
                  {| write_idx_ := write_idx_ rb;
                     read_idx_ := read_idx_ rb;
                     buffer_ := slots |}
                  (remaining c) (PopPublish current_read) v (received c))
      | PopPublish current_read =>
          next_read ← SizeT.rem (SizeT.add current_read 1) Size;
          (* [return true]; the tick is processed *)
          Some (consumer_moves c
                  {| write_idx_ := write_idx_ rb;
                     read_idx_ := next_read;
                     buffer_ := buffer_ rb |}
                  n PopCall (tick c) (received c ++ [tick c]))
      end
  end.

Definition pipeline_step (t : thread) (c : pipeline) : option pipeline :=
  match t with
  | Producer => producer_step c
  | Consumer => consumer_step c
  end.

(** The threads scheduled in the order of [schedule]. *)
Fixpoint pipeline_run (schedule : list thread) (c : pipeline)
  : option pipeline :=
  match schedule with
  | [] => Some c
  | t :: schedule' => c' ← pipeline_step t c; pipeline_run schedule' c'
  end.

(** The buffer as it will be once the stores in flight are published: a
    slot already assigned counts as pushed, a slot already moved out counts
    as popped. *)
Definition effective (c : pipeline) : LockFreeRingBuffer T :=
  {| write_idx_ :=
       match producer_pc c with
       | PushPublish _ next_write => next_write
       | _ => write_idx_ (buffer c)
       end;
     read_idx_ :=
       match consumer_pc c with
       | PopPublish current_read => (current_read + 1) `mod` Size
       | _ => read_idx_ (buffer c)
       end;
     buffer_ := buffer_ (buffer c) |}.

Definition todo_effective (c : pipeline) : list T :=
  match producer_pc c with
  | PushPublish _ _ => tail (todo c)
  | _ => todo c
  end.

Definition received_effective (c : pipeline) : list T :=
  match consumer_pc c with
  | PopPublish _ => received c ++ [tick c]
  | _ => received c
  end.

(** What the producer knows at each point of its call. *)
Definition producer_ok (c : pipeline) : Prop :=
  match producer_pc c with
  | PushCall => True
  | PushCheck current_write next_write =>
      todo c ≠ [] ∧
      current_write = write_idx_ (buffer c) ∧
      next_write = (current_write + 1) `mod` Size
  | PushSlot current_write next_write
  | PushPublish current_write next_write =>
      todo c ≠ [] ∧
      current_write = write_idx_ (buffer c) ∧
      next_write = (current_write + 1) `mod` Size ∧
      ¬ is_full Size (buffer c)
  end.

(** What the consumer knows at each point of its call. *)
Definition consumer_ok (c : pipeline) : Prop :=
  match consumer_pc c with
  | PopCall => True
  | PopCheck current_read =>
      remaining c ≠ O ∧ current_read = read_idx_ (buffer c)
  | PopSlot current_read
  | PopPublish current_read =>
      remaining c ≠ O ∧ current_read = read_idx_ (buffer c) ∧
      ¬ is_empty (buffer c)
  end.

(** The invariant of the pipeline that pushes [ticks] and pops [n] times. *)
Record pipeline_inv (ticks : list T) (n : nat) (c : pipeline) : Prop :=
  mkPipelineInv {
    inv_wf : wf Size (buffer c);
    inv_producer : producer_ok c;
    inv_consumer : consumer_ok c;
    inv_ticks :
      ticks = received_effective c ++ live Size (effective c)
                ++ todo_effective c;
    inv_pops : (length (received c) + remaining c = n)%nat
  }.

End Pipeline.

Arguments pipeline : clear implicits.

(** ** The counter benchmark

    [increment_counter] of [src/tests/ring_buffer.cpp], on the
    [std::atomic<uint64_t> counters[kNumThreads]] of [UnalignedCounters],
    with [kIterations] left open.  A thread only touches its own counter, so
    the other threads do not show. *)

(** What a call comes to. *)
Inductive outcome (A : Type) : Type :=
| Returns (a : A)
| Undefined
| OutOfFuel.

Arguments Returns {A} a.
Arguments Undefined {A}.
Arguments OutOfFuel {A}.

(** C++ [int]. *)
Module Int.

Definition min : Z := - 2 ^ 31.
Definition max : Z := 2 ^ 31 - 1.

(** [a + b]: signed overflow is undefined. *)
Definition add (a b : Z) : option Z :=
  if decide (min ≤ a + b ≤ max) then Some (a + b) else None.

End Int.

(** [counters.counters[thread_id].fetch_add(1, std::memory_order_relaxed)]. *)
Definition fetch_add_1 (counters : list Z) (thread_id : Z)
  : option (list Z) :=
  if decide (0 ≤ thread_id) then
    value ← counters !! Z.to_nat thread_id;
    Some (<[Z.to_nat thread_id := SizeT.add value 1]> counters)
  else None.

(** [for (int i = 0; i < kIterations; i += 8) { eight fetch_adds }], from
    the value [i] on. *)
Fixpoint unrolled_loop (fuel : nat) (kIterations thread_id i : Z)
    (counters : list Z) : outcome (list Z) :=
  match fuel with
  | O => OutOfFuel
  | S fuel' =>
      if decide (i < kIterations) then
        match
          counters ← fetch_add_1 counters thread_id;
          counters ← fetch_add_1 counters thread_id;
          counters ← fetch_add_1 counters thread_id;
          counters ← fetch_add_1 counters thread_id;
          counters ← fetch_add_1 counters thread_id;
          counters ← fetch_add_1 counters thread_id;
          counters ← fetch_add_1 counters thread_id;
          counters ← fetch_add_1 counters thread_id;
          i' ← Int.add i 8;
          Some (counters, i')
        with
        | Some (counters', i') =>
            unrolled_loop fuel' kIterations thread_id i' counters'
        | None => Undefined
        end
      else Returns counters
  end.

(** [for (int i = ...; i < kIterations; i++) { one fetch_add }], from the
    value [i] on. *)
Fixpoint remainder_loop (fuel : nat) (kIterations thread_id i : Z)
    (counters : list Z) : outcome (list Z) :=
  match fuel with
  | O => OutOfFuel
  | S fuel' =>
      if decide (i < kIterations) then
        match
          counters ← fetch_add_1 counters thread_id;
          i' ← Int.add i 1;
          Some (counters, i')
        with
        | Some (counters', i') =>
            remainder_loop fuel' kIterations thread_id i' counters'
        | None => Undefined
        end
      else Returns counters
  end.

(** [increment_counter(counters, thread_id)].  [(kIterations / 8) * 8]
    rounds towards zero and stays inside [int]. *)
Definition increment_counter (fuel : nat) (kIterations : Z)
    (counters : list Z) (thread_id : Z) : outcome (list Z) :=
  match unrolled_loop fuel kIterations thread_id 0 counters with
  | Returns counters' =>
      remainder_loop fuel kIterations thread_id
        ((kIterations `quot` 8) * 8) counters'
  | Undefined => Undefined
  | OutOfFuel => OutOfFuel
  end.

(** [kIterations] as the file sets it. *)
Definition kIterations : Z := 1000000.

(** ** The sequence lock

    [SeqLock] of [src/tests/memory_ordering_example.cpp], used by one thread
    at a time. *)

Record SeqLock : Type := mkSeqLock {
  sequence : Z;      (* std::atomic<uint64_t> *)
  data : list Z      (* int data[4] *)
}.

Definition seqlock_new : SeqLock := {| sequence := 0; data := [0; 0; 0; 0] |}.

(** [void write(int a, int b, int c, int d)]. *)
Definition seqlock_write (s : SeqLock) (a b c d : Z) : SeqLock :=
  let seq := sequence s in
  let s := {| sequence := SizeT.add seq 1; data := data s |} in
  let s := {| sequence := sequence s; data := <[0%nat := a]> (data s) |} in
  let s := {| sequence := sequence s; data := <[1%nat := b]> (data s) |} in
  let s := {| sequence := sequence s; data := <[2%nat := c]> (data s) |} in
  let s := {| sequence := sequence s; data := <[3%nat := d]> (data s) |} in
  {| sequence := SizeT.add seq 2; data := data s |}.

(** [bool read(int result[4])].  [seq2] is [None] until it is first
    assigned; [continue] in a [do ... while] goes on to the loop condition,
    which reads it. *)
Fixpoint seqlock_read (fuel : nat) (s : SeqLock) (result : list Z)
    (seq2 : option Z) : outcome (bool * list Z) :=
  match fuel with
  | O => OutOfFuel
  | S fuel' =>
      let seq1 := sequence s in
      if decide (Z.land seq1 1 ≠ 0) then
        (* writer active: yield, continue *)
        match seq2 with
        | None => Undefined
        | Some seq2 =>
            if decide (seq1 ≠ seq2) then seqlock_read fuel' s result (Some seq2)
            else Returns (true, result)
        end
      else
        let result := take 4 (data s) in
        let seq2 := sequence s in
        if decide (seq1 ≠ seq2) then seqlock_read fuel' s result (Some seq2)
        else Returns (true, result)
  end.

(** A writer's calls, one after the other. *)
Definition seqlock_writes (writes : list (Z * Z * Z * Z)) (s : SeqLock)
  : SeqLock :=
  foldl (λ s '(a, b, c, d), seqlock_write s a b c d) s writes.

(** ** The driver of the memory-ordering examples

    [main] of [src/tests/memory_ordering_example.cpp]: which demonstrations
    a command line starts, in order, and the exit status.  A demonstration
    need not return: the benchmarks spin on flags another thread may never
    set again.  Whether a call returns is the parameter [returns]; a call
    that does not return is the last thing the process does, and [main] then
    yields no exit status. *)

Inductive demo : Type :=
| MemoryOrderingDemo        (* run_memory_ordering_demo *)
| MemoryOrderingBenchmarks  (* run_memory_ordering_benchmarks *)
| UnalignedBenchmark        (* run_counter_benchmark<UnalignedCounters> *)
| AlignedBenchmark          (* run_counter_benchmark<AlignedCounters> *)
| AlignmentDemo             (* run_alignment_demo *)
| ThreadScalingTest         (* run_thread_scaling_test *)
| PrintUsage.               (* print_usage *)

(** The test name: [argv[1]] when there is one, ["all"] otherwise. *)
Definition main_test_name (argv : list string) : string :=
  match argv with
  | _ :: name :: _ => name
  | _ => "all"
  end.

(** The calls started so far, and whether control is still in [main]. *)
Definition main_state : Type := (list demo * bool)%type.

(** A call statement: reached only if every call before it returned. *)
Definition main_call (returns : demo → bool) (d : demo) (st : main_state)
  : main_state :=
  if st.2 then (st.1 ++ [d], returns d) else st.

(** [return code;]: reached only if every call returned. *)
Definition main_return (code : Z) (st : main_state) : list demo * option Z :=
  (st.1, if st.2 then Some code else None).

Definition main (returns : demo → bool) (argv : list string)
  : list demo * option Z :=
  let test_name := main_test_name argv in
  let st : main_state := ([], true) in
  let st :=
    if decide (test_name = "memory" ∨ test_name = "all")
    then main_call returns MemoryOrderingDemo st else st in
  let st :=
    if decide (test_name = "benchmark" ∨ test_name = "all")
    then main_call returns MemoryOrderingBenchmarks st else st in
  let st :=
    if decide (test_name = "unaligned")
    then main_call returns UnalignedBenchmark st else st in
  let st :=
    if decide (test_name = "aligned")
    then main_call returns AlignedBenchmark st else st in
  let st :=
    if decide (test_name = "all" ∧ test_name ≠ "unaligned"
               ∧ test_name ≠ "aligned")
    then main_call returns AlignmentDemo st else st in
  let st :=
    if decide (test_name = "scaling" ∨ test_name = "all")
    then main_call returns ThreadScalingTest st else st in
  if decide (test_name ≠ "memory" ∧ test_name ≠ "benchmark"
             ∧ test_name ≠ "unaligned" ∧ test_name ≠ "aligned"
             ∧ test_name ≠ "scaling" ∧ test_name ≠ "all")
  then main_return 1 (main_call returns PrintUsage st)
  else main_return 0 st.

(** The names [print_usage] lists. *)
Definition test_names : list string :=
  ["memory"; "benchmark"; "unaligned"; "aligned"; "scaling"; "all"].

(** ** The asymmetric barrier benchmark

    [ThreadBarrier] of [src/tests/memory_ordering_example.cpp] and the two
    threads [run_memory_ordering_benchmarks] starts on it: the producer
    does [producer_barrier(); barrier_sync.reset();] round after round, the
    consumer [consumer_barrier()].  Every shared access is an atomic load or
    store and is one step; the steps are interleaved as in the pipeline
    above. *)

Record ThreadBarrier : Type := mkThreadBarrier {
  producer_ready : bool;
  consumer_ready : bool
}.

Inductive barrier_producer_pc : Type :=
| BarrierProducerArrive   (* producer_ready.store(true) *)
| BarrierProducerWait     (* while (!consumer_ready.load()) *)
| BarrierResetProducer    (* reset: producer_ready.store(false) *)
| BarrierResetConsumer.   (* reset: consumer_ready.store(false) *)

Inductive barrier_consumer_pc : Type :=
| BarrierConsumerArrive   (* consumer_ready.store(true) *)
| BarrierConsumerWait.    (* while (!producer_ready.load()) *)

Record barrier_benchmark : Type := mkBarrierBenchmark {
  barrier_sync : ThreadBarrier;
  producer_rounds : nat;            (* rounds the producer has left *)
  barrier_producer : barrier_producer_pc;
  consumer_rounds : nat;            (* rounds the consumer has left *)
  barrier_consumer : barrier_consumer_pc
}.

(** [benchmark_sync_pattern] resets the barrier, then starts the threads. *)
Definition barrier_start (benchmark_rounds : nat) : barrier_benchmark :=
  {| barrier_sync := {| producer_ready := false; consumer_ready := false |};
     producer_rounds := benchmark_rounds;
     barrier_producer := BarrierProducerArrive;
     consumer_rounds := benchmark_rounds;
     barrier_consumer := BarrierConsumerArrive |}.

Definition barrier_producer_step (c : barrier_benchmark) : barrier_benchmark :=
  let b := barrier_sync c in
  match producer_rounds c with
  | O => c
  | S rounds =>
      match barrier_producer c with
      | BarrierProducerArrive =>
          {| barrier_sync := {| producer_ready := true;
                                consumer_ready := consumer_ready b |};
             producer_rounds := producer_rounds c;
             barrier_producer := BarrierProducerWait;
             consumer_rounds := consumer_rounds c;
             barrier_consumer := barrier_consumer c |}
      | BarrierProducerWait =>
          if consumer_ready b then
            {| barrier_sync := b;
               producer_rounds := producer_rounds c;
               barrier_producer := BarrierResetProducer;
               consumer_rounds := consumer_rounds c;
               barrier_consumer := barrier_consumer c |}
          else c
      | BarrierResetProducer =>
          {| barrier_sync := {| producer_ready := false;
                                consumer_ready := consumer_ready b |};
             producer_rounds := producer_rounds c;
             barrier_producer := BarrierResetConsumer;
             consumer_rounds := consumer_rounds c;
             barrier_consumer := barrier_consumer c |}
      | BarrierResetConsumer =>
          {| barrier_sync := {| producer_ready := producer_ready b;
                                consumer_ready := false |};
             producer_rounds := rounds;
             barrier_producer := BarrierProducerArrive;
             consumer_rounds := consumer_rounds c;
             barrier_consumer := barrier_consumer c |}
      end
  end.

Definition barrier_consumer_step (c : barrier_benchmark) : barrier_benchmark :=
  let b := barrier_sync c in
  match consumer_rounds c with
  | O => c
  | S rounds =>
      match barrier_consumer c with
      | BarrierConsumerArrive =>
          {| barrier_sync := {| producer_ready := producer_ready b;
                                consumer_ready := true |};
             producer_rounds := producer_rounds c;
             barrier_producer := barrier_producer c;
             consumer_rounds := consumer_rounds c;
             barrier_consumer := BarrierConsumerWait |}
      | BarrierConsumerWait =>
          if producer_ready b then
            (* [consumer_barrier] returns true: the round is done *)
            {| barrier_sync := b;
               producer_rounds := producer_rounds c;
               barrier_producer := barrier_producer c;
               consumer_rounds := rounds;
               barrier_consumer := BarrierConsumerArrive |}
          else c
      end
  end.

Definition barrier_step (t : thread) (c : barrier_benchmark)
  : barrier_benchmark :=
  match t with
  | Producer => barrier_producer_step c
  | Consumer => barrier_consumer_step c
  end.

Definition barrier_run (schedule : list thread) (c : barrier_benchmark)
  : barrier_benchmark :=
  foldl (λ c t, barrier_step t c) c schedule.

(** A round in which the consumer passes before the producer resets. *)
Definition barrier_good_round : list thread :=
  [Producer; Consumer; Consumer; Producer; Producer; Producer].

(** A round in which the producer resets before the consumer has looked. *)
Definition barrier_bad_round : list thread :=
  [Producer; Consumer; Producer; Producer; Producer].

(** The state the bad round leaves: the producer has finished, the consumer
    waits for a flag nobody will set. *)
Definition barrier_hung : barrier_benchmark :=
  {| barrier_sync := {| producer_ready := false; consumer_ready := false |};
     producer_rounds := 0;
     barrier_producer := BarrierProducerArrive;
     consumer_rounds := 1;
     barrier_consumer := BarrierConsumerWait |}.

(** ** The accesses of the two threads and their memory orders

    [TryPush] and [TryPop] of [src/core/ring_buffer.h] as the sequences of
    accesses to shared memory they perform, each atomic access with the
    [std::memory_order] the source passes.  What a load returns is not
    decided here: it is a parameter of the call, so that the loads of a
    thread may return whatever a weak memory allows.  An execution is the
    accesses of the producer thread, those of the consumer thread, and for
    each load the store it takes its value from; the relations
    sequenced-before, synchronizes-with and happens-before are those of the
    C++ memory model for this fragment: no [consume] dependency, no fence,
    no read-modify-write. *)

Inductive memory_order : Type :=
| memory_order_relaxed
| memory_order_consume
| memory_order_acquire
| memory_order_release
| memory_order_acq_rel
| memory_order_seq_cst.

(** The orders under which a load is an acquire operation. *)
Definition is_acquire (order : memory_order) : bool :=
  match order with
  | memory_order_acquire | memory_order_acq_rel | memory_order_seq_cst => true
  | _ => false
  end.

(** The orders under which a store is a release operation. *)
Definition is_release (order : memory_order) : bool :=
  match order with
  | memory_order_release | memory_order_acq_rel | memory_order_seq_cst => true
  | _ => false
  end.

(** The two atomic members, [write_idx_] and [read_idx_]. *)
Inductive cursor : Type := WriteIdx | ReadIdx.

#[global] Instance cursor_eq_dec : EqDecision cursor.
Proof. solve_decision. Defined.

Inductive action : Type :=
| AtomicLoad (x : cursor) (order : memory_order) (value : Z)
    (* [x.load(order)], returning [value] *)
| AtomicStore (x : cursor) (order : memory_order) (value : Z)
    (* [x.store(value, order)] *)
| SlotAssign (k : Z)     (* [buffer_[k] = item] *)
| SlotMoveOut (k : Z).   (* [*output = std::move(buffer_[k])] *)

Section Actions.

Variable Size : Z.

(** The accesses of one [TryPush], in the order they are sequenced, when
    the load of [write_idx_] returns [current_write] and the load of
    [read_idx_] returns [read]. *)
Definition TryPush_actions (current_write read : Z) : option (list action) :=
  next_write ← SizeT.rem (SizeT.add current_write 1) Size;
  if decide (next_write = read) then
    Some [AtomicLoad WriteIdx memory_order_relaxed current_write;
          AtomicLoad ReadIdx memory_order_acquire read]
  else if decide (0 ≤ current_write < Size) then
    Some [AtomicLoad WriteIdx memory_order_relaxed current_write;
          AtomicLoad ReadIdx memory_order_acquire read;
          SlotAssign current_write;
          AtomicStore WriteIdx memory_order_release next_write]
  else
    (* a slot outside the array *)
    None.

(** The accesses of one [TryPop], when the load of [read_idx_] returns
    [current_read] and the load of [write_idx_] returns [write]. *)
Definition TryPop_actions (current_read write : Z) : option (list action) :=
  if decide (current_read = write) then
    Some [AtomicLoad ReadIdx memory_order_relaxed current_read;
          AtomicLoad WriteIdx memory_order_acquire write]
  else if decide (0 ≤ current_read < Size) then
    next_read ← SizeT.rem (SizeT.add current_read 1) Size;
    Some [AtomicLoad ReadIdx memory_order_relaxed current_read;
          AtomicLoad WriteIdx memory_order_acquire write;
          SlotMoveOut current_read;
          AtomicStore ReadIdx memory_order_release next_read]
  else
    None.

(** A thread that makes one call after another; [loads] gives, call by
    call, what the load of the thread's own cursor and the load of the
    other cursor return. *)
Fixpoint calls_actions (call : Z → Z → option (list action))
    (loads : list (Z * Z)) : option (list action) :=
  match loads with
  | [] => Some []
  | (own, other) :: loads' =>
      actions ← call own other;
      rest ← calls_actions call loads';
      Some (actions ++ rest)
  end.

(** The producer thread only calls [TryPush], the consumer thread only
    calls [TryPop]. *)
Definition producer_actions (loads : list (Z * Z)) : option (list action) :=
  calls_actions TryPush_actions loads.

Definition consumer_actions (loads : list (Z * Z)) : option (list action) :=
  calls_actions TryPop_actions loads.

End Actions.

(** An access of an execution: the thread and the position in its
    sequence. *)
Definition action_id : Type := (thread * nat)%type.

(** [reads_from] gives, for a load, the store it takes its value from;
    [None] for a load that takes the value the constructor gave the cursor,
    [write_idx_{0}] and [read_idx_{0}]. *)
Record execution : Type := mkExecution {
  producer_trace : list action;
  consumer_trace : list action;
  reads_from : action_id → option action_id
}.

Definition thread_trace (X : execution) (t : thread) : list action :=
  match t with
  | Producer => producer_trace X
  | Consumer => consumer_trace X
  end.

Definition action_of (X : execution) (a : action_id) : option action :=
  thread_trace X a.1 !! a.2.

Definition action_ids (X : execution) : list action_id :=
  ((λ p, (Producer, p)) <$> seq 0 (length (producer_trace X))) ++
  ((λ p, (Consumer, p)) <$> seq 0 (length (consumer_trace X))).

(** Only loads read; a load reads from a store to the same cursor and
    returns the value stored, or returns the initial value. *)
Definition reads_from_ok (X : execution) (l : action_id) : bool :=
  match action_of X l, reads_from X l with
  | Some (AtomicLoad x _ loaded), Some s =>
      match action_of X s with
      | Some (AtomicStore y _ stored) => bool_decide (x = y ∧ loaded = stored)
      | _ => false
      end
  | Some (AtomicLoad _ _ loaded), None => bool_decide (loaded = 0)
  | _, None => true
  | _, Some _ => false
  end.

Definition reads_from_wf (X : execution) : Prop :=
  forallb (reads_from_ok X) (action_ids X) = true.

(** Sequenced-before: earlier in the same thread. *)
Definition sequenced_before (X : execution) (a b : action_id) : Prop :=
  a.1 = b.1 ∧ (a.2 < b.2)%nat ∧ is_Some (action_of X b).

(** Synchronizes-with: a release store, and an acquire load that reads
    from it. *)
Definition synchronizes_with (X : execution) (a b : action_id) : Prop :=
  reads_from X b = Some a ∧
  ∃ x order_a order_b value,
    action_of X a = Some (AtomicStore x order_a value) ∧
    action_of X b = Some (AtomicLoad x order_b value) ∧
    is_release order_a = true ∧ is_acquire order_b = true.

(** Happens-before: the transitive closure of the two. *)
Inductive happens_before (X : execution) : action_id → action_id → Prop :=
| happens_before_sequenced a b :
    sequenced_before X a b → happens_before X a b
| happens_before_synchronizes a b :
    synchronizes_with X a b → happens_before X a b
| happens_before_trans a b c :
    happens_before X a b → happens_before X b c → happens_before X a c.

(** ** Coherence

    Each cursor is written by one thread only, so its modification order
    is the value the constructor gave it, then the stores of that thread in
    program order.  The coherence requirements of the memory model, for the
    accesses of one thread to one cursor: a later load does not take an
    older value than an earlier load did (read-read), a load after a store
    of its own thread takes that store or a later one (write-read), and a
    load takes a value older than any store its own thread makes afterwards
    (read-write). *)

#[global] Instance thread_eq_dec : EqDecision thread.
Proof. solve_decision. Defined.

(** Strictly earlier in the modification order; [None] is the initial
    value. *)
Definition mo_lt (a b : option action_id) : bool :=
  match a, b with
  | _, None => false
  | None, Some _ => true
  | Some a, Some b => bool_decide (a.1 = b.1 ∧ (a.2 < b.2)%nat)
  end.

Definition mo_le (a b : option action_id) : bool :=
  bool_decide (a = b) || mo_lt a b.

(** The requirements on the accesses at [p] and [q] of thread [t], [p]
    before [q]. *)
Definition coherent_at (X : execution) (t : thread) (p q : nat) : bool :=
  match thread_trace X t !! p, thread_trace X t !! q with
  | Some (AtomicLoad x _ _), Some (AtomicLoad y _ _) =>
      if decide (x = y)
      then mo_le (reads_from X (t, p)) (reads_from X (t, q)) else true
  | Some (AtomicStore x _ _), Some (AtomicLoad y _ _) =>
      if decide (x = y)
      then mo_le (Some (t, p)) (reads_from X (t, q)) else true
  | Some (AtomicLoad x _ _), Some (AtomicStore y _ _) =>
      if decide (x = y)
      then mo_lt (reads_from X (t, p)) (Some (t, q)) else true
  | _, _ => true
  end.

Definition coherent (X : execution) : bool :=
  forallb
    (λ t, forallb
            (λ q, forallb (λ p, coherent_at X t p q) (seq 0 q))
            (seq 0 (length (thread_trace X t))))
    [Producer; Consumer].

Definition consistent (X : execution) : Prop :=
  reads_from_wf X ∧ coherent X = true.

Definition is_store (a : action) : bool :=
  match a with
  | AtomicStore _ _ _ => true
  | _ => false
  end.

(** The number of stores among the first [p] accesses of a thread: the
    number of calls that returned true before the access at [p]. *)
Definition stores_before (trace : list action) (p : nat) : nat :=
  length (filter is_store (take p trace)).

(** The place of a value in the modification order of its cursor: 0 for
    the initial value, [n] for the value of the [n]-th store. *)
Definition mo_index (X : execution) (s : option action_id) : nat :=
  match s with
  | None => 0
  | Some s => S (stores_before (thread_trace X s.1) s.2)
  end.

(** A buffer of two slots, three pushes and two pops: the producer writes
    slots 0, 1 and 0 again, the consumer reads slots 0 and 1, and each
    load reads the last store made to its cursor. *)
Definition two_slot_execution : execution :=
  {| producer_trace :=
       [AtomicLoad WriteIdx memory_order_relaxed 0;
        AtomicLoad ReadIdx memory_order_acquire 0;
        SlotAssign 0;
        AtomicStore WriteIdx memory_order_release 1;
        AtomicLoad WriteIdx memory_order_relaxed 1;
        AtomicLoad ReadIdx memory_order_acquire 1;
        SlotAssign 1;
        AtomicStore WriteIdx memory_order_release 0;
        AtomicLoad WriteIdx memory_order_relaxed 0;
        AtomicLoad ReadIdx memory_order_acquire 0;
        SlotAssign 0;
        AtomicStore WriteIdx memory_order_release 1];
     consumer_trace :=
       [AtomicLoad ReadIdx memory_order_relaxed 0;
        AtomicLoad WriteIdx memory_order_acquire 1;
        SlotMoveOut 0;
        AtomicStore ReadIdx memory_order_release 1;
        AtomicLoad ReadIdx memory_order_relaxed 1;
        AtomicLoad WriteIdx memory_order_acquire 0;
        SlotMoveOut 1;
        AtomicStore ReadIdx memory_order_release 0];
     reads_from := λ l,
       match l with
       | (Consumer, 1%nat) => Some (Producer, 3%nat)
       | (Producer, 4%nat) => Some (Producer, 3%nat)
       | (Producer, 5%nat) => Some (Consumer, 3%nat)
       | (Consumer, 4%nat) => Some (Consumer, 3%nat)
       | (Consumer, 5%nat) => Some (Producer, 7%nat)
       | (Producer, 8%nat) => Some (Producer, 7%nat)
       | (Producer, 9%nat) => Some (Consumer, 7%nat)
       | _ => None
       end |}.

(** * Properties *)

Section Properties.

Context {T : Type}.
Variable Size : Z.
Variable moved_from : T → T.

Implicit Types (rb : LockFreeRingBuffer T) (item output x : T) (q : list T).

Local Abbreviation wf := (@wf T Size).
Local Abbreviation is_full := (@is_full T Size).
Local Abbreviation TryPush := (@TryPush T Size).
Local Abbreviation TryPop := (@TryPop T Size moved_from).
Local Abbreviation reachable := (@reachable T Size moved_from).

(** ** Cursor arithmetic *)

Lemma next_cursor c :
  valid_size Size → 0 ≤ c < Size →
  SizeT.rem (SizeT.add c 1) Size = Some ((c + 1) `mod` Size).
Proof.
  unfold valid_size, SizeT.rem, SizeT.add. intros HS Hc.
  rewrite decide_False by lia.
  by rewrite (Z.mod_small (c + 1)) by lia.
Qed.

Lemma next_cursor_cases c :
  0 ≤ c < Size →
  ((c + 1) `mod` Size = c + 1 ∧ c + 1 < Size) ∨
  ((c + 1) `mod` Size = 0 ∧ c + 1 = Size).
Proof.
  intros Hc. destruct (decide (c + 1 = Size)) as [->|Hne].
  - right. split; [apply Z.mod_same; lia | done].
  - left. split; [apply Z.mod_small; lia | lia].
Qed.

Lemma next_cursor_range c :
  0 ≤ c < Size → 0 ≤ (c + 1) `mod` Size < Size.
Proof. intros Hc. apply Z.mod_pos_bound. lia. Qed.

Lemma array_set_in_range (a : list T) i x :
  0 ≤ i < Size → length a = Z.to_nat Size →
  StdArray.set a i x = Some (<[Z.to_nat i := x]> a).
Proof.
  intros Hi Ha. unfold StdArray.set. rewrite decide_True by lia. done.
Qed.

Lemma array_get_in_range (a : list T) i :
  0 ≤ i < Size → length a = Z.to_nat Size →
  ∃ v, a !! Z.to_nat i = Some v.
Proof.
  intros Hi Ha. apply lookup_lt_is_Some_2. lia.
Qed.

(** ** What one call does *)

Lemma TryPush_full rb item :
  wf rb → is_full rb → TryPush rb item = Some (false, rb, item).
Proof.
  intros [HS Hw Hr Hl] Hfull. unfold TryPush.
  rewrite (next_cursor _ HS Hw). simpl.
  by rewrite decide_True.
Qed.

Lemma TryPush_not_full rb item :
  wf rb → ¬ is_full rb →
  TryPush rb item =
    Some (true,
          {| write_idx_ := (write_idx_ rb + 1) `mod` Size;
             read_idx_ := read_idx_ rb;
             buffer_ := <[Z.to_nat (write_idx_ rb) := item]> (buffer_ rb) |},
          item).
Proof.
  intros [HS Hw Hr Hl] Hfull. unfold TryPush.
  rewrite (next_cursor _ HS Hw). simpl.
  rewrite decide_False by done.
  by rewrite (array_set_in_range _ _ _ Hw Hl).
Qed.

Lemma TryPop_empty rb output :
  is_empty rb → TryPop rb output = Some (false, rb, output).
Proof.
  unfold is_empty, TryPop. intros He. by rewrite decide_True.
Qed.

Lemma TryPop_not_empty rb output v :
  wf rb → ¬ is_empty rb →
  buffer_ rb !! Z.to_nat (read_idx_ rb) = Some v →
  TryPop rb output =
    Some (true,
          {| write_idx_ := write_idx_ rb;
             read_idx_ := (read_idx_ rb + 1) `mod` Size;
             buffer_ := <[Z.to_nat (read_idx_ rb) := moved_from v]> (buffer_ rb) |},
          v).
Proof.
  intros [HS Hw Hr Hl] He Hv. unfold TryPop, is_empty in *.
  rewrite decide_False by done.
  unfold StdArray.get. rewrite Hv. simpl.
  rewrite (array_set_in_range _ _ _ Hr Hl). simpl.
  by rewrite (next_cursor _ HS Hr).
Qed.

(** ** The invariant holds in every reachable state *)

Lemma wf_fresh slots :
  valid_size Size → length slots = Z.to_nat Size → wf (fresh slots).
Proof.
  intros HS Hl. split; simpl; try done; unfold valid_size in HS; lia.
Qed.

Lemma TryPush_wf rb item ok rb' item' :
  wf rb → TryPush rb item = Some (ok, rb', item') → wf rb'.
Proof.
  intros Hwf Hpush. destruct (decide (is_full rb)) as [Hf|Hf].
  - rewrite (TryPush_full _ _ Hwf Hf) in Hpush. by simplify_eq.
  - rewrite (TryPush_not_full _ _ Hwf Hf) in Hpush. simplify_eq.
    destruct Hwf as [HS Hw Hr Hl]. split; simpl; try done.
    + by apply next_cursor_range.
    + by rewrite length_insert.
Qed.

Lemma TryPop_wf rb output ok rb' output' :
  wf rb → TryPop rb output = Some (ok, rb', output') → wf rb'.
Proof.
  intros Hwf Hpop. destruct (decide (is_empty rb)) as [He|He].
  - rewrite (TryPop_empty _ _ He) in Hpop. by simplify_eq.
  - destruct (array_get_in_range (buffer_ rb) (read_idx_ rb)) as [v Hv];
      [apply Hwf..|].
    rewrite (TryPop_not_empty _ _ _ Hwf He Hv) in Hpop. simplify_eq.
    destruct Hwf as [HS Hw Hr Hl]. split; simpl; try done.
    + by apply next_cursor_range.
    + by rewrite length_insert.
Qed.

Lemma reachable_wf rb : valid_size Size → reachable rb → wf rb.
Proof.
  intros HS. induction 1 as [slots Hl|rb item ok rb' item' _ IH Hp
                            |rb output ok rb' output' _ IH Hp].
  - by apply wf_fresh.
  - by eapply TryPush_wf.
  - by eapply TryPop_wf.
Qed.

(** ** The live elements *)

Lemma distance_cases w r :
  0 ≤ w < Size → 0 ≤ r < Size →
  (r ≤ w ∧ (w - r) `mod` Size = w - r) ∨
  (w < r ∧ (w - r) `mod` Size = w - r + Size).
Proof.
  intros Hw Hr. destruct (decide (r ≤ w)) as [Hle|Hgt].
  - left. split; [done | apply Z.mod_small; lia].
  - right. split; [lia|]. symmetry.
    apply (Z.mod_unique _ _ (-1)); lia.
Qed.

Lemma offset_cases r i :
  0 ≤ r < Size → 0 ≤ i < Size →
  (r + i < Size ∧ (r + i) `mod` Size = r + i) ∨
  (Size ≤ r + i ∧ (r + i) `mod` Size = r + i - Size).
Proof.
  intros Hr Hi. destruct (decide (r + i < Size)) as [Hlt|Hge].
  - left. split; [done | apply Z.mod_small; lia].
  - right. split; [lia|]. symmetry.
    apply (Z.mod_unique _ _ 1); lia.
Qed.

Lemma count_range rb : wf rb → 0 ≤ count Size rb < Size.
Proof.
  intros [HS Hw Hr Hl]. apply Z.mod_pos_bound. unfold valid_size in HS. lia.
Qed.

Lemma is_empty_count rb : wf rb → is_empty rb ↔ count Size rb = 0.
Proof.
  intros [HS Hw Hr Hl]. unfold is_empty, count.
  destruct (distance_cases _ _ Hw Hr) as [[? ->]|[? ->]]; lia.
Qed.

Lemma is_full_count rb : wf rb → is_full rb ↔ count Size rb = Size - 1.
Proof.
  intros [HS Hw Hr Hl]. unfold is_full, count.
  destruct (distance_cases _ _ Hw Hr) as [[? ->]|[? ->]];
    destruct (next_cursor_cases _ Hw) as [[-> ?]|[-> ?]]; lia.
Qed.

Lemma holds_empty rb : wf rb → is_empty rb → holds Size rb [].
Proof.
  intros Hwf He. split; [|done].
  symmetry. by apply is_empty_count.
Qed.

Lemma holds_length rb q : holds Size rb q → Z.of_nat (length q) = count Size rb.
Proof. by intros [? _]. Qed.

(** A successful [TryPush] appends to the live elements. *)
Lemma holds_push rb q item :
  wf rb → ¬ is_full rb → holds Size rb q →
  holds Size
    {| write_idx_ := (write_idx_ rb + 1) `mod` Size;
       read_idx_ := read_idx_ rb;
       buffer_ := <[Z.to_nat (write_idx_ rb) := item]> (buffer_ rb) |}
    (q ++ [item]).
Proof.
  intros Hwf Hnf [Hlen Hslots].
  pose proof (count_range _ Hwf) as Hc.
  rewrite (is_full_count _ Hwf) in Hnf.
  destruct Hwf as [HS Hw Hr Hl].
  split; unfold count in *; simpl in *.
  - rewrite length_app, Nat2Z.inj_add, Hlen. simpl.
    destruct (distance_cases _ _ Hw Hr) as [[? E1]|[? E1]];
      destruct (next_cursor_cases _ Hw) as [[E2 ?]|[E2 ?]];
      destruct (distance_cases _ _ (next_cursor_range _ Hw) Hr)
        as [[? E3]|[? E3]]; lia.
  - intros i x Hi.
    assert (i < length q ∨ i = length q)%nat as [Hlt| ->].
    { apply lookup_lt_Some in Hi. rewrite length_app in Hi. simpl in Hi. lia. }
    + rewrite lookup_app_l in Hi by done.
      rewrite list_lookup_insert_ne; [by apply Hslots|].
      destruct (distance_cases _ _ Hw Hr) as [[? E1]|[? E1]];
        destruct (offset_cases _ (Z.of_nat i) Hr) as [[? E2]|[? E2]]; lia.
    + rewrite Hlen.
      replace ((read_idx_ rb + (write_idx_ rb - read_idx_ rb) `mod` Size)
                 `mod` Size) with (write_idx_ rb).
      * rewrite list_lookup_insert_eq by lia.
        rewrite lookup_app_r, Nat.sub_diag in Hi by done. by simplify_eq.
      * destruct (distance_cases _ _ Hw Hr) as [[? E1]|[? E1]];
          destruct (offset_cases _ _ Hr Hc) as [[? E2]|[? E2]]; lia.
Qed.

(** A successful [TryPop] takes the oldest live element. *)
Lemma holds_pop rb x q :
  wf rb → holds Size rb (x :: q) →
  ¬ is_empty rb ∧
  buffer_ rb !! Z.to_nat (read_idx_ rb) = Some x ∧
  holds Size
    {| write_idx_ := write_idx_ rb;
       read_idx_ := (read_idx_ rb + 1) `mod` Size;
       buffer_ := <[Z.to_nat (read_idx_ rb) := moved_from x]> (buffer_ rb) |}
    q.
Proof.
  intros Hwf [Hlen Hslots].
  pose proof (count_range _ Hwf) as Hc.
  pose proof (is_empty_count _ Hwf) as He.
  destruct Hwf as [HS Hw Hr Hl].
  change (length (x :: q)) with (S (length q)) in Hlen.
  rewrite Nat2Z.inj_succ in Hlen.
  split; [|split]; [| |split]; unfold count in *;
    cbn [write_idx_ read_idx_ buffer_].
  - rewrite He. lia.
  - specialize (Hslots 0%nat x eq_refl).
    by rewrite Z.add_0_r, Z.mod_small in Hslots.
  - destruct (distance_cases _ _ Hw Hr) as [[? E1]|[? E1]];
      destruct (next_cursor_cases _ Hr) as [[E2 ?]|[E2 ?]];
      destruct (distance_cases _ _ Hw (next_cursor_range _ Hr))
        as [[? E3]|[? E3]]; lia.
  - intros i y Hi.
    pose proof (lookup_lt_Some _ _ _ Hi) as Hlt.
    specialize (Hslots (S i) y Hi).
    assert (0 ≤ Z.of_nat i < Size ∧ 0 ≤ Z.of_nat (S i) < Size) as [Hi1 Hi2]
      by lia.
    assert ((read_idx_ rb + Z.of_nat (S i)) `mod` Size ≠ read_idx_ rb ∧
            ((read_idx_ rb + 1) `mod` Size + Z.of_nat i) `mod` Size =
              (read_idx_ rb + Z.of_nat (S i)) `mod` Size) as [Hne ->].
    { destruct (next_cursor_cases _ Hr) as [[E2 ?]|[E2 ?]];
        destruct (offset_cases _ _ (next_cursor_range _ Hr) Hi1)
          as [[? E3]|[? E3]];
        destruct (offset_cases _ _ Hr Hi2) as [[? E4]|[? E4]]; lia. }
    rewrite list_lookup_insert_ne; [done|].
    pose proof (Z.mod_pos_bound (read_idx_ rb + Z.of_nat (S i)) Size).
    lia.
Qed.

(** ** Sequences of calls *)

Lemma run_app (ops1 ops2 : list (op T)) rb output :
  run Size moved_from (ops1 ++ ops2) rb output =
    '(evs1, rb1, output1) ← run Size moved_from ops1 rb output;
    '(evs2, rb2, output2) ← run Size moved_from ops2 rb1 output1;
    Some (evs1 ++ evs2, rb2, output2).
Proof.
  revert rb output. induction ops1 as [|[item|] ops1 IH]; intros rb output; simpl.
  - by destruct (run _ _ ops2 rb output) as [[[??]?]|].
  - destruct (TryPush rb item) as [[[ok rb'] ?]|]; simpl; [|done].
    rewrite IH.
    destruct (run _ _ ops1 rb' output) as [[[??]?]|]; simpl; [|done].
    by destruct (run _ _ ops2 _ _) as [[[??]?]|].
  - destruct (TryPop rb output) as [[[ok rb'] output']|]; simpl; [|done].
    rewrite IH.
    destruct (run _ _ ops1 rb' output') as [[[??]?]|]; simpl; [|done].
    by destruct (run _ _ ops2 _ _) as [[[??]?]|].
Qed.

(** Pushes that all succeed append their items to the live elements. *)
Lemma run_pushes_holds ps : ∀ rb q output evs rb1 output1,
  wf rb → holds Size rb q →
  run Size moved_from (Push <$> ps) rb output = Some (evs, rb1, output1) →
  evs = (λ _, Pushed true) <$> ps →
  wf rb1 ∧ holds Size rb1 (q ++ ps) ∧ output1 = output.
Proof.
  induction ps as [|p ps IH]; intros rb q output evs rb1 output1 Hwf Hq Hrun Hev.
  - simpl in Hrun. simplify_eq. by rewrite app_nil_r.
  - simpl in Hrun, Hev.
    destruct (decide (is_full rb)) as [Hf|Hf].
    + rewrite (TryPush_full _ _ Hwf Hf) in Hrun. simpl in Hrun.
      destruct (run _ _ _ rb output) as [[[??]?]|]; simpl in Hrun; simplify_eq.
    + pose proof (TryPush_not_full _ p Hwf Hf) as Hpush.
      rewrite Hpush in Hrun. simpl in Hrun.
      destruct (run _ _ _ _ output) as [[[evs' rb'] output']|] eqn:Hrest;
        simpl in Hrun; simplify_eq.
      rewrite (cons_middle p q ps), app_assoc.
      eapply IH; [| |exact Hrest|done].
      * by eapply TryPush_wf.
      * by apply holds_push.
Qed.

Lemma last_nonempty_default (l : list T) x d d' :
  List.last (x :: l) d = List.last (x :: l) d'.
Proof.
  revert x. induction l as [|y l IH]; intros x; [done|].
  change (List.last (y :: l) d = List.last (y :: l) d'). apply IH.
Qed.

(** Pops return the live elements, oldest first. *)
Lemma run_pops_holds ps : ∀ rb q output,
  wf rb → holds Size rb (ps ++ q) →
  ∃ rb1,
    run Size moved_from (replicate (length ps) Pop) rb output =
      Some (Popped true <$> ps, rb1, List.last ps output) ∧
    wf rb1 ∧ holds Size rb1 q.
Proof.
  induction ps as [|p ps IH]; intros rb q output Hwf Hq.
  - exists rb. by simpl.
  - simpl in Hq. destruct (holds_pop _ _ _ Hwf Hq) as (Hne & Hslot & Hq').
    pose proof (TryPop_not_empty _ output _ Hwf Hne Hslot) as Hpop.
    destruct (IH _ q p (TryPop_wf _ _ _ _ _ Hwf Hpop) Hq') as (rb1 & Hrun & Hwf1 & Hq1).
    exists rb1. split; [|done].
    simpl. rewrite Hpop. simpl. rewrite Hrun. simpl.
    do 2 f_equal. destruct ps; [done|]. apply last_nonempty_default.
Qed.

Lemma count_push rb item :
  wf rb → ¬ is_full rb →
  count Size
    {| write_idx_ := (write_idx_ rb + 1) `mod` Size;
       read_idx_ := read_idx_ rb;
       buffer_ := <[Z.to_nat (write_idx_ rb) := item]> (buffer_ rb) |} =
    count Size rb + 1.
Proof.
  intros Hwf Hnf. rewrite (is_full_count _ Hwf) in Hnf.
  pose proof (count_range _ Hwf) as Hc.
  destruct Hwf as [HS Hw Hr Hl]. unfold count in *.
  cbn [write_idx_ read_idx_ buffer_].
  destruct (distance_cases _ _ Hw Hr) as [[? E1]|[? E1]];
    destruct (next_cursor_cases _ Hw) as [[E2 ?]|[E2 ?]];
    destruct (distance_cases _ _ (next_cursor_range _ Hw) Hr)
      as [[? E3]|[? E3]]; lia.
Qed.

(** While there is room, every push succeeds. *)
Lemma run_pushes_room items : ∀ rb output,
  wf rb → count Size rb + Z.of_nat (length items) ≤ Size - 1 →
  ∃ rb1,
    run Size moved_from (Push <$> items) rb output =
      Some (replicate (length items) (Pushed true), rb1, output) ∧
    wf rb1 ∧ count Size rb1 = count Size rb + Z.of_nat (length items).
Proof.
  induction items as [|p items IH]; intros rb output Hwf Hroom.
  - exists rb. simpl. split; [done|]. split; [done|lia].
  - change (length (p :: items)) with (S (length items)) in *.
    rewrite Nat2Z.inj_succ in *.
    pose proof (count_range _ Hwf) as Hc.
    assert (¬ is_full rb) as Hnf by (rewrite (is_full_count _ Hwf); lia).
    pose proof (TryPush_not_full _ p Hwf Hnf) as Hpush.
    pose proof (count_push _ p Hwf Hnf) as Hcount.
    destruct (IH _ output (TryPush_wf _ _ _ _ _ Hwf Hpush))
      as (rb1 & Hrun & Hwf1 & Hc1); [lia|].
    exists rb1. rewrite fmap_cons. cbn [run]. rewrite Hpush.
    simpl in Hrun |- *. rewrite Hrun. simpl.
    split; [done|]. split; [done|lia].
Qed.

(** ** The specification's claims *)

(** C1 (FIFO order).  Starting from an empty buffer, if the pushes of
    [p1, ..., pk] all succeed and no pop comes between them, then the next
    [k] pops all succeed and return [p1, ..., pk] in that order, leaving the
    buffer empty again and the last item in the caller's output object. *)
Theorem fifo_order rb ps evs rb1 output output1 :
  wf rb → is_empty rb →
  run Size moved_from (Push <$> ps) rb output = Some (evs, rb1, output1) →
  evs = (λ _, Pushed true) <$> ps →
  ∃ rb2,
    run Size moved_from (replicate (length ps) Pop) rb1 output1 =
      Some (Popped true <$> ps, rb2, List.last ps output1) ∧
    is_empty rb2.
Proof.
  intros Hwf He Hrun Hev.
  destruct (run_pushes_holds ps rb [] output evs rb1 output1 Hwf
              (holds_empty _ Hwf He) Hrun Hev) as (Hwf1 & Hq1 & ->).
  simpl in Hq1. rewrite <- (app_nil_r ps) in Hq1.
  destruct (run_pops_holds ps rb1 [] output Hwf1 Hq1) as (rb2 & Hpops & Hwf2 & Hq2).
  exists rb2. split; [done|].
  apply (is_empty_count _ Hwf2). by rewrite <- (holds_length _ _ Hq2).
Qed.

(** C2 (empty and full).  In every state reachable from a fresh buffer,
    [TryPop] is defined and fails exactly when the two cursors are equal,
    [TryPush] is defined and fails exactly when
    [(write_cursor + 1) mod N = read_cursor], and both cursors lie in
    [[0, N)]. *)
Theorem reachable_empty_full_cursors rb :
  valid_size Size → reachable rb →
  (∀ output, ∃ ok rb' output',
      TryPop rb output = Some (ok, rb', output') ∧
      (ok = false ↔ read_idx_ rb = write_idx_ rb)) ∧
  (∀ item, ∃ ok rb' item',
      TryPush rb item = Some (ok, rb', item') ∧
      (ok = false ↔ (write_idx_ rb + 1) `mod` Size = read_idx_ rb)) ∧
  0 ≤ read_idx_ rb < Size ∧
  0 ≤ write_idx_ rb < Size.
Proof.
  intros HS Hreach. pose proof (reachable_wf _ HS Hreach) as Hwf.
  split; [|split; [|split; apply Hwf]].
  - intros output. destruct (decide (is_empty rb)) as [He|He].
    + exists false, rb, output. by rewrite (TryPop_empty _ _ He).
    + destruct (array_get_in_range (buffer_ rb) (read_idx_ rb)) as [v Hv];
        [apply Hwf..|].
      eexists true, _, v. rewrite (TryPop_not_empty _ _ _ Hwf He Hv).
      split; [done|]. split; [done|]. intros Heq. by destruct He.
  - intros item. destruct (decide (is_full rb)) as [Hf|Hf].
    + exists false, rb, item. by rewrite (TryPush_full _ _ Hwf Hf).
    + eexists true, _, item. rewrite (TryPush_not_full _ _ Hwf Hf).
      split; [done|]. split; [done|]. intros Heq. by destruct Hf.
Qed.

(** C3 (capacity bound).  Starting from an empty buffer of capacity [N],
    of [N] consecutive pushes with no pop between them the first [N - 1]
    succeed and the [N]-th returns false. *)
Theorem capacity_bound rb items output :
  wf rb → is_empty rb → length items = Z.to_nat Size →
  ∃ rb1,
    run Size moved_from (Push <$> items) rb output =
      Some (replicate (Z.to_nat (Size - 1)) (Pushed true) ++ [Pushed false],
            rb1, output).
Proof.
  intros Hwf He Hlen.
  assert (0 < Size) as Hpos by apply Hwf.
  destruct items as [|z init _] using rev_ind; [simpl in Hlen; lia|].
  rewrite length_app in Hlen. simpl in Hlen.
  apply (is_empty_count _ Hwf) in He.
  destruct (run_pushes_room init rb output Hwf) as (rb1 & Hrun & Hwf1 & Hc1);
    [lia|].
  assert (is_full rb1) as Hf by (apply (is_full_count _ Hwf1); lia).
  exists rb1. rewrite fmap_app, run_app, Hrun. simpl.
  rewrite (TryPush_full _ _ Hwf1 Hf). simpl.
  by replace (Z.to_nat (Size - 1)) with (length init) by lia.
Qed.

(** C4 ([TryPush]).  On a full buffer [TryPush] returns false and leaves
    the cursors, every slot and the caller's item as they were.  Otherwise it
    returns true, having stored the item in the slot at the write cursor and
    advanced the write cursor by one position mod [N]. *)
Theorem TryPush_effect rb item :
  wf rb →
  (is_full rb → TryPush rb item = Some (false, rb, item)) ∧
  (¬ is_full rb →
     TryPush rb item =
       Some (true,
             {| write_idx_ := (write_idx_ rb + 1) `mod` Size;
                read_idx_ := read_idx_ rb;
                buffer_ := <[Z.to_nat (write_idx_ rb) := item]> (buffer_ rb) |},
             item) ∧
     <[Z.to_nat (write_idx_ rb) := item]> (buffer_ rb)
       !! Z.to_nat (write_idx_ rb) = Some item).
Proof.
  intros Hwf. split; intros Hf.
  - by apply TryPush_full.
  - split; [by apply TryPush_not_full|].
    destruct Hwf as [HS Hw Hr Hl]. apply list_lookup_insert_eq. lia.
Qed.

(** C5 ([TryPop]).  On an empty buffer [TryPop] returns false and leaves
    the cursors and every slot as they were.  Otherwise it returns true,
    hands out the value stored at the read cursor and advances the read
    cursor by one position mod [N]; the slot keeps what the move left. *)
Theorem TryPop_effect rb output :
  wf rb →
  (is_empty rb → TryPop rb output = Some (false, rb, output)) ∧
  (¬ is_empty rb →
     ∃ v, buffer_ rb !! Z.to_nat (read_idx_ rb) = Some v ∧
       TryPop rb output =
         Some (true,
               {| write_idx_ := write_idx_ rb;
                  read_idx_ := (read_idx_ rb + 1) `mod` Size;
                  buffer_ :=
                    <[Z.to_nat (read_idx_ rb) := moved_from v]> (buffer_ rb) |},
               v)).
Proof.
  intros Hwf. split; intros He.
  - by apply TryPop_empty.
  - destruct (array_get_in_range (buffer_ rb) (read_idx_ rb)) as [v Hv];
      [apply Hwf..|].
    exists v. split; [done|]. by apply TryPop_not_empty.
Qed.

(** C9 (output untouched on failure).  A [TryPop] on an empty buffer
    returns false without assigning through [output]; and whenever [TryPop]
    returns false the buffer was empty and the caller's object is the one it
    was before the call. *)
Theorem TryPop_failure_keeps_output rb output :
  (is_empty rb → TryPop rb output = Some (false, rb, output)) ∧
  (∀ rb' output',
     TryPop rb output = Some (false, rb', output') →
     is_empty rb ∧ rb' = rb ∧ output' = output).
Proof.
  split; [by apply TryPop_empty|].
  intros rb' output'. unfold TryPop, is_empty.
  destruct (decide (read_idx_ rb = write_idx_ rb)) as [He|He].
  - intros ?. by simplify_eq.
  - destruct (StdArray.get _ _) as [v|]; simpl; [|done].
    destruct (StdArray.set _ _ _) as [slots|]; simpl; [|done].
    destruct (SizeT.rem _ _) as [next_read|]; simpl; [|done].
    intros ?. simplify_eq.
Qed.

(** C10 (frame of a successful call).  A [TryPush] that returns true
    leaves the read cursor, every slot other than the one at the old write
    cursor, the number of slots and the caller's item unchanged.  A [TryPop]
    that returns true leaves the write cursor unchanged. *)
Theorem success_frame rb :
  (∀ item rb' item',
     TryPush rb item = Some (true, rb', item') →
     read_idx_ rb' = read_idx_ rb ∧
     (∀ i : nat, i ≠ Z.to_nat (write_idx_ rb) →
                 buffer_ rb' !! i = buffer_ rb !! i) ∧
     length (buffer_ rb') = length (buffer_ rb) ∧
     item' = item) ∧
  (∀ output rb' output',
     TryPop rb output = Some (true, rb', output') →
     write_idx_ rb' = write_idx_ rb).
Proof.
  split.
  - intros item rb' item'. unfold TryPush, StdArray.set.
    destruct (SizeT.rem _ _) as [next_write|]; simpl; [|done].
    destruct (decide (next_write = read_idx_ rb)); [done|].
    destruct (decide (_ < _)%nat); simpl; [|done].
    intros ?. simplify_eq. simpl.
    split; [done|]. split; [|by rewrite length_insert].
    intros i Hi. by rewrite list_lookup_insert_ne.
  - intros output rb' output'. unfold TryPop.
    destruct (decide (read_idx_ rb = write_idx_ rb)); [done|].
    destruct (StdArray.get _ _) as [v|]; simpl; [|done].
    destruct (StdArray.set _ _ _) as [slots|]; simpl; [|done].
    destruct (SizeT.rem _ _) as [next_read|]; simpl; [|done].
    intros ?. by simplify_eq.
Qed.

End Properties.

(** ** Fixed capacities *)

Section Capacities.

Context {T : Type}.
Variable moved_from : T → T.

(** C7 (capacity 1).  In every state of a buffer of capacity 1 the full
    condition [(write + 1) mod 1 = read] holds: every [TryPush] returns false
    and changes nothing, so the buffer stays empty and every [TryPop]
    returns false as well. *)
Theorem capacity_one_unusable (rb : LockFreeRingBuffer T) :
  reachable 1 moved_from rb →
  is_full 1 rb ∧
  (∀ item, TryPush 1 rb item = Some (false, rb, item)) ∧
  (∀ output, TryPop 1 moved_from rb output = Some (false, rb, output)).
Proof.
  intros Hreach.
  assert (valid_size 1) as HS by (split; reflexivity).
  pose proof (reachable_wf 1 moved_from rb HS Hreach) as Hwf.
  destruct Hwf as [_ Hw Hr Hl].
  assert (write_idx_ rb = 0 ∧ read_idx_ rb = 0) as [Ew Er] by lia.
  assert (is_full 1 rb) as Hf by (unfold is_full; rewrite Ew, Er; reflexivity).
  split; [done|]. split.
  - intros item. apply TryPush_full; [|done]. by split.
  - intros output. apply TryPop_empty. unfold is_empty. by rewrite Ew, Er.
Qed.

(** C6 (concrete scenario).  On a fresh buffer of capacity 4: pushing A,
    B, C succeeds; pushing D fails; two pops return A then B; pushing D and E
    succeeds; pushing F fails; three pops return C, D, E; a last pop fails
    and leaves E in the caller's object. *)
Theorem scenario_capacity_4 (A B C D E F : T) (s0 s1 s2 s3 result : T) :
  run 4 moved_from
    [Push A; Push B; Push C; Push D; Pop; Pop;
     Push D; Push E; Push F; Pop; Pop; Pop; Pop]
    (fresh [s0; s1; s2; s3]) result =
  Some ([Pushed true; Pushed true; Pushed true; Pushed false;
         Popped true A; Popped true B;
         Pushed true; Pushed true; Pushed false;
         Popped true C; Popped true D; Popped true E;
         Popped false E],
        {| write_idx_ := 1;
           read_idx_ := 1;
           buffer_ := [moved_from E; moved_from B; moved_from C; moved_from D] |},
        E).
Proof. reflexivity. Qed.

End Capacities.

(** ** Worked instances

    The buffer of [int]-like values ([moved_from] is the identity) at
    capacity 4, and at capacity 1. *)

Ltac concrete_wf :=
  split; [split; reflexivity | simpl; lia | simpl; lia | reflexivity].

(** Three pushes into a buffer emptied at cursor 2 wrap around the end of
    the array; the three pops return them in order. *)
Lemma fifo_order_witness :
  ∃ rb2,
    run 4 id (replicate (length [11; 12; 13]) Pop)
      {| write_idx_ := 1; read_idx_ := 2; buffer_ := [13; 0; 11; 12] |} 0 =
      Some (Popped true <$> [11; 12; 13], rb2, List.last [11; 12; 13] 0) ∧
    is_empty rb2.
Proof.
  apply (fifo_order 4 id
           {| write_idx_ := 2; read_idx_ := 2; buffer_ := [0; 0; 0; 0] |}
           [11; 12; 13] [Pushed true; Pushed true; Pushed true] _ 0 0).
  - concrete_wf.
  - reflexivity.
  - reflexivity.
  - reflexivity.
Defined.

(** The state after one push on a fresh buffer. *)
Lemma reachable_empty_full_cursors_witness :
  let rb := {| write_idx_ := 1; read_idx_ := 0; buffer_ := [7; 0; 0; 0] |} in
  (∀ output, ∃ ok rb' output',
      TryPop 4 id rb output = Some (ok, rb', output') ∧
      (ok = false ↔ read_idx_ rb = write_idx_ rb)) ∧
  (∀ item, ∃ ok rb' item',
      TryPush 4 rb item = Some (ok, rb', item') ∧
      (ok = false ↔ (write_idx_ rb + 1) `mod` 4 = read_idx_ rb)) ∧
  0 ≤ read_idx_ rb < 4 ∧
  0 ≤ write_idx_ rb < 4.
Proof.
  apply (reachable_empty_full_cursors 4 id).
  - split; reflexivity.
  - apply (reachable_push 4 id (fresh [0; 0; 0; 0]) 7 true _ 7).
    + apply reachable_fresh. reflexivity.
    + reflexivity.
Defined.

Lemma capacity_bound_witness :
  ∃ rb1,
    run 4 id (Push <$> [11; 12; 13; 14]) (fresh [0; 0; 0; 0]) 0 =
      Some (replicate (Z.to_nat (4 - 1)) (Pushed true) ++ [Pushed false],
            rb1, 0).
Proof.
  apply (capacity_bound 4 id (fresh [0; 0; 0; 0]) [11; 12; 13; 14] 0).
  - concrete_wf.
  - reflexivity.
  - reflexivity.
Defined.

Lemma TryPush_effect_witness :
  let rb := {| write_idx_ := 3; read_idx_ := 1; buffer_ := [0; 5; 6; 0] |} in
  (is_full 4 rb → TryPush 4 rb 7 = Some (false, rb, 7)) ∧
  (¬ is_full 4 rb →
     TryPush 4 rb 7 =
       Some (true,
             {| write_idx_ := (write_idx_ rb + 1) `mod` 4;
                read_idx_ := read_idx_ rb;
                buffer_ := <[Z.to_nat (write_idx_ rb) := 7]> (buffer_ rb) |},
             7) ∧
     <[Z.to_nat (write_idx_ rb) := 7]> (buffer_ rb)
       !! Z.to_nat (write_idx_ rb) = Some 7).
Proof.
  apply (TryPush_effect 4
           {| write_idx_ := 3; read_idx_ := 1; buffer_ := [0; 5; 6; 0] |} 7).
  concrete_wf.
Defined.

Lemma TryPop_effect_witness :
  let rb := {| write_idx_ := 0; read_idx_ := 3; buffer_ := [0; 0; 0; 9] |} in
  (is_empty rb → TryPop 4 id rb 1 = Some (false, rb, 1)) ∧
  (¬ is_empty rb →
     ∃ v, buffer_ rb !! Z.to_nat (read_idx_ rb) = Some v ∧
       TryPop 4 id rb 1 =
         Some (true,
               {| write_idx_ := write_idx_ rb;
                  read_idx_ := (read_idx_ rb + 1) `mod` 4;
                  buffer_ := <[Z.to_nat (read_idx_ rb) := id v]> (buffer_ rb) |},
               v)).
Proof.
  apply (TryPop_effect 4 id
           {| write_idx_ := 0; read_idx_ := 3; buffer_ := [0; 0; 0; 9] |} 1).
  concrete_wf.
Defined.

Lemma capacity_one_unusable_witness :
  is_full 1 (fresh [0]) ∧
  (∀ item, TryPush 1 (fresh [0]) item = Some (false, fresh [0], item)) ∧
  (∀ output, TryPop 1 id (fresh [0]) output = Some (false, fresh [0], output)).
Proof.
  apply (capacity_one_unusable id (fresh [0])).
  apply reachable_fresh. reflexivity.
Defined.

(** * Any order of calls *)

Section AnyOrder.

Context {T : Type}.
Variable Size : Z.
Variable moved_from : T → T.

Implicit Types (rb : LockFreeRingBuffer T) (item output x : T) (q : list T).

Local Abbreviation wf := (@wf T Size).
Local Abbreviation is_full := (@is_full T Size).
Local Abbreviation holds := (@holds T Size).
Local Abbreviation TryPush := (@TryPush T Size).
Local Abbreviation TryPop := (@TryPop T Size moved_from).

Lemma count_pop rb v :
  wf rb → ¬ is_empty rb →
  count Size
    {| write_idx_ := write_idx_ rb;
       read_idx_ := (read_idx_ rb + 1) `mod` Size;
       buffer_ := <[Z.to_nat (read_idx_ rb) := v]> (buffer_ rb) |} =
    count Size rb - 1.
Proof.
  intros Hwf Hne. rewrite (is_empty_count _ _ Hwf) in Hne.
  pose proof (count_range _ _ Hwf) as Hc.
  destruct Hwf as [HS Hw Hr Hl]. unfold count in *.
  cbn [write_idx_ read_idx_ buffer_].
  destruct (distance_cases Size _ _ Hw Hr) as [[? E1]|[? E1]];
    destruct (next_cursor_cases Size _ Hr) as [[E2 ?]|[E2 ?]];
    destruct (distance_cases Size _ _ Hw (next_cursor_range Size _ Hr))
      as [[? E3]|[? E3]]; lia.
Qed.

(** The buffer simulates the bounded queue, call by call. *)
Lemma run_simulates ops : ∀ rb q result,
  wf rb → holds rb q →
  ∃ rb',
    run Size moved_from ops rb result =
      Some ((Fifo.run Size ops q result).1.1, rb',
            (Fifo.run Size ops q result).2) ∧
    wf rb' ∧ holds rb' (Fifo.run Size ops q result).1.2.
Proof.
  induction ops as [|[item|] ops IH]; intros rb q result Hwf Hq.
  - exists rb. by simpl.
  - pose proof (holds_length _ _ _ Hq) as Hlen.
    cbn [run Fifo.run]. unfold Fifo.push.
    destruct (decide (Size - 1 ≤ Z.of_nat (length q))) as [Hge|Hlt].
    + assert (is_full rb) as Hf.
      { apply (is_full_count _ _ Hwf). pose proof (count_range _ _ Hwf). lia. }
      rewrite (TryPush_full _ _ _ Hwf Hf). simpl.
      destruct (IH rb q result Hwf Hq) as (rb' & -> & Hwf' & Hq').
      exists rb'. simpl.
      by destruct (Fifo.run Size ops q result) as [[evs q'] result'].
    + assert (¬ is_full rb) as Hf.
      { rewrite (is_full_count _ _ Hwf). lia. }
      pose proof (TryPush_not_full _ _ item Hwf Hf) as Hpush.
      rewrite Hpush. simpl.
      destruct (IH _ (q ++ [item]) result (TryPush_wf _ _ _ _ _ _ Hwf Hpush)
                  (holds_push _ _ _ _ Hwf Hf Hq)) as (rb' & -> & Hwf' & Hq').
      exists rb'. simpl.
      by destruct (Fifo.run Size ops (q ++ [item]) result) as [[evs q'] result'].
  - cbn [run Fifo.run]. destruct q as [|x q]; cbn [Fifo.pop].
    + assert (is_empty rb) as He.
      { apply (is_empty_count _ _ Hwf). by rewrite <- (holds_length _ _ _ Hq). }
      rewrite (TryPop_empty _ _ _ _ He). simpl.
      destruct (IH rb [] result Hwf Hq) as (rb' & -> & Hwf' & Hq').
      exists rb'. simpl.
      by destruct (Fifo.run Size ops [] result) as [[evs q'] result'].
    + destruct (holds_pop _ moved_from _ _ _ Hwf Hq) as (Hne & Hslot & Hq1).
      pose proof (TryPop_not_empty _ moved_from _ result _ Hwf Hne Hslot) as Hpop.
      rewrite Hpop. simpl.
      destruct (IH _ q x (TryPop_wf _ _ _ _ _ _ _ Hwf Hpop) Hq1)
        as (rb' & -> & Hwf' & Hq').
      exists rb'. simpl.
      by destruct (Fifo.run Size ops q x) as [[evs q'] result'].
Qed.

(** The queue neither loses nor duplicates nor reorders anything. *)
Lemma fifo_conservation ops : ∀ q result,
  q ++ accepted ops (Fifo.run Size ops q result).1.1 =
    delivered (Fifo.run Size ops q result).1.1 ++
    (Fifo.run Size ops q result).1.2.
Proof.
  induction ops as [|[item|] ops IH]; intros q result.
  - simpl. by rewrite app_nil_r.
  - cbn [Fifo.run]. unfold Fifo.push.
    destruct (decide (Size - 1 ≤ Z.of_nat (length q))).
    + specialize (IH q result).
      destruct (Fifo.run Size ops q result) as [[evs q'] result']. done.
    + specialize (IH (q ++ [item]) result).
      destruct (Fifo.run Size ops (q ++ [item]) result) as [[evs q'] result'].
      simpl in *. by rewrite <- IH, <- app_assoc.
  - cbn [Fifo.run]. destruct q as [|x q]; cbn [Fifo.pop].
    + specialize (IH [] result).
      destruct (Fifo.run Size ops [] result) as [[evs q'] result']. done.
    + specialize (IH q x).
      destruct (Fifo.run Size ops q x) as [[evs q'] result'].
      simpl in *. by rewrite IH.
Qed.

(** What a run does at its first call. *)
Lemma run_push_inv item ops rb result evs rb' result' :
  wf rb → run Size moved_from (Push item :: ops) rb result = Some (evs, rb', result') →
  (is_full rb ∧ ∃ evs',
      evs = Pushed false :: evs' ∧
      run Size moved_from ops rb result = Some (evs', rb', result')) ∨
  (¬ is_full rb ∧ ∃ evs',
      evs = Pushed true :: evs' ∧
      run Size moved_from ops
        {| write_idx_ := (write_idx_ rb + 1) `mod` Size;
           read_idx_ := read_idx_ rb;
           buffer_ := <[Z.to_nat (write_idx_ rb) := item]> (buffer_ rb) |}
        result = Some (evs', rb', result')).
Proof.
  intros Hwf Hrun. cbn [run] in Hrun.
  destruct (decide (is_full rb)) as [Hf|Hf]; [left|right]; (split; [done|]).
  - rewrite (TryPush_full _ _ _ Hwf Hf) in Hrun. simpl in Hrun.
    destruct (run _ _ ops rb result) as [[[evs' ?] ?]|];
      simpl in Hrun; simplify_eq. by exists evs'.
  - rewrite (TryPush_not_full _ _ _ Hwf Hf) in Hrun. simpl in Hrun.
    destruct (run _ _ ops _ result) as [[[evs' ?] ?]|];
      simpl in Hrun; simplify_eq. by exists evs'.
Qed.

Lemma run_pop_inv ops rb result evs rb' result' :
  wf rb → run Size moved_from (Pop :: ops) rb result = Some (evs, rb', result') →
  (is_empty rb ∧ ∃ evs',
      evs = Popped false result :: evs' ∧
      run Size moved_from ops rb result = Some (evs', rb', result')) ∨
  (¬ is_empty rb ∧ ∃ v evs',
      buffer_ rb !! Z.to_nat (read_idx_ rb) = Some v ∧
      evs = Popped true v :: evs' ∧
      run Size moved_from ops
        {| write_idx_ := write_idx_ rb;
           read_idx_ := (read_idx_ rb + 1) `mod` Size;
           buffer_ := <[Z.to_nat (read_idx_ rb) := moved_from v]> (buffer_ rb) |}
        v = Some (evs', rb', result')).
Proof.
  intros Hwf Hrun. cbn [run] in Hrun.
  destruct (decide (is_empty rb)) as [He|He]; [left|right]; (split; [done|]).
  - rewrite (TryPop_empty _ _ _ _ He) in Hrun. simpl in Hrun.
    destruct (run _ _ ops rb result) as [[[evs' ?] ?]|];
      simpl in Hrun; simplify_eq. by exists evs'.
  - destruct (array_get_in_range Size (buffer_ rb) (read_idx_ rb)) as [v Hv];
      [apply Hwf..|].
    rewrite (TryPop_not_empty _ _ _ _ _ Hwf He Hv) in Hrun. simpl in Hrun.
    destruct (run _ _ ops _ v) as [[[evs' ?] ?]|] eqn:Hrest;
      simpl in Hrun; simplify_eq. exists v, evs'. by split; [|split].
Qed.

Lemma wf_after_push rb item :
  wf rb →
  wf {| write_idx_ := (write_idx_ rb + 1) `mod` Size;
        read_idx_ := read_idx_ rb;
        buffer_ := <[Z.to_nat (write_idx_ rb) := item]> (buffer_ rb) |}.
Proof.
  intros [HS Hw Hr Hl]. split; simpl; try done.
  - by apply next_cursor_range.
  - by rewrite length_insert.
Qed.

Lemma wf_after_pop rb v :
  wf rb →
  wf {| write_idx_ := write_idx_ rb;
        read_idx_ := (read_idx_ rb + 1) `mod` Size;
        buffer_ := <[Z.to_nat (read_idx_ rb) := v]> (buffer_ rb) |}.
Proof.
  intros [HS Hw Hr Hl]. split; simpl; try done.
  - by apply next_cursor_range.
  - by rewrite length_insert.
Qed.

Lemma omap_seq_spec {A} (f : nat → option A) n : ∀ s,
  (∀ i, (i < n)%nat → is_Some (f (s + i)%nat)) →
  length (omap f (seq s n)) = n ∧
  ∀ i (a : A), omap f (seq s n) !! i = Some a → f (s + i)%nat = Some a.
Proof.
  induction n as [|n IH]; intros s Hf; [done|].
  destruct (Hf 0%nat) as [y Hy]; [lia|]. rewrite Nat.add_0_r in Hy.
  destruct (IH (S s)) as [Hlen Hlook].
  { intros i Hi. replace (S s + i)%nat with (s + S i)%nat by lia.
    apply Hf. lia. }
  cbn [seq omap list_omap]. rewrite Hy.
  split; [simpl; f_equal; exact Hlen|].
  intros [|i] a Ha; simpl in Ha.
  - rewrite Nat.add_0_r. by simplify_eq.
  - replace (s + S i)%nat with (S s + i)%nat by lia. by apply Hlook.
Qed.

(** [live] computes the list that [holds] describes. *)
Lemma holds_live rb : wf rb → holds rb (live Size rb).
Proof.
  intros Hwf. pose proof (count_range _ _ Hwf) as Hc.
  destruct (omap_seq_spec
              (λ i : nat, buffer_ rb !! Z.to_nat
                            ((read_idx_ rb + Z.of_nat i) `mod` Size))
              (Z.to_nat (count Size rb)) 0%nat) as [Hlen Hlook].
  { intros i Hi. apply lookup_lt_is_Some_2.
    destruct Hwf as [HS Hw Hr Hl]. rewrite Hl.
    pose proof (Z.mod_pos_bound (read_idx_ rb + Z.of_nat (0 + i)) Size).
    lia. }
  split.
  - unfold live. rewrite Hlen. lia.
  - intros i x Hi. by apply Hlook in Hi.
Qed.

Lemma holds_unique rb q q' : holds rb q → holds rb q' → q = q'.
Proof.
  intros [Hlen Hslots] [Hlen' Hslots'].
  apply list_eq_same_length with (length q); [|done|].
  { apply Nat2Z.inj. by rewrite Hlen, Hlen'. }
  intros i x y Hi Hx Hy.
  apply Hslots in Hx. apply Hslots' in Hy. congruence.
Qed.

Lemma holds_is_live rb q : wf rb → holds rb q → q = live Size rb.
Proof. intros Hwf Hq. eapply holds_unique; [done|by apply holds_live]. Qed.

(** X1.  Driven through any sequence of [TryPush] and [TryPop] calls, the
    buffer never runs into undefined behaviour and returns, call by call,
    what a first-in first-out queue bounded at [Size - 1] elements returns
    when it starts with the buffer's live elements; the live elements at the
    end are the queue's. *)
Theorem run_refines_fifo ops rb result :
  wf rb →
  ∃ rb',
    run Size moved_from ops rb result =
      Some ((Fifo.run Size ops (live Size rb) result).1.1, rb',
            (Fifo.run Size ops (live Size rb) result).2) ∧
    wf rb' ∧
    live Size rb' = (Fifo.run Size ops (live Size rb) result).1.2.
Proof.
  intros Hwf.
  destruct (run_simulates ops rb _ result Hwf (holds_live _ Hwf))
    as (rb' & Hrun & Hwf' & Hq').
  exists rb'. split; [done|]. split; [done|].
  symmetry. by apply holds_is_live.
Qed.

(** X2.  Nothing is lost, duplicated or reordered: after any sequence of
    calls, the elements that were live at the start followed by the items
    whose push succeeded are the values the successful pops returned
    followed by the elements still live. *)
Theorem no_loss_no_duplication ops rb result evs rb' result' :
  wf rb →
  run Size moved_from ops rb result = Some (evs, rb', result') →
  live Size rb ++ accepted ops evs = delivered evs ++ live Size rb'.
Proof.
  intros Hwf Hrun.
  destruct (run_simulates ops rb _ result Hwf (holds_live _ Hwf))
    as (rb1 & Hrun1 & Hwf1 & Hq1).
  rewrite Hrun in Hrun1. simplify_eq.
  rewrite <- (holds_is_live _ _ Hwf1 Hq1). apply fifo_conservation.
Qed.

(** X3.  After any sequence of calls the number of live elements is the
    number at the start plus the successful pushes minus the successful
    pops, and it lies between 0 and [Size - 1]. *)
Theorem occupancy_counts_successes ops : ∀ rb result evs rb' result',
  wf rb → run Size moved_from ops rb result = Some (evs, rb', result') →
  count Size rb' =
    count Size rb + Z.of_nat (length (accepted ops evs))
             - Z.of_nat (length (delivered evs)) ∧
  0 ≤ count Size rb' ≤ Size - 1.
Proof.
  induction ops as [|[item|] ops IH]; intros rb result evs rb' result' Hwf Hrun.
  - simpl in Hrun. simplify_eq. simpl.
    pose proof (count_range _ _ Hwf). lia.
  - destruct (run_push_inv _ _ _ _ _ _ _ Hwf Hrun)
      as [(Hf & evs' & -> & Hrest)|(Hf & evs' & -> & Hrest)].
    + destruct (IH _ _ _ _ _ Hwf Hrest) as [-> ?]. simpl. split; [lia|done].
    + destruct (IH _ _ _ _ _ (wf_after_push _ item Hwf) Hrest) as [-> Hb].
      rewrite (count_push _ _ item Hwf Hf) in *. simpl.
      split; [lia|done].
  - destruct (run_pop_inv _ _ _ _ _ _ Hwf Hrun)
      as [(He & evs' & -> & Hrest)|(He & v & evs' & Hv & -> & Hrest)].
    + destruct (IH _ _ _ _ _ Hwf Hrest) as [-> ?]. simpl. split; [lia|done].
    + destruct (IH _ _ _ _ _ (wf_after_pop _ (moved_from v) Hwf) Hrest)
        as [-> Hb].
      rewrite (count_pop _ (moved_from v) Hwf He) in *. simpl.
      split; [lia|done].
Qed.

(** X4.  Each cursor counts the successes of its own operation modulo
    [Size]: after any sequence of calls the write cursor has advanced by the
    number of successful pushes and the read cursor by the number of
    successful pops. *)
Theorem cursors_count_successes ops : ∀ rb result evs rb' result',
  wf rb → run Size moved_from ops rb result = Some (evs, rb', result') →
  write_idx_ rb' =
    (write_idx_ rb + Z.of_nat (length (accepted ops evs))) `mod` Size ∧
  read_idx_ rb' =
    (read_idx_ rb + Z.of_nat (length (delivered evs))) `mod` Size.
Proof.
  induction ops as [|[item|] ops IH]; intros rb result evs rb' result' Hwf Hrun.
  - simpl in Hrun. simplify_eq. simpl. rewrite !Z.add_0_r.
    destruct Hwf as [HS Hw Hr Hl]. by rewrite !Z.mod_small.
  - destruct (run_push_inv _ _ _ _ _ _ _ Hwf Hrun)
      as [(Hf & evs' & -> & Hrest)|(Hf & evs' & -> & Hrest)].
    + by destruct (IH _ _ _ _ _ Hwf Hrest) as [-> ->].
    + destruct (IH _ _ _ _ _ (wf_after_push _ item Hwf) Hrest) as [-> ->].
      cbn [write_idx_ read_idx_ accepted delivered length].
      split; [|done].
      rewrite Zplus_mod_idemp_l. f_equal. lia.
  - destruct (run_pop_inv _ _ _ _ _ _ Hwf Hrun)
      as [(He & evs' & -> & Hrest)|(He & v & evs' & Hv & -> & Hrest)].
    + by destruct (IH _ _ _ _ _ Hwf Hrest) as [-> ->].
    + destruct (IH _ _ _ _ _ (wf_after_pop _ (moved_from v) Hwf) Hrest)
        as [-> ->].
      cbn [write_idx_ read_idx_ accepted delivered length].
      split; [done|].
      rewrite Zplus_mod_idemp_l. f_equal. lia.
Qed.

(** X5.  A full buffer of capacity at least 2 takes one more item as soon
    as one is popped: the pop returns the oldest element, the push that
    follows succeeds, and the buffer is full again. *)
Theorem full_pop_push rb item result :
  wf rb → 2 ≤ Size → is_full rb →
  ∃ v rb',
    buffer_ rb !! Z.to_nat (read_idx_ rb) = Some v ∧
    run Size moved_from [Pop; Push item] rb result =
      Some ([Popped true v; Pushed true], rb', v) ∧
    is_full rb'.
Proof.
  intros Hwf H2 Hf.
  pose proof Hf as Hc. apply (is_full_count _ _ Hwf) in Hc.
  assert (¬ is_empty rb) as Hne by (rewrite (is_empty_count _ _ Hwf); lia).
  destruct (array_get_in_range Size (buffer_ rb) (read_idx_ rb)) as [v Hv];
    [apply Hwf..|].
  pose proof (TryPop_not_empty _ moved_from _ result _ Hwf Hne Hv) as Hpop.
  pose proof (wf_after_pop _ (moved_from v) Hwf) as Hwf1.
  pose proof (count_pop _ (moved_from v) Hwf Hne) as Hc1.
  assert (¬ is_full _) as Hnf1 by (rewrite (is_full_count _ _ Hwf1); lia).
  pose proof (TryPush_not_full _ _ item Hwf1 Hnf1) as Hpush.
  pose proof (count_push _ _ item Hwf1 Hnf1) as Hc2.
  eexists v, _. split; [done|]. split.
  - cbn [run]. rewrite Hpop. simpl. rewrite Hpush. done.
  - apply (is_full_count _ _ (wf_after_push _ item Hwf1)). lia.
Qed.

End AnyOrder.

(** ** Worked instances: any order of calls

    A full buffer of capacity 4 whose live elements 11, 12, 13 wrap around
    the end of the array. *)

Lemma run_refines_fifo_witness :
  let rb := {| write_idx_ := 1; read_idx_ := 2; buffer_ := [13; 0; 11; 12] |} in
  let ops := [Push 14; Pop; Push 14; Pop; Pop] in
  ∃ rb',
    run 4 id ops rb 0 =
      Some ((Fifo.run 4 ops (live 4 rb) 0).1.1, rb',
            (Fifo.run 4 ops (live 4 rb) 0).2) ∧
    wf 4 rb' ∧
    live 4 rb' = (Fifo.run 4 ops (live 4 rb) 0).1.2.
Proof.
  apply (run_refines_fifo 4 id [Push 14; Pop; Push 14; Pop; Pop]
           {| write_idx_ := 1; read_idx_ := 2; buffer_ := [13; 0; 11; 12] |} 0).
  concrete_wf.
Defined.

Lemma no_loss_no_duplication_witness :
  let rb := {| write_idx_ := 1; read_idx_ := 2; buffer_ := [13; 0; 11; 12] |} in
  let rb' := {| write_idx_ := 2; read_idx_ := 1; buffer_ := [13; 14; 11; 12] |} in
  let ops := [Push 14; Pop; Push 14; Pop; Pop] in
  let evs := [Pushed false; Popped true 11; Pushed true;
              Popped true 12; Popped true 13] in
  live 4 rb ++ accepted ops evs = delivered evs ++ live 4 rb'.
Proof.
  apply (no_loss_no_duplication 4 id [Push 14; Pop; Push 14; Pop; Pop]
           {| write_idx_ := 1; read_idx_ := 2; buffer_ := [13; 0; 11; 12] |} 0
           _ _ 13).
  - concrete_wf.
  - reflexivity.
Defined.

Lemma occupancy_counts_successes_witness :
  let rb := {| write_idx_ := 1; read_idx_ := 2; buffer_ := [13; 0; 11; 12] |} in
  let rb' := {| write_idx_ := 2; read_idx_ := 1; buffer_ := [13; 14; 11; 12] |} in
  let ops := [Push 14; Pop; Push 14; Pop; Pop] in
  let evs := [Pushed false; Popped true 11; Pushed true;
              Popped true 12; Popped true 13] in
  count 4 rb' =
    count 4 rb + Z.of_nat (length (accepted ops evs))
               - Z.of_nat (length (delivered evs)) ∧
  0 ≤ count 4 rb' ≤ 4 - 1.
Proof.
  apply (occupancy_counts_successes 4 id [Push 14; Pop; Push 14; Pop; Pop]
           {| write_idx_ := 1; read_idx_ := 2; buffer_ := [13; 0; 11; 12] |} 0
           _ _ 13).
  - concrete_wf.
  - reflexivity.
Defined.

Lemma cursors_count_successes_witness :
  let rb := {| write_idx_ := 1; read_idx_ := 2; buffer_ := [13; 0; 11; 12] |} in
  let rb' := {| write_idx_ := 2; read_idx_ := 1; buffer_ := [13; 14; 11; 12] |} in
  let ops := [Push 14; Pop; Push 14; Pop; Pop] in
  let evs := [Pushed false; Popped true 11; Pushed true;
              Popped true 12; Popped true 13] in
  write_idx_ rb' =
    (write_idx_ rb + Z.of_nat (length (accepted ops evs))) `mod` 4 ∧
  read_idx_ rb' =
    (read_idx_ rb + Z.of_nat (length (delivered evs))) `mod` 4.
Proof.
  apply (cursors_count_successes 4 id [Push 14; Pop; Push 14; Pop; Pop]
           {| write_idx_ := 1; read_idx_ := 2; buffer_ := [13; 0; 11; 12] |} 0
           _ _ 13).
  - concrete_wf.
  - reflexivity.
Defined.

Lemma full_pop_push_witness :
  let rb := {| write_idx_ := 1; read_idx_ := 2; buffer_ := [13; 0; 11; 12] |} in
  ∃ v rb',
    buffer_ rb !! Z.to_nat (read_idx_ rb) = Some v ∧
    run 4 id [Pop; Push 14] rb 0 =
      Some ([Popped true v; Pushed true], rb', v) ∧
    is_full 4 rb'.
Proof.
  apply (full_pop_push 4 id
           {| write_idx_ := 1; read_idx_ := 2; buffer_ := [13; 0; 11; 12] |}
           14 0).
  - concrete_wf.
  - lia.
  - reflexivity.
Defined.

(** * Latency statistics *)

Section LatencyStatistics.

Implicit Types (l latencies : list Z) (x y : Z) (i j : nat).

Lemma std_sort_sorted l : StronglySorted Z.le (std_sort l).
Proof. apply (StronglySorted_merge_sort Z.le). Qed.

Lemma std_sort_perm l : std_sort l ≡ₚ l.
Proof. apply (merge_sort_Permutation Z.le). Qed.

Lemma std_sort_length l : length (std_sort l) = length l.
Proof. apply Permutation_length, std_sort_perm. Qed.

Lemma sorted_lookup_le l :
  StronglySorted Z.le l →
  ∀ i j x y, (i ≤ j)%nat → l !! i = Some x → l !! j = Some y → x ≤ y.
Proof.
  induction 1 as [|a l Hl IH Ha]; intros i j x y Hij Hx Hy; [done|].
  destruct i as [|i], j as [|j]; simpl in *; simplify_eq; try lia.
  - rewrite Forall_lookup in Ha. by eapply Ha.
  - eapply IH; [|done..]. lia.
Qed.

(** The index of the 99th percentile is inside the vector, even when the
    multiplication wraps. *)
Lemma p99_index_in_range n :
  0 < n → 0 ≤ SizeT.mul n 99 / 100 < n.
Proof.
  intros Hn. unfold SizeT.mul, SizeT.modulus.
  change (2 ^ 64) with 18446744073709551616.
  pose proof (Z.mod_pos_bound (n * 99) 18446744073709551616).
  destruct (decide (n * 99 < 18446744073709551616)).
  - rewrite Z.mod_small by lia. split.
    + apply Z.div_pos; lia.
    + apply Z.div_lt_upper_bound; lia.
  - split.
    + apply Z.div_pos; lia.
    + apply Z.div_lt_upper_bound; lia.
Qed.

Lemma filter_Forall_length (P : Z → Prop) `{∀ x, Decision (P x)} l :
  Forall P l → length (filter P l) = length l.
Proof.
  induction 1 as [|x l Hx Hl IH]; [done|].
  rewrite filter_cons_True by done. simpl. by rewrite IH.
Qed.

(** In a sorted list the element at index [k] has at least [k + 1] elements
    at or below it and at least [length l - k] at or above it. *)
Lemma sorted_rank l k x :
  StronglySorted Z.le l → l !! k = Some x →
  (k + 1 ≤ length (filter (λ y, (y ≤ x)%Z) l))%nat ∧
  (length l - k ≤ length (filter (λ y, (x ≤ y)%Z) l))%nat.
Proof.
  intros Hl Hk. pose proof (lookup_lt_Some _ _ _ Hk) as Hlt. split.
  - rewrite <- (take_drop (S k) l) at 1. rewrite filter_app, length_app.
    rewrite filter_Forall_length.
    + rewrite length_take. lia.
    + apply Forall_lookup. intros i y Hy.
      apply lookup_take_Some in Hy as [Hy Hi].
      eapply (sorted_lookup_le l Hl i k); [lia|done..].
  - rewrite <- (take_drop k l) at 2. rewrite filter_app, length_app.
    rewrite (filter_Forall_length _ (drop k l)).
    + rewrite length_drop. lia.
    + apply Forall_lookup. intros i y Hy. rewrite lookup_drop in Hy.
      eapply (sorted_lookup_le l Hl k (k + i)); [lia|done..].
Qed.

Lemma filter_std_sort_length (P : Z → Prop) `{∀ x, Decision (P x)} l :
  length (filter P (std_sort l)) = length (filter P l).
Proof. apply Permutation_length. by rewrite std_sort_perm. Qed.

(** What the four statistics are: elements of the sorted vector. *)
Lemma latency_statistics_Some l st :
  latency_statistics l = Some st →
  std_sort l !! 0%nat = Some (min_latency st) ∧
  std_sort l !! pred (length l) = Some (max_latency st) ∧
  std_sort l !! Z.to_nat (Z.of_nat (length l) / 2) = Some (median_latency st) ∧
  std_sort l !! Z.to_nat (SizeT.mul (Z.of_nat (length l)) 99 / 100) =
    Some (p99_latency st).
Proof.
  unfold latency_statistics, StdVector.front, StdVector.back,
    StdVector.index, StdVector.size.
  rewrite head_lookup, std_sort_length.
  destruct (std_sort l !! 0%nat) as [a|]; simpl; [|done].
  destruct (std_sort l !! pred (length l)) as [b|]; simpl; [|done].
  destruct (std_sort l !! Z.to_nat (Z.of_nat (length l) / 2)) as [c|];
    simpl; [|done].
  destruct (std_sort l !! Z.to_nat (SizeT.mul (Z.of_nat (length l)) 99 / 100))
    as [d|]; simpl; [|done].
  intros ?. by simplify_eq.
Qed.

Lemma latency_statistics_is_Some l :
  is_Some (latency_statistics l) ↔ l ≠ [].
Proof.
  split.
  - intros [st Hst] ->. by vm_compute in Hst.
  - intros Hne.
    assert (0 < length l)%nat as Hlen by (destruct l; [done|simpl; lia]).
    pose proof (p99_index_in_range (Z.of_nat (length l))) as Hp.
    assert (0 ≤ Z.of_nat (length l) / 2 < Z.of_nat (length l)) as Hm.
    { split; [apply Z.div_pos; lia | apply Z.div_lt_upper_bound; lia]. }
    unfold latency_statistics, StdVector.front, StdVector.back,
      StdVector.index, StdVector.size.
    rewrite head_lookup, std_sort_length.
    destruct (lookup_lt_is_Some_2 (std_sort l) 0%nat) as [a ->];
      [rewrite std_sort_length; lia|].
    destruct (lookup_lt_is_Some_2 (std_sort l) (pred (length l))) as [b ->];
      [rewrite std_sort_length; lia|].
    destruct (lookup_lt_is_Some_2 (std_sort l)
                (Z.to_nat (Z.of_nat (length l) / 2))) as [c ->];
      [rewrite std_sort_length; lia|].
    destruct (lookup_lt_is_Some_2 (std_sort l)
                (Z.to_nat (SizeT.mul (Z.of_nat (length l)) 99 / 100)))
      as [d ->]; [rewrite std_sort_length; lia|].
    by eexists.
Qed.

(** X6.  The statistics are computed without stepping outside the vector
    exactly when at least one latency was recorded; on an empty vector
    [front()] is undefined. *)
Theorem latency_statistics_defined l :
  is_Some (latency_statistics l) ↔ l ≠ [].
Proof. apply latency_statistics_is_Some. Qed.

(** X7.  The four statistics are recorded latencies, no latency lies below
    the minimum or above the maximum, and, unless [size() * 99] wraps,
    minimum <= median <= 99th percentile <= maximum. *)
Theorem latency_statistics_ordered l st :
  latency_statistics l = Some st →
  (min_latency st ∈ l ∧ max_latency st ∈ l ∧
   median_latency st ∈ l ∧ p99_latency st ∈ l) ∧
  (∀ x, x ∈ l → min_latency st ≤ x ≤ max_latency st) ∧
  (Z.of_nat (length l) * 99 < SizeT.modulus →
   min_latency st ≤ median_latency st ≤ p99_latency st ∧
   p99_latency st ≤ max_latency st).
Proof.
  intros Hst.
  destruct (latency_statistics_Some _ _ Hst) as (Hmin & Hmax & Hmed & Hp99).
  pose proof (std_sort_sorted l) as Hsorted.
  assert (l ≠ []) as Hne by (apply latency_statistics_is_Some; eauto).
  assert (0 < length l)%nat as Hlen by (destruct l; [done|simpl; lia]).
  pose proof (p99_index_in_range (Z.of_nat (length l))) as Hp.
  assert (0 ≤ Z.of_nat (length l) / 2 < Z.of_nat (length l)) as Hm.
  { split; [apply Z.div_pos; lia | apply Z.div_lt_upper_bound; lia]. }
  split; [|split].
  - repeat split; rewrite <- (std_sort_perm l);
      eapply list_elem_of_lookup_2; eassumption.
  - intros x Hx. rewrite <- (std_sort_perm l) in Hx.
    apply list_elem_of_lookup_1 in Hx as [i Hi].
    pose proof (lookup_lt_Some _ _ _ Hi) as Hlt.
    rewrite std_sort_length in Hlt. split.
    + eapply (sorted_lookup_le _ Hsorted 0%nat i); [lia|done..].
    + eapply (sorted_lookup_le _ Hsorted i (pred (length l))); [lia|done..].
  - intros Hno. unfold SizeT.mul in *. rewrite Z.mod_small in * by lia.
    assert (Z.of_nat (length l) / 2 ≤ Z.of_nat (length l) * 99 / 100) as Hle.
    { apply Z.div_le_lower_bound; [lia|].
      pose proof (Z.mul_div_le (Z.of_nat (length l)) 2). lia. }
    repeat split.
    + eapply (sorted_lookup_le _ Hsorted 0%nat); [|done..]. lia.
    + eapply (sorted_lookup_le _ Hsorted); [|exact Hmed|exact Hp99]. lia.
    + eapply (sorted_lookup_le _ Hsorted); [|exact Hp99|exact Hmax]. lia.
Qed.

(** X8.  The reported percentiles have the rank their names promise: more
    than half of the latencies are at or below the median and at least half
    are at or above it, and, unless [size() * 99] wraps, more than 99% of
    them are at or below the 99th percentile. *)
Theorem latency_statistics_rank l st :
  latency_statistics l = Some st →
  Z.of_nat (length l) <
    2 * Z.of_nat (length (filter (λ x, x ≤ median_latency st) l)) ∧
  Z.of_nat (length l) ≤
    2 * Z.of_nat (length (filter (λ x, median_latency st ≤ x) l)) ∧
  (Z.of_nat (length l) * 99 < SizeT.modulus →
   99 * Z.of_nat (length l) <
     100 * Z.of_nat (length (filter (λ x, x ≤ p99_latency st) l))).
Proof.
  intros Hst.
  destruct (latency_statistics_Some _ _ Hst) as (Hmin & Hmax & Hmed & Hp99).
  pose proof (std_sort_sorted l) as Hsorted.
  destruct (sorted_rank _ _ _ Hsorted Hmed) as [Hmed1 Hmed2].
  rewrite filter_std_sort_length in Hmed1, Hmed2.
  rewrite std_sort_length in Hmed2.
  pose proof (lookup_lt_Some _ _ _ Hmed) as Hlt.
  rewrite std_sort_length in Hlt.
  pose proof (Z.mul_div_le (Z.of_nat (length l)) 2).
  pose proof (Z.mul_succ_div_gt (Z.of_nat (length l)) 2).
  assert (0 ≤ Z.of_nat (length l) / 2) by (apply Z.div_pos; lia).
  split; [lia|]. split; [lia|].
  intros Hno. unfold SizeT.mul in Hp99. rewrite Z.mod_small in Hp99 by lia.
  destruct (sorted_rank _ _ _ Hsorted Hp99) as [Hp1 _].
  rewrite filter_std_sort_length in Hp1.
  pose proof (Z.mul_succ_div_gt (Z.of_nat (length l) * 99) 100).
  assert (0 ≤ Z.of_nat (length l) * 99 / 100) by (apply Z.div_pos; lia).
  lia.
Qed.

End LatencyStatistics.

(** ** Worked instances: latency statistics *)

Lemma latency_statistics_ordered_witness :
  let l := [30; 10; 50; 20; 40] in
  let st := {| min_latency := 10; max_latency := 50;
               median_latency := 30; p99_latency := 50 |} in
  (min_latency st ∈ l ∧ max_latency st ∈ l ∧
   median_latency st ∈ l ∧ p99_latency st ∈ l) ∧
  (∀ x, x ∈ l → min_latency st ≤ x ≤ max_latency st) ∧
  (Z.of_nat (length l) * 99 < SizeT.modulus →
   min_latency st ≤ median_latency st ≤ p99_latency st ∧
   p99_latency st ≤ max_latency st).
Proof.
  apply (latency_statistics_ordered [30; 10; 50; 20; 40]
           {| min_latency := 10; max_latency := 50;
              median_latency := 30; p99_latency := 50 |}).
  reflexivity.
Defined.

Lemma latency_statistics_rank_witness :
  let l := [30; 10; 50; 20; 40] in
  let st := {| min_latency := 10; max_latency := 50;
               median_latency := 30; p99_latency := 50 |} in
  Z.of_nat (length l) <
    2 * Z.of_nat (length (filter (λ x, x ≤ median_latency st) l)) ∧
  Z.of_nat (length l) ≤
    2 * Z.of_nat (length (filter (λ x, median_latency st ≤ x) l)) ∧
  (Z.of_nat (length l) * 99 < SizeT.modulus →
   99 * Z.of_nat (length l) <
     100 * Z.of_nat (length (filter (λ x, x ≤ p99_latency st) l))).
Proof.
  apply (latency_statistics_rank [30; 10; 50; 20; 40]
           {| min_latency := 10; max_latency := 50;
              median_latency := 30; p99_latency := 50 |}).
  reflexivity.
Defined.

(** * The producer and the consumer, interleaved *)

Section PipelineProperties.

Context {T : Type}.
Variable Size : Z.
Variable moved_from : T → T.

Implicit Types (c : pipeline T) (rb : LockFreeRingBuffer T)
  (ticks : list T) (schedule : list thread).


Lemma not_full_count rb : wf Size rb → ¬ is_full Size rb ↔ count Size rb ≤ Size - 2.
Proof.
  intros Hwf. rewrite (is_full_count _ _ Hwf).
  pose proof (count_range _ _ Hwf). lia.
Qed.

Lemma not_empty_count rb : wf Size rb → ¬ is_empty rb ↔ 1 ≤ count Size rb.
Proof.
  intros Hwf. rewrite (is_empty_count _ _ Hwf).
  pose proof (count_range _ _ Hwf). lia.
Qed.

Lemma wf_cursors w r w' r' (slots slots' : list T) :
  wf Size {| write_idx_ := w; read_idx_ := r; buffer_ := slots |} →
  0 ≤ w' < Size → 0 ≤ r' < Size → length slots' = length slots →
  wf Size {| write_idx_ := w'; read_idx_ := r'; buffer_ := slots' |}.
Proof.
  intros [HS Hw Hr Hl] Hw' Hr' Hlen. split; simpl in *; try done. congruence.
Qed.

(** The effective buffer satisfies the class invariant too. *)
Lemma effective_wf c :
  wf Size (buffer c) → producer_ok Size c → consumer_ok c →
  wf Size (effective Size c).
Proof.
  destruct c as [[w r slots] td ppc rem cpc tk rec]. unfold effective.
  cbn [buffer producer_pc consumer_pc write_idx_ read_idx_ buffer_].
  intros Hwf Hp Hc. pose proof Hwf as [HS Hw Hr Hl]. simpl in Hw, Hr.
  apply (wf_cursors _ _ _ _ _ _ Hwf); [| |done].
  - destruct ppc as [|cw nw|cw nw|cw nw]; try done.
    destruct Hp as (_ & -> & -> & _). by apply next_cursor_range.
  - destruct cpc as [|cr|cr|cr]; try done.
    destruct Hc as (_ & -> & _). by apply next_cursor_range.
Qed.

Lemma next_cursor_inj a b :
  0 ≤ a < Size → 0 ≤ b < Size →
  (a + 1) `mod` Size = (b + 1) `mod` Size → a = b.
Proof.
  intros Ha Hb.
  destruct (next_cursor_cases Size _ Ha) as [[-> ?]|[-> ?]];
    destruct (next_cursor_cases Size _ Hb) as [[-> ?]|[-> ?]]; lia.
Qed.

Lemma live_nonempty rb :
  wf Size rb → ¬ is_empty rb → ∃ x q, live Size rb = x :: q.
Proof.
  intros Hwf Hne. pose proof (holds_live _ _ Hwf) as [Hlen _].
  apply (not_empty_count _ Hwf) in Hne.
  destruct (live Size rb) as [|x q]; [simpl in Hlen; lia|]. by exists x, q.
Qed.

Ltac pipeline_simpl :=
  unfold producer_ok, consumer_ok, effective, todo_effective,
    received_effective, producer_moves, consumer_moves in *;
  cbn [buffer todo producer_pc remaining consumer_pc tick received
       write_idx_ read_idx_ buffer_ tail] in *.

(** Every step of the producer keeps the invariant, and is defined. *)
Lemma producer_step_inv ticks n c :
  pipeline_inv Size ticks n c →
  ∃ c', producer_step Size c = Some c' ∧ pipeline_inv Size ticks n c'.
Proof.
  intros Hinv. pose proof (effective_wf c (inv_wf _ _ _ _ Hinv)
    (inv_producer _ _ _ _ Hinv) (inv_consumer _ _ _ _ Hinv)) as Hwfe.
  destruct Hinv as [Hwf Hp Hc Ht Hn].
  destruct c as [[w r slots] td ppc rem cpc tk rec].
  unfold producer_step. pipeline_simpl.
  destruct td as [|item rest].
  { eexists. split; [done|]. by split. }
  pose proof Hwf as [HS Hw Hr Hl]. cbn [write_idx_ read_idx_ buffer_] in *.
  destruct ppc as [|cw nw|cw nw|cw nw].
  - (* load write_idx_ *)
    rewrite (next_cursor _ _ HS Hw). simpl.
    eexists. split; [done|]. by split.
  - (* load read_idx_ and compare *)
    destruct Hp as (_ & -> & ->).
    case_decide as Hfull.
    + eexists. split; [done|]. by split.
    + eexists. split; [done|]. by split.
  - (* assign the slot *)
    destruct Hp as (_ & -> & -> & Hnf).
    rewrite (array_set_in_range _ _ _ _ Hw Hl). simpl.
    eexists. split; [done|].
    assert (wf Size {| write_idx_ := w; read_idx_ := r;
                       buffer_ := <[Z.to_nat w := item]> slots |}) as Hwf'.
    { apply (wf_cursors _ _ _ _ _ _ Hwf); [done..|by rewrite length_insert]. }
    split; pipeline_simpl; [exact Hwf'|done|done| |done].
    set (er := match cpc with
               | PopPublish cr => (cr + 1) `mod` Size
               | _ => r
               end) in *.
    assert (¬ is_full Size {| write_idx_ := w; read_idx_ := er;
                              buffer_ := slots |}) as Hnfe.
    { unfold is_full; simpl. subst er. destruct cpc as [|cr|cr|cr]; try done.
      destruct Hc as (_ & -> & Hne). intros Heq.
      apply next_cursor_inj in Heq; [|done..]. by apply Hne. }
    pose proof (holds_push _ _ _ item Hwfe Hnfe (holds_live _ _ Hwfe)) as Hq.
    cbn [write_idx_ read_idx_ buffer_] in Hq.
    apply holds_is_live in Hq.
    * rewrite <- Hq, Ht, <- !app_assoc. done.
    * apply (wf_cursors _ _ _ _ _ _ Hwfe);
        [by apply next_cursor_range|apply Hwfe|by rewrite length_insert].
  - (* store write_idx_ *)
    destruct Hp as (_ & -> & -> & Hnf).
    eexists. split; [done|].
    split; pipeline_simpl; [|done| |done|done].
    + apply (wf_cursors _ _ _ _ _ _ Hwf); [by apply next_cursor_range|done..].
    + destruct cpc as [|cr|cr|cr]; try done;
        destruct Hc as (? & ? & Hne); (split; [done|split; [done|]]);
        unfold is_empty, is_full in *; simpl in *; congruence.
Qed.

(** Every step of the consumer keeps the invariant, and is defined. *)
Lemma consumer_step_inv ticks n c :
  pipeline_inv Size ticks n c →
  ∃ c', consumer_step Size moved_from c = Some c' ∧
        pipeline_inv Size ticks n c'.
Proof.
  intros Hinv. pose proof (effective_wf c (inv_wf _ _ _ _ Hinv)
    (inv_producer _ _ _ _ Hinv) (inv_consumer _ _ _ _ Hinv)) as Hwfe.
  destruct Hinv as [Hwf Hp Hc Ht Hn].
  destruct c as [[w r slots] td ppc rem cpc tk rec].
  unfold consumer_step. pipeline_simpl.
  destruct rem as [|k].
  { eexists. split; [done|]. by split. }
  pose proof Hwf as [HS Hw Hr Hl]. cbn [write_idx_ read_idx_ buffer_] in *.
  destruct cpc as [|cr|cr|cr].
  - (* load read_idx_ *)
    eexists. split; [done|]. by split.
  - (* load write_idx_ and compare *)
    destruct Hc as (_ & ->).
    case_decide as Hempty.
    + eexists. split; [done|]. by split.
    + eexists. split; [done|]. by split.
  - (* move the slot out *)
    destruct Hc as (_ & -> & Hne).
    set (ew := match ppc with
               | PushPublish _ nw => nw
               | _ => w
               end) in *.
    assert (¬ is_empty {| write_idx_ := ew; read_idx_ := r;
                          buffer_ := slots |}) as Hnee.
    { unfold is_empty in *; simpl in *. subst ew.
      destruct ppc as [|cw nw|cw nw|cw nw]; try done.
      destruct Hp as (_ & -> & -> & Hnf). unfold is_full in Hnf.
      simpl in Hnf. congruence. }
    destruct (live_nonempty _ Hwfe Hnee) as (x & q & Hlive).
    pose proof (holds_live _ _ Hwfe) as Hq. rewrite Hlive in Hq.
    destruct (holds_pop _ moved_from _ _ _ Hwfe Hq) as (_ & Hx & Hq').
    cbn [write_idx_ read_idx_ buffer_] in Hx, Hq'.
    unfold StdArray.get. rewrite Hx. simpl.
    rewrite (array_set_in_range _ _ _ _ Hr Hl). simpl.
    eexists. split; [done|].
    assert (wf Size {| write_idx_ := w; read_idx_ := r;
                       buffer_ := <[Z.to_nat r := moved_from x]> slots |})
      as Hwf'.
    { apply (wf_cursors _ _ _ _ _ _ Hwf); [done..|by rewrite length_insert]. }
    split; pipeline_simpl; [exact Hwf'|done|done| |done].
    subst ew. apply holds_is_live in Hq'.
    * rewrite <- Hq', Ht, Hlive, <- !app_assoc. done.
    * apply (wf_cursors _ _ _ _ _ _ Hwfe);
        [apply Hwfe|by apply next_cursor_range|by rewrite length_insert].
  - (* store read_idx_ *)
    destruct Hc as (_ & -> & Hne).
    rewrite (next_cursor _ _ HS Hr). simpl.
    eexists. split; [done|].
    split; pipeline_simpl; [| |done|done|].
    + apply (wf_cursors _ _ _ _ _ _ Hwf); [done|by apply next_cursor_range|done].
    + destruct ppc as [|cw nw|cw nw|cw nw]; try done;
        destruct Hp as (? & -> & -> & Hnf); (do 3 (split; [done|]));
        unfold is_empty, is_full in *; simpl in *;
        intros Heq; apply next_cursor_inj in Heq; [|done..]; congruence.
    + rewrite length_app. simpl. lia.
Qed.

(** Whatever the schedule, the run is defined and keeps the invariant. *)
Lemma pipeline_run_inv ticks n schedule : ∀ c,
  pipeline_inv Size ticks n c →
  ∃ c', pipeline_run Size moved_from schedule c = Some c' ∧
        pipeline_inv Size ticks n c'.
Proof.
  induction schedule as [|t schedule IH]; intros c Hinv.
  - by exists c.
  - assert (∃ c1, pipeline_step Size moved_from t c = Some c1 ∧
                  pipeline_inv Size ticks n c1) as (c1 & Hstep & Hinv1).
    { destruct t; [by apply producer_step_inv|by apply consumer_step_inv]. }
    destruct (IH c1 Hinv1) as (c' & Hrun & Hinv').
    exists c'. split; [|done]. simpl. rewrite Hstep. done.
Qed.

Lemma pipeline_start_inv slots ticks n tick0 :
  valid_size Size → length slots = Z.to_nat Size →
  pipeline_inv Size ticks n (pipeline_start slots ticks n tick0).
Proof.
  intros HS Hl. pose proof (wf_fresh _ slots HS Hl) as Hwf.
  by split.
Qed.

Lemma pipeline_run_app schedule1 schedule2 c :
  pipeline_run Size moved_from (schedule1 ++ schedule2) c =
    c1 ← pipeline_run Size moved_from schedule1 c;
    pipeline_run Size moved_from schedule2 c1.
Proof.
  revert c. induction schedule1 as [|t schedule1 IH]; intros c; [done|].
  simpl. destruct (pipeline_step Size moved_from t c) as [c1|]; [|done].
  simpl. apply IH.
Qed.

(** Left alone, the consumer gets to the end of the call it is in. *)
Lemma consumer_settles ticks n c :
  pipeline_inv Size ticks n c →
  ∃ schedule c',
    pipeline_run Size moved_from schedule c = Some c' ∧
    consumer_pc c' = PopCall ∧
    producer_pc c' = producer_pc c ∧ todo c' = todo c.
Proof.
  intros [Hwf Hp Hc Ht Hn].
  destruct c as [[w r slots] td ppc rem cpc tk rec].
  pipeline_simpl. pose proof Hwf as [HS Hw Hr Hl].
  cbn [write_idx_ read_idx_ buffer_] in *.
  destruct cpc as [|cr|cr|cr].
  - exists []. by eexists.
  - destruct Hc as (Hrem & ->). destruct rem as [|k]; [done|].
    destruct (decide (r = w)) as [He|He].
    + exists [Consumer]. eexists. cbn. unfold consumer_step. cbn.
      rewrite decide_True by done. by cbn.
    + destruct (array_get_in_range Size slots r Hr Hl) as [v Hv].
      exists [Consumer; Consumer; Consumer]. eexists.
      cbn. unfold consumer_step. cbn. rewrite decide_False by done. cbn.
      unfold StdArray.get. rewrite Hv. cbn.
      rewrite (array_set_in_range _ _ _ _ Hr Hl). cbn.
      rewrite (next_cursor _ _ HS Hr). by cbn.
  - destruct Hc as (Hrem & -> & Hne). destruct rem as [|k]; [done|].
    destruct (array_get_in_range Size slots r Hr Hl) as [v Hv].
    exists [Consumer; Consumer]. eexists.
    cbn. unfold consumer_step. cbn.
    unfold StdArray.get. rewrite Hv. cbn.
    rewrite (array_set_in_range _ _ _ _ Hr Hl). cbn.
    rewrite (next_cursor _ _ HS Hr). by cbn.
  - destruct Hc as (Hrem & -> & Hne). destruct rem as [|k]; [done|].
    exists [Consumer]. eexists. cbn. unfold consumer_step. cbn.
    rewrite (next_cursor _ _ HS Hr). by cbn.
Qed.

(** Left alone, the producer gets to the end of the call it is in. *)
Lemma producer_settles ticks n c :
  pipeline_inv Size ticks n c →
  ∃ schedule c',
    pipeline_run Size moved_from schedule c = Some c' ∧
    producer_pc c' = PushCall ∧
    consumer_pc c' = consumer_pc c.
Proof.
  intros [Hwf Hp Hc Ht Hn].
  destruct c as [[w r slots] td ppc rem cpc tk rec].
  pipeline_simpl. pose proof Hwf as [HS Hw Hr Hl].
  cbn [write_idx_ read_idx_ buffer_] in *.
  destruct ppc as [|cw nw|cw nw|cw nw].
  - exists []. by eexists.
  - destruct Hp as (Htd & -> & ->). destruct td as [|item rest]; [done|].
    destruct (decide ((w + 1) `mod` Size = r)) as [Hf|Hf].
    + exists [Producer]. eexists. cbn. unfold producer_step. cbn.
      rewrite decide_True by done. by cbn.
    + exists [Producer; Producer; Producer]. eexists.
      cbn. unfold producer_step. cbn. rewrite decide_False by done. cbn.
      rewrite (array_set_in_range _ _ _ _ Hw Hl). by cbn.
  - destruct Hp as (Htd & -> & -> & Hnf). destruct td as [|item rest]; [done|].
    exists [Producer; Producer]. eexists.
    cbn. unfold producer_step. cbn.
    rewrite (array_set_in_range _ _ _ _ Hw Hl). by cbn.
  - destruct Hp as (Htd & -> & -> & Hnf). destruct td as [|item rest]; [done|].
    exists [Producer]. eexists. cbn. unfold producer_step. by cbn.
Qed.

(** Between calls, a pop on a non-empty buffer goes through. *)
Lemma pop_round c k :
  wf Size (buffer c) → ¬ is_empty (buffer c) →
  consumer_pc c = PopCall → remaining c = S k →
  ∃ c',
    pipeline_run Size moved_from [Consumer; Consumer; Consumer; Consumer] c
      = Some c' ∧
    consumer_pc c' = PopCall ∧ remaining c' = k ∧
    producer_pc c' = producer_pc c ∧ todo c' = todo c.
Proof.
  destruct c as [[w r slots] td ppc rem cpc tk rec].
  cbn [buffer consumer_pc remaining producer_pc todo].
  intros Hwf Hne -> ->. pose proof Hwf as [HS Hw Hr Hl].
  unfold is_empty in Hne. cbn [write_idx_ read_idx_ buffer_] in *.
  destruct (array_get_in_range Size slots r Hr Hl) as [v Hv].
  eexists. cbn. unfold consumer_step. cbn. rewrite decide_False by done. cbn.
  unfold StdArray.get. rewrite Hv. cbn.
  rewrite (array_set_in_range _ _ _ _ Hr Hl). cbn.
  rewrite (next_cursor _ _ HS Hr). by cbn.
Qed.

(** Between calls, a push on a buffer that is not full goes through. *)
Lemma push_round c item rest :
  wf Size (buffer c) → ¬ is_full Size (buffer c) →
  producer_pc c = PushCall → todo c = item :: rest →
  ∃ c',
    pipeline_run Size moved_from [Producer; Producer; Producer; Producer] c
      = Some c' ∧
    producer_pc c' = PushCall ∧ todo c' = rest ∧
    consumer_pc c' = consumer_pc c ∧ remaining c' = remaining c.
Proof.
  destruct c as [[w r slots] td ppc rem cpc tk rec].
  cbn [buffer consumer_pc remaining producer_pc todo].
  intros Hwf Hnf -> ->. pose proof Hwf as [HS Hw Hr Hl].
  unfold is_full in Hnf. cbn [write_idx_ read_idx_ buffer_] in *.
  eexists. cbn. unfold producer_step. cbn.
  rewrite (next_cursor _ _ HS Hw). cbn. rewrite decide_False by done. cbn.
  rewrite (array_set_in_range _ _ _ _ Hw Hl). by cbn.
Qed.

Lemma pipeline_run_inv_of ticks n schedule c c' :
  pipeline_inv Size ticks n c →
  pipeline_run Size moved_from schedule c = Some c' →
  pipeline_inv Size ticks n c'.
Proof.
  intros Hinv Hrun.
  destruct (pipeline_run_inv ticks n schedule c Hinv) as (c1 & Hrun1 & Hinv1).
  rewrite Hrun in Hrun1. by simplify_eq.
Qed.

(** From a state between calls the two threads can always be scheduled to
    the end, when the consumer pops as many ticks as the producer pushes. *)
Lemma quiescent_finishes ticks m : ∀ c,
  2 ≤ Size → pipeline_inv Size ticks (length ticks) c →
  producer_pc c = PushCall → consumer_pc c = PopCall →
  (length (todo c) + remaining c ≤ m)%nat →
  ∃ schedule c',
    pipeline_run Size moved_from schedule c = Some c' ∧
    todo c' = [] ∧ remaining c' = O ∧ received c' = ticks.
Proof.
  induction m as [|m IH]; intros c H2 Hinv Hppc Hcpc Hm.
  - exists [], c. pose proof Hinv as [Hwf _ _ Ht Hn].
    assert (todo c = [] ∧ remaining c = O) as [Htd Hrem].
    { split; [apply nil_length_inv|]; lia. }
    unfold received_effective, todo_effective in Ht.
    rewrite Hppc, Hcpc, Htd, app_nil_r in Ht.
    rewrite Ht, !length_app, Hrem in Hn.
    assert (live Size (effective Size c) = []) as Hlive
      by (apply nil_length_inv; lia).
    rewrite Hlive, app_nil_r in Ht. done.
  - pose proof Hinv as [Hwf _ _ Ht Hn].
    assert (effective Size c = buffer c) as Heff.
    { unfold effective. rewrite Hppc, Hcpc. by destruct (buffer c). }
    unfold received_effective, todo_effective in Ht.
    rewrite Hppc, Hcpc, Heff in Ht.
    pose proof (holds_length _ _ _ (holds_live _ _ Hwf)) as Hlen.
    rewrite Ht, !length_app in Hn.
    destruct (remaining c) as [|k] eqn:Hrem.
    + exists [], c.
      assert (live Size (buffer c) = []) as Hlive
        by (apply nil_length_inv; lia).
      assert (todo c = []) as Htd by (apply nil_length_inv; lia).
      rewrite Hlive, Htd, app_nil_r in Ht. done.
    + destruct (decide (is_empty (buffer c))) as [He|He].
      * apply (is_empty_count _ _ Hwf) in He.
        destruct (todo c) as [|item rest] eqn:Htd; [simpl in Hn; lia|].
        assert (¬ is_full Size (buffer c)) as Hnf
          by (apply (not_full_count _ Hwf); lia).
        destruct (push_round c item rest Hwf Hnf Hppc Htd)
          as (c1 & Hrun1 & Hppc1 & Htd1 & Hcpc1 & Hrem1).
        pose proof (pipeline_run_inv_of _ _ _ _ _ Hinv Hrun1) as Hinv1.
        destruct (IH c1 H2 Hinv1 Hppc1) as (sched & c' & Hrun' & Hfin).
        { congruence. }
        { rewrite Htd1, Hrem1, Hrem. simpl in Hm. lia. }
        eexists (_ ++ sched), c'. rewrite pipeline_run_app, Hrun1. done.
      * destruct (pop_round c k Hwf He Hcpc Hrem)
          as (c1 & Hrun1 & Hcpc1 & Hrem1 & Hppc1 & Htd1).
        pose proof (pipeline_run_inv_of _ _ _ _ _ Hinv Hrun1) as Hinv1.
        destruct (IH c1 H2 Hinv1) as (sched & c' & Hrun' & Hfin).
        { congruence. }
        { done. }
        { rewrite Htd1, Hrem1. lia. }
        eexists (_ ++ sched), c'. rewrite pipeline_run_app, Hrun1. done.
Qed.

(** X9.  No interleaving of the producer's and the consumer's accesses runs
    into undefined behaviour: every schedule leads to a state, and there the
    buffer's cursors are inside the array. *)
Theorem pipeline_never_undefined slots ticks n tick0 schedule :
  valid_size Size → length slots = Z.to_nat Size →
  ∃ c,
    pipeline_run Size moved_from schedule
      (pipeline_start slots ticks n tick0) = Some c ∧
    wf Size (buffer c).
Proof.
  intros HS Hl.
  destruct (pipeline_run_inv ticks n schedule _
              (pipeline_start_inv slots ticks n tick0 HS Hl))
    as (c & Hrun & Hinv).
  exists c. split; [done|]. apply Hinv.
Qed.

(** X10.  In every interleaving the consumer processes the producer's ticks
    in the order they were pushed, none lost, duplicated or altered: the
    ticks are, in order, those already processed, the one being popped, the
    live elements of the buffer and those still to be pushed.  So the
    processed ticks are always a prefix of the producer's, and once the
    consumer has done its [n] pops they are the first [n]. *)
Theorem pipeline_delivers_in_order slots ticks n tick0 schedule c :
  valid_size Size → length slots = Z.to_nat Size →
  pipeline_run Size moved_from schedule
    (pipeline_start slots ticks n tick0) = Some c →
  ticks = received_effective c ++ live Size (effective Size c)
            ++ todo_effective c ∧
  received c `prefix_of` ticks ∧
  (length (received c) + remaining c = n)%nat ∧
  (remaining c = O → received c = take n ticks).
Proof.
  intros HS Hl Hrun.
  destruct (pipeline_run_inv ticks n schedule _
              (pipeline_start_inv slots ticks n tick0 HS Hl))
    as (c' & Hrun' & Hinv).
  rewrite Hrun in Hrun'. simplify_eq.
  destruct Hinv as [Hwf Hp Hc Ht Hn].
  assert (received c' `prefix_of` ticks) as Hpre.
  { rewrite Ht. unfold received_effective.
    destruct (consumer_pc c'); rewrite <- ?app_assoc; by eexists. }
  split; [done|]. split; [done|]. split; [done|].
  intros Hrem. destruct Hpre as [k Hk].
  rewrite Hk, take_app_length'; [done|lia].
Qed.

(** X11.  The two threads are never about to touch the same slot: whenever
    the producer's next step assigns a slot and the consumer's next step
    moves a slot out, the two slots differ. *)
Theorem pipeline_slots_disjoint slots ticks n tick0 schedule c cw nw cr :
  valid_size Size → length slots = Z.to_nat Size →
  pipeline_run Size moved_from schedule
    (pipeline_start slots ticks n tick0) = Some c →
  producer_pc c = PushSlot cw nw → consumer_pc c = PopSlot cr →
  cw ≠ cr.
Proof.
  intros HS Hl Hrun Hppc Hcpc.
  destruct (pipeline_run_inv ticks n schedule _
              (pipeline_start_inv slots ticks n tick0 HS Hl))
    as (c' & Hrun' & Hinv).
  rewrite Hrun in Hrun'. simplify_eq.
  destruct Hinv as [Hwf Hp Hc Ht Hn].
  unfold producer_ok, consumer_ok in *. rewrite Hppc in Hp. rewrite Hcpc in Hc.
  destruct Hp as (_ & -> & _). destruct Hc as (_ & -> & Hne).
  unfold is_empty in Hne. congruence.
Qed.

(** X12.  The pipeline cannot get stuck: when the consumer pops as many
    ticks as the producer pushes and the capacity is at least 2, then from
    the state any interleaving has led to, the two threads can still be
    scheduled so that both finish, the consumer having processed exactly the
    producer's ticks. *)
Theorem pipeline_can_always_finish slots ticks tick0 schedule c :
  valid_size Size → 2 ≤ Size → length slots = Z.to_nat Size →
  pipeline_run Size moved_from schedule
    (pipeline_start slots ticks (length ticks) tick0) = Some c →
  ∃ schedule' c',
    pipeline_run Size moved_from schedule' c = Some c' ∧
    todo c' = [] ∧ remaining c' = O ∧ received c' = ticks.
Proof.
  intros HS H2 Hl Hrun.
  pose proof (pipeline_run_inv_of _ _ _ _ _
                (pipeline_start_inv slots ticks _ tick0 HS Hl) Hrun) as Hinv.
  destruct (consumer_settles _ _ _ Hinv) as (s1 & c1 & Hrun1 & Hcpc1 & _ & _).
  pose proof (pipeline_run_inv_of _ _ _ _ _ Hinv Hrun1) as Hinv1.
  destruct (producer_settles _ _ _ Hinv1) as (s2 & c2 & Hrun2 & Hppc2 & Hcpc2).
  pose proof (pipeline_run_inv_of _ _ _ _ _ Hinv1 Hrun2) as Hinv2.
  destruct (quiescent_finishes ticks (length (todo c2) + remaining c2)
              c2 H2 Hinv2 Hppc2)
    as (s3 & c' & Hrun3 & Hfin); [congruence|reflexivity|].
  exists (s1 ++ s2 ++ s3), c'.
  rewrite pipeline_run_app, Hrun1. simpl.
  rewrite pipeline_run_app, Hrun2. done.
Qed.

End PipelineProperties.

Section PipelineCapacityOne.

Context {T : Type}.
Variable moved_from : T → T.

Implicit Types (c : pipeline T) (ticks : list T) (schedule : list thread).

(** With capacity 1 no call ever gets past its check. *)
Lemma capacity_one_step ticks n t c c' :
  pipeline_inv 1 ticks n c →
  pipeline_step 1 moved_from t c = Some c' →
  received c' = received c ∧ todo c' = todo c ∧ remaining c' = remaining c.
Proof.
  intros [Hwf Hp Hc _ _].
  destruct c as [[w r slots] td ppc rem cpc tk rec].
  unfold producer_ok, consumer_ok in *.
  cbn [buffer todo producer_pc remaining consumer_pc tick received] in *.
  destruct Hwf as [_ Hw Hr _]. cbn [write_idx_ read_idx_] in *.
  assert (w = 0 ∧ r = 0) as [-> ->] by lia.
  destruct t; cbn [pipeline_step].
  - unfold producer_step.
    cbn [buffer todo producer_pc remaining consumer_pc tick received].
    destruct td as [|item rest]; [by intros; simplify_eq|].
    destruct ppc as [|cw nw|cw nw|cw nw].
    + cbn.
      assert (SizeT.rem (SizeT.add 0 1) 1 = Some 0) as -> by reflexivity.
      cbn. by intros; simplify_eq.
    + case_decide; by intros; simplify_eq.
    + by destruct Hp as (_ & _ & _ & []).
    + by destruct Hp as (_ & _ & _ & []).
  - unfold consumer_step.
    cbn [buffer todo producer_pc remaining consumer_pc tick received].
    destruct rem as [|k]; [by intros; simplify_eq|].
    destruct cpc as [|cr|cr|cr].
    + by intros; simplify_eq.
    + case_decide; by intros; simplify_eq.
    + by destruct Hc as (_ & _ & []).
    + by destruct Hc as (_ & _ & []).
Qed.

Lemma capacity_one_run ticks n schedule : ∀ c c',
  pipeline_inv 1 ticks n c →
  pipeline_run 1 moved_from schedule c = Some c' →
  received c' = received c ∧ todo c' = todo c ∧ remaining c' = remaining c.
Proof.
  induction schedule as [|t schedule IH]; intros c c' Hinv Hrun.
  - simpl in Hrun. by simplify_eq.
  - simpl in Hrun.
    destruct (pipeline_step 1 moved_from t c) as [c1|] eqn:Hstep;
      simpl in Hrun; [|done].
    destruct (capacity_one_step _ _ _ _ _ Hinv Hstep) as (<- & <- & <-).
    apply IH; [|done].
    apply (pipeline_run_inv_of 1 moved_from ticks n [t] c c1 Hinv).
    simpl. by rewrite Hstep.
Qed.

(** X13.  With capacity 1 the pipeline starves: whatever the schedule, no
    push ever succeeds and no tick is ever processed, so the threads spin
    for ever as soon as there is a tick to pass. *)
Theorem pipeline_capacity_one_starves slots ticks n tick0 schedule c :
  length slots = 1%nat →
  pipeline_run 1 moved_from schedule (pipeline_start slots ticks n tick0)
    = Some c →
  received c = [] ∧ todo c = ticks ∧ remaining c = n.
Proof.
  intros Hl Hrun.
  apply (capacity_one_run ticks n schedule
           (pipeline_start slots ticks n tick0) c); [|done].
  apply pipeline_start_inv; [by split|done].
Qed.

End PipelineCapacityOne.

(** ** Worked instances: three ticks through a buffer of capacity 4

    A tick leaves the value 0 behind when it is moved from. *)

Lemma pipeline_never_undefined_witness :
  ∃ c,
    pipeline_run 4 (λ _ : Z, 0)
      [Producer; Consumer; Producer; Consumer; Producer; Producer;
       Consumer; Consumer; Consumer; Consumer; Consumer; Producer]
      (pipeline_start [0; 0; 0; 0] [11; 12; 13] 3 0) = Some c ∧
    wf 4 (buffer c).
Proof.
  apply (pipeline_never_undefined 4 (λ _ : Z, 0) [0; 0; 0; 0] [11; 12; 13]
           3 0).
  - split; reflexivity.
  - reflexivity.
Defined.

(** The first tick has been processed; both threads are in their next
    call. *)
Lemma pipeline_delivers_in_order_witness :
  let c :=
    {| buffer := {| write_idx_ := 1; read_idx_ := 1;
                    buffer_ := [0; 0; 0; 0] |};
       todo := [12; 13]; producer_pc := PushCheck 1 2;
       remaining := 2; consumer_pc := PopCheck 1;
       tick := 11; received := [11] |} in
  [11; 12; 13] = received_effective c ++ live 4 (effective 4 c)
                   ++ todo_effective c ∧
  received c `prefix_of` [11; 12; 13] ∧
  (length (received c) + remaining c = 3)%nat ∧
  (remaining c = O → received c = take 3 [11; 12; 13]).
Proof.
  apply (pipeline_delivers_in_order 4 (λ _ : Z, 0) [0; 0; 0; 0]
           [11; 12; 13] 3 0
           [Producer; Consumer; Producer; Consumer; Producer; Producer;
            Consumer; Consumer; Consumer; Consumer; Consumer; Producer]).
  - split; reflexivity.
  - reflexivity.
  - reflexivity.
Defined.

(** The producer is about to assign slot 1 while the consumer is about to
    move slot 0 out. *)
Lemma pipeline_slots_disjoint_witness :
  pipeline_run 4 (λ _ : Z, 0)
    [Producer; Producer; Producer; Producer; Producer; Producer;
     Consumer; Consumer]
    (pipeline_start [0; 0; 0; 0] [11; 12; 13] 3 0) =
    Some {| buffer := {| write_idx_ := 1; read_idx_ := 0;
                         buffer_ := [11; 0; 0; 0] |};
            todo := [12; 13]; producer_pc := PushSlot 1 2;
            remaining := 3; consumer_pc := PopSlot 0;
            tick := 0; received := [] |} ∧
  1 ≠ 0.
Proof.
  split; [reflexivity|].
  apply (pipeline_slots_disjoint 4 (λ _ : Z, 0) [0; 0; 0; 0] [11; 12; 13]
           3 0
           [Producer; Producer; Producer; Producer; Producer; Producer;
            Consumer; Consumer]
           {| buffer := {| write_idx_ := 1; read_idx_ := 0;
                           buffer_ := [11; 0; 0; 0] |};
              todo := [12; 13]; producer_pc := PushSlot 1 2;
              remaining := 3; consumer_pc := PopSlot 0;
              tick := 0; received := [] |} 1 2 0).
  - split; reflexivity.
  - reflexivity.
  - reflexivity.
  - reflexivity.
  - reflexivity.
Defined.

Lemma pipeline_can_always_finish_witness :
  ∃ schedule' c',
    pipeline_run 4 (λ _ : Z, 0) schedule'
      {| buffer := {| write_idx_ := 1; read_idx_ := 0;
                      buffer_ := [11; 0; 0; 0] |};
         todo := [12; 13]; producer_pc := PushSlot 1 2;
         remaining := 3; consumer_pc := PopSlot 0;
         tick := 0; received := [] |} = Some c' ∧
    todo c' = [] ∧ remaining c' = O ∧ received c' = [11; 12; 13].
Proof.
  apply (pipeline_can_always_finish 4 (λ _ : Z, 0) [0; 0; 0; 0]
           [11; 12; 13] 0
           [Producer; Producer; Producer; Producer; Producer; Producer;
            Consumer; Consumer]).
  - split; reflexivity.
  - lia.
  - reflexivity.
  - reflexivity.
Defined.

Lemma pipeline_capacity_one_starves_witness :
  let c :=
    {| buffer := fresh [0];
       todo := [11; 12]; producer_pc := PushCheck 0 0;
       remaining := 2; consumer_pc := PopCall;
       tick := 0; received := [] |} in
  received c = [] ∧ todo c = [11; 12] ∧ remaining c = 2%nat.
Proof.
  apply (pipeline_capacity_one_starves (λ _ : Z, 0) [0] [11; 12] 2 0
           [Producer; Producer; Consumer; Consumer; Producer]).
  - reflexivity.
  - reflexivity.
Defined.

(** * The counter benchmark *)

Section CounterBenchmark.

Implicit Types (counters : list Z) (thread_id k i c : Z) (fuel m : nat).

Lemma fetch_add_1_insert counters thread_id c :
  0 ≤ thread_id → (Z.to_nat thread_id < length counters)%nat →
  0 ≤ c → c + 1 < SizeT.modulus →
  fetch_add_1 (<[Z.to_nat thread_id := c]> counters) thread_id =
    Some (<[Z.to_nat thread_id := c + 1]> counters).
Proof.
  intros Ht Hlen Hc Hc'. unfold fetch_add_1, SizeT.add.
  rewrite decide_True by done.
  rewrite list_lookup_insert_eq by done. simpl.
  by rewrite list_insert_insert_eq, Z.mod_small by lia.
Qed.

Lemma unrolled_loop_spec k thread_id counters m : ∀ fuel i c,
  (m < fuel)%nat → 0 ≤ thread_id →
  (Z.to_nat thread_id < length counters)%nat →
  0 ≤ i → i + 8 * Z.of_nat m ≤ Int.max →
  k ≤ i + 8 * Z.of_nat m → (m ≠ O → i + 8 * (Z.of_nat m - 1) < k) →
  0 ≤ c → c + 8 * Z.of_nat m < SizeT.modulus →
  unrolled_loop fuel k thread_id i (<[Z.to_nat thread_id := c]> counters) =
    Returns (<[Z.to_nat thread_id := c + 8 * Z.of_nat m]> counters).
Proof.
  induction m as [|m IH]; intros fuel i c Hfuel Ht Hlen Hi Hmax Hend Hrun Hc Hc'.
  - destruct fuel as [|fuel]; [lia|]. simpl.
    rewrite decide_False by lia. do 2 f_equal. lia.
  - destruct fuel as [|fuel]; [lia|]. cbn [unrolled_loop].
    rewrite decide_True by lia.
    do 8 (rewrite fetch_add_1_insert by (done || lia); simpl).
    unfold Int.add, Int.min, Int.max in *.
    rewrite decide_True by lia. simpl.
    rewrite (IH fuel (i + 8) _) by (done || lia).
    do 2 f_equal. lia.
Qed.

Lemma remainder_loop_spec k thread_id counters m : ∀ fuel i c,
  (m < fuel)%nat → 0 ≤ thread_id →
  (Z.to_nat thread_id < length counters)%nat →
  0 ≤ i → i + Z.of_nat m = k → k ≤ Int.max →
  0 ≤ c → c + Z.of_nat m < SizeT.modulus →
  remainder_loop fuel k thread_id i (<[Z.to_nat thread_id := c]> counters) =
    Returns (<[Z.to_nat thread_id := c + Z.of_nat m]> counters).
Proof.
  induction m as [|m IH]; intros fuel i c Hfuel Ht Hlen Hi Hend Hmax Hc Hc'.
  - destruct fuel as [|fuel]; [lia|]. simpl.
    rewrite decide_False by lia. do 2 f_equal. lia.
  - destruct fuel as [|fuel]; [lia|]. cbn [remainder_loop].
    rewrite decide_True by lia.
    rewrite fetch_add_1_insert by (done || lia). simpl.
    unfold Int.add, Int.min, Int.max in *.
    rewrite decide_True by lia. simpl.
    rewrite (IH fuel (i + 1) _) by (done || lia).
    do 2 f_equal. lia.
Qed.

(** X14.  [increment_counter] returns, having changed the thread's own
    counter only; it adds [kIterations] to it when [kIterations] is a
    multiple of 8, and [kIterations + 8] otherwise: the unrolled loop then
    runs one round too many before the remainder loop adds the rest. *)
Theorem increment_counter_adds fuel k counters thread_id c :
  0 ≤ k ≤ Int.max - 7 → 0 ≤ thread_id →
  counters !! Z.to_nat thread_id = Some c →
  0 ≤ c → c + k + 8 < SizeT.modulus →
  (Z.to_nat k < fuel)%nat →
  increment_counter fuel k counters thread_id =
    Returns (<[Z.to_nat thread_id :=
                 c + k + (if decide (k `mod` 8 = 0) then 0 else 8)]> counters).
Proof.
  intros Hk Ht Hlook Hc Hc' Hfuel.
  pose proof (lookup_lt_Some _ _ _ Hlook) as Hlen.
  pose proof (Z.div_mod k 8) as Hdm.
  pose proof (Z.mod_pos_bound k 8) as Hmod.
  pose proof (Z.div_mod (k + 7) 8) as Hdm7.
  pose proof (Z.mod_pos_bound (k + 7) 8) as Hmod7.
  unfold Int.max in *.
  set (m1 := Z.to_nat ((k + 7) / 8)).
  set (m2 := Z.to_nat (k `mod` 8)).
  assert (0 ≤ (k + 7) / 8) as Hq7 by (apply Z.div_pos; lia).
  unfold increment_counter.
  rewrite <- (list_insert_id counters (Z.to_nat thread_id) c Hlook) at 1.
  rewrite (unrolled_loop_spec k thread_id counters m1);
    unfold Int.max; try (done || (subst m1; lia)).
  rewrite Z.quot_div_nonneg by lia.
  rewrite (remainder_loop_spec k thread_id counters m2);
    unfold Int.max; try (done || (subst m1 m2; lia)).
  do 2 f_equal. subst m1 m2. case_decide; lia.
Qed.

End CounterBenchmark.

(** * The sequence lock *)

Section SeqLockProperties.

Implicit Types (s : SeqLock) (writes : list (Z * Z * Z * Z)).

Lemma land_1_even x : Z.land x 1 = 0 ↔ x `mod` 2 = 0.
Proof.
  change 1 with (Z.ones 1). rewrite Z.land_ones by lia. done.
Qed.

Lemma seqlock_write_sequence s a b c d :
  sequence (seqlock_write s a b c d) = SizeT.add (sequence s) 2.
Proof. done. Qed.

Lemma seqlock_write_data s a b c d :
  length (data s) = 4%nat →
  data (seqlock_write s a b c d) = [a; b; c; d].
Proof.
  intros Hlen. destruct s as [seq [|x0 [|x1 [|x2 [|x3 [|??]]]]]]; by simplify_eq.
Qed.

(** Between writes the sequence number is even, also when it wraps. *)
Lemma seqlock_writes_inv writes : ∀ s,
  sequence s `mod` 2 = 0 → 0 ≤ sequence s < SizeT.modulus →
  length (data s) = 4%nat →
  sequence (seqlock_writes writes s) `mod` 2 = 0 ∧
  0 ≤ sequence (seqlock_writes writes s) < SizeT.modulus ∧
  sequence (seqlock_writes writes s) =
    (sequence s + 2 * Z.of_nat (length writes)) `mod` SizeT.modulus ∧
  data (seqlock_writes writes s) =
    match list.last writes with
    | Some (a, b, c, d) => [a; b; c; d]
    | None => data s
    end.
Proof.
  induction writes as [|[[[a b] c] d] writes IH] using rev_ind; intros s He Hr Hl.
  - unfold seqlock_writes. cbn [foldl list.last].
    replace (sequence s + 2 * Z.of_nat (length (@nil (Z * Z * Z * Z))))
      with (sequence s) by (simpl; lia).
    by rewrite (Z.mod_small _ SizeT.modulus).
  - unfold seqlock_writes in *. rewrite foldl_snoc, last_snoc.
    destruct (IH s He Hr Hl) as (He' & Hr' & Hs' & Hd').
    set (s' := foldl _ s writes) in *.
    assert (length (data s') = 4%nat) as Hl'.
    { rewrite Hd'. destruct (list.last writes) as [[[[??]?]?]|]; done. }
    rewrite seqlock_write_sequence, (seqlock_write_data _ _ _ _ _ Hl').
    unfold SizeT.add, SizeT.modulus in *.
    change (2 ^ 64) with 18446744073709551616 in *.
    split; [|split; [|split; [|done]]].
    + rewrite Z.mod_mod_divide by (by exists 9223372036854775808).
      rewrite Z.add_mod, He' by lia. done.
    + apply Z.mod_pos_bound. lia.
    + rewrite Hs', length_app, Nat2Z.inj_add, Zplus_mod_idemp_l. simpl.
      f_equal. lia.
Qed.

(** X15.  Used by one thread, the lock reads back what was last written:
    after any number of writes to a new lock the sequence number is twice
    that number modulo 2^64, hence even, and [read] returns true at its
    first pass with the four values of the last write (the four zeros when
    there was none). *)
Theorem seqlock_read_after_writes writes fuel result :
  sequence (seqlock_writes writes seqlock_new) =
    (2 * Z.of_nat (length writes)) `mod` SizeT.modulus ∧
  seqlock_read (S fuel) (seqlock_writes writes seqlock_new) result None =
    Returns (true,
             match list.last writes with
             | Some (a, b, c, d) => [a; b; c; d]
             | None => [0; 0; 0; 0]
             end).
Proof.
  destruct (seqlock_writes_inv writes seqlock_new) as (He & Hr & Hs & Hd);
    [reflexivity|split; [reflexivity|reflexivity]|reflexivity|].
  split; [done|]. cbn [seqlock_read].
  apply land_1_even in He.
  rewrite decide_False by (intros Hne; by apply Hne).
  rewrite decide_False by (intros Hne; by apply Hne).
  rewrite Hd. by destruct (list.last writes) as [[[[??]?]?]|].
Qed.

(** X16.  When [read] finds a write in progress at its first load (an odd
    sequence number), its [continue] leads to the loop condition
    [seq1 != seq2] before [seq2] was ever assigned: the call has undefined
    behaviour at once. *)
Theorem seqlock_read_during_write fuel s result :
  sequence s `mod` 2 = 1 →
  seqlock_read (S fuel) s result None = Undefined.
Proof.
  intros Hodd. cbn [seqlock_read].
  rewrite decide_True; [done|].
  intros He. apply land_1_even in He. lia.
Qed.

End SeqLockProperties.

(** * The driver of the memory-ordering examples *)

Section Driver.

Variable returns : demo → bool.

(** What holds of the calls started so far, at every point of [main]
    before the usage text: control is still in [main] exactly when every
    call returned; otherwise the last call started is the one that did
    not. *)
Local Abbreviation main_inv st :=
  ((PrintUsage ∉ st.1) ∧
   (st.2 = true ↔ ∀ d, d ∈ st.1 → returns d = true) ∧
   (st.2 = false → ∃ d, list.last st.1 = Some d ∧ returns d = false)).

Lemma main_inv_start : main_inv (([], true) : main_state).
Proof.
  split; [by intros ?%elem_of_nil|]. split; [|done].
  split; [by intros _ d ?%elem_of_nil|done].
Qed.

Lemma main_call_inv d (st : main_state) :
  d ≠ PrintUsage → main_inv st →
  main_inv (main_call returns d st) ∧ (main_call returns d st).1 ≠ [].
Proof.
  intros Hd (Hu & Hall & Hlast). unfold main_call.
  destruct st as [started [|]]; simpl in *.
  - split; [|by destruct started]. split; [|split].
    + rewrite elem_of_app, list_elem_of_singleton. intros [?|?]; [tauto|done].
    + split.
      * intros Hr d' [Hin| ->%list_elem_of_singleton]%elem_of_app; [|done].
        by apply Hall.
      * intros Hall'. apply Hall'. apply elem_of_app. right.
        by apply list_elem_of_singleton.
    + intros Hr. exists d. by rewrite last_snoc.
  - split; [done|]. destruct (Hlast eq_refl) as (d' & Hd' & _).
    by destruct started.
Qed.

Lemma main_calls_inv ds (st : main_state) :
  PrintUsage ∉ ds → main_inv st →
  main_inv (foldl (λ st d, main_call returns d st) st ds) ∧
  (ds ≠ [] → (foldl (λ st d, main_call returns d st) st ds).1 ≠ []).
Proof.
  revert st. induction ds as [|d ds IH]; intros st Hds Hst; [done|].
  apply not_elem_of_cons in Hds as [Hd Hds]. simpl.
  destruct (main_call_inv d st) as [Hinv Hne]; [done..|].
  destruct (IH _ Hds Hinv) as [Hinv' Hne']. split; [done|]. intros _.
  destruct ds as [|d' ds]; [done|]. by apply Hne'.
Qed.

(** The calls [main] makes for each name of the usage text. *)
Lemma main_listed argv :
  main_test_name argv ∈ test_names →
  ∃ ds, ds ≠ [] ∧ (PrintUsage ∉ ds) ∧
    main returns argv =
      main_return 0 (foldl (λ st d, main_call returns d st) ([], true) ds).
Proof.
  intros Hin. unfold test_names in Hin.
  assert (∀ ds : list demo,
            Forall (λ d, d ≠ PrintUsage) ds → PrintUsage ∉ ds) as Hnot.
  { intros ds Hds Hu. by eapply Forall_forall in Hds. }
  apply elem_of_cons in Hin as [Hin|Hin].
  { exists [MemoryOrderingDemo]. split; [done|].
    split; [by apply Hnot; repeat constructor|].
    unfold main. rewrite Hin. vm_compute. reflexivity. }
  apply elem_of_cons in Hin as [Hin|Hin].
  { exists [MemoryOrderingBenchmarks]. split; [done|].
    split; [by apply Hnot; repeat constructor|].
    unfold main. rewrite Hin. vm_compute. reflexivity. }
  apply elem_of_cons in Hin as [Hin|Hin].
  { exists [UnalignedBenchmark]. split; [done|].
    split; [by apply Hnot; repeat constructor|].
    unfold main. rewrite Hin. vm_compute. reflexivity. }
  apply elem_of_cons in Hin as [Hin|Hin].
  { exists [AlignedBenchmark]. split; [done|].
    split; [by apply Hnot; repeat constructor|].
    unfold main. rewrite Hin. vm_compute. reflexivity. }
  apply elem_of_cons in Hin as [Hin|Hin].
  { exists [ThreadScalingTest]. split; [done|].
    split; [by apply Hnot; repeat constructor|].
    unfold main. rewrite Hin. vm_compute. reflexivity. }
  apply elem_of_cons in Hin as [Hin|Hin].
  { exists [MemoryOrderingDemo; MemoryOrderingBenchmarks; AlignmentDemo;
            ThreadScalingTest]. split; [done|].
    split; [by apply Hnot; repeat constructor|].
    unfold main. rewrite Hin. vm_compute. reflexivity. }
  by apply elem_of_nil in Hin.
Qed.

Lemma main_return_0 (st : main_state) :
  main_inv st → st.1 ≠ [] →
  (main_return 0 st).1 ≠ [] ∧
  (PrintUsage ∉ (main_return 0 st).1) ∧
  ((main_return 0 st).2 = Some 0 ∨ (main_return 0 st).2 = None) ∧
  ((main_return 0 st).2 = Some 0 ↔
     ∀ d, d ∈ (main_return 0 st).1 → returns d = true) ∧
  ((main_return 0 st).2 = None →
     ∃ d, list.last (main_return 0 st).1 = Some d ∧ returns d = false).
Proof.
  intros (Hu & Hall & Hlast) Hne. unfold main_return.
  destruct st as [started [|]]; simpl in *.
  - split; [done|]. split; [done|]. split; [by left|].
    split; [|done]. split; [intros _; by apply Hall|done].
  - split; [done|]. split; [done|]. split; [by right|].
    split; [|by intros _; apply Hlast].
    split; [done|]. intros Hall'. by apply Hall in Hall'.
Qed.


End Driver.

(** ** Worked instances: the counter benchmark and the sequence lock *)

(** The file's own [kIterations], a multiple of 8, on a fresh array of 24
    counters: thread 3 counts to [kIterations] exactly, as
    [run_counter_benchmark_for_scaling] expects. *)
Lemma increment_counter_adds_witness :
  increment_counter (Z.to_nat (kIterations + 1)) kIterations
      (replicate 24 0) 3 =
    Returns (<[Z.to_nat 3 :=
                 0 + kIterations
                 + (if decide (kIterations `mod` 8 = 0) then 0 else 8)]>
               (replicate 24 0)).
Proof.
  apply (increment_counter_adds (Z.to_nat (kIterations + 1)) kIterations
           (replicate 24 0) 3 0).
  - unfold kIterations, Int.max. lia.
  - lia.
  - reflexivity.
  - lia.
  - unfold kIterations, SizeT.modulus. lia.
  - unfold kIterations. lia.
Defined.

Lemma seqlock_read_during_write_witness :
  seqlock_read 1 {| sequence := 1; data := [10; 20; 0; 0] |} [0; 0; 0; 0]
    None = Undefined.
Proof.
  apply (seqlock_read_during_write 0
           {| sequence := 1; data := [10; 20; 0; 0] |} [0; 0; 0; 0]).
  reflexivity.
Defined.

(** * The asymmetric barrier benchmark *)

Section BarrierBenchmark.

Implicit Types (c : barrier_benchmark) (schedule : list thread)
  (rounds : nat).

Lemma barrier_run_app schedule1 schedule2 c :
  barrier_run (schedule1 ++ schedule2) c =
    barrier_run schedule2 (barrier_run schedule1 c).
Proof. apply foldl_app. Qed.

Lemma barrier_good_round_run rounds :
  barrier_run barrier_good_round (barrier_start (S rounds)) =
    barrier_start rounds.
Proof. reflexivity. Qed.

Lemma barrier_good_rounds_run k : ∀ rounds,
  barrier_run (concat (replicate k barrier_good_round))
    (barrier_start (k + rounds)) = barrier_start rounds.
Proof.
  induction k as [|k IH]; intros rounds; [done|].
  cbn [replicate concat]. rewrite barrier_run_app.
  change (S k + rounds)%nat with (S (k + rounds)).
  by rewrite barrier_good_round_run.
Qed.

Lemma barrier_hung_stays schedule : barrier_run schedule barrier_hung = barrier_hung.
Proof.
  induction schedule as [|t schedule IH]; [done|].
  unfold barrier_run in *. cbn [foldl]. by destruct t.
Qed.

(** X18.  The barrier benchmark can hang: for every positive number of
    rounds there is an interleaving after which the producer has finished
    all its rounds, having reset the barrier before the consumer looked at
    it, while the consumer still spins in its last [consumer_arrive_and_wait]
    and no further step of either thread changes anything. *)
Theorem barrier_benchmark_can_hang rounds :
  rounds ≠ O →
  ∃ schedule,
    producer_rounds (barrier_run schedule (barrier_start rounds)) = O ∧
    consumer_rounds (barrier_run schedule (barrier_start rounds)) = 1%nat ∧
    barrier_consumer (barrier_run schedule (barrier_start rounds)) =
      BarrierConsumerWait ∧
    ∀ schedule',
      barrier_run schedule' (barrier_run schedule (barrier_start rounds)) =
        barrier_run schedule (barrier_start rounds).
Proof.
  intros Hrounds. destruct rounds as [|k]; [done|].
  exists (concat (replicate k barrier_good_round) ++ barrier_bad_round).
  assert (barrier_run
            (concat (replicate k barrier_good_round) ++ barrier_bad_round)
            (barrier_start (S k)) = barrier_hung) as ->.
  { rewrite barrier_run_app.
    replace (S k) with (k + 1)%nat by lia.
    by rewrite barrier_good_rounds_run. }
  split; [done|]. split; [done|]. split; [done|].
  apply barrier_hung_stays.
Qed.

(** X19.  The barrier benchmark can also run to its end: for every number
    of rounds there is an interleaving after which both threads have done
    all their rounds and the barrier is reset. *)
Theorem barrier_benchmark_can_finish rounds :
  ∃ schedule, barrier_run schedule (barrier_start rounds) = barrier_start 0.
Proof.
  exists (concat (replicate rounds barrier_good_round)).
  rewrite <- (Nat.add_0_r rounds) at 2. apply barrier_good_rounds_run.
Qed.

End BarrierBenchmark.

(** ** Worked instance: the barrier benchmark at its 100 rounds *)

Lemma barrier_benchmark_can_hang_witness :
  ∃ schedule,
    producer_rounds (barrier_run schedule (barrier_start 100)) = O ∧
    consumer_rounds (barrier_run schedule (barrier_start 100)) = 1%nat ∧
    barrier_consumer (barrier_run schedule (barrier_start 100)) =
      BarrierConsumerWait ∧
    ∀ schedule',
      barrier_run schedule' (barrier_run schedule (barrier_start 100)) =
        barrier_run schedule (barrier_start 100).
Proof.
  apply (barrier_benchmark_can_hang 100). lia.
Defined.

(** * The consumer reads published slots only *)

Section PipelineReads.

Context {T : Type}.
Variable Size : Z.
Variable moved_from : T → T.

(** X20.  The consumer never moves out a slot the producer has not
    finished with: whenever its next step is the move out of
    [buffer_[current_read]], that slot holds the tick next in order, the
    one that follows those already processed in the producer's list. *)
Theorem pipeline_reads_published slots (ticks : list T) n tick0 schedule c cr :
  valid_size Size → length slots = Z.to_nat Size →
  pipeline_run Size moved_from schedule
    (pipeline_start slots ticks n tick0) = Some c →
  consumer_pc c = PopSlot cr →
  ∃ x, buffer_ (buffer c) !! Z.to_nat cr = Some x ∧
       ticks !! length (received c) = Some x.
Proof.
  intros HS Hl Hrun Hcpc.
  pose proof (pipeline_run_inv_of Size moved_from _ _ _ _ _
                (pipeline_start_inv Size slots ticks n tick0 HS Hl) Hrun)
    as Hinv.
  pose proof (effective_wf Size c (inv_wf _ _ _ _ Hinv)
    (inv_producer _ _ _ _ Hinv) (inv_consumer _ _ _ _ Hinv)) as Hwfe.
  destruct Hinv as [Hwf Hp Hc Ht Hn].
  destruct c as [[w r buf] td ppc rem cpc tk rec].
  unfold producer_ok, consumer_ok, effective, todo_effective,
    received_effective in *.
  cbn [buffer todo producer_pc remaining consumer_pc tick received
       write_idx_ read_idx_ buffer_] in *.
  subst cpc. destruct Hc as (_ & -> & Hne).
  set (ew := match ppc with
             | PushPublish _ nw => nw
             | _ => w
             end) in *.
  assert (¬ is_empty {| write_idx_ := ew; read_idx_ := r; buffer_ := buf |})
    as Hnee.
  { unfold is_empty in *; simpl in *. subst ew.
    destruct ppc as [|cw nw|cw nw|cw nw]; try done.
    destruct Hp as (_ & -> & -> & Hnf). unfold is_full in Hnf.
    simpl in Hnf. congruence. }
  destruct (live_nonempty Size _ Hwfe Hnee) as (x & q & Hlive).
  pose proof (holds_live _ _ Hwfe) as [_ Hslots]. rewrite Hlive in Hslots.
  specialize (Hslots 0%nat x eq_refl).
  cbn [read_idx_ buffer_] in Hslots.
  rewrite Z.add_0_r, Z.mod_small in Hslots by apply Hwf.
  exists x. split; [done|].
  rewrite Ht, Hlive, lookup_app_r, Nat.sub_diag by done. done.
Qed.

End PipelineReads.

Lemma pipeline_reads_published_witness :
  ∃ x, buffer_ (buffer
         {| buffer := {| write_idx_ := 1; read_idx_ := 0;
                         buffer_ := [11; 0; 0; 0] |};
            todo := [12; 13]; producer_pc := PushSlot 1 2;
            remaining := 3; consumer_pc := PopSlot 0;
            tick := 0; received := [] |}) !! Z.to_nat 0 = Some x ∧
       [11; 12; 13] !! length (@nil Z) = Some x.
Proof.
  apply (pipeline_reads_published 4 (λ _ : Z, 0) [0; 0; 0; 0] [11; 12; 13]
           3 0
           [Producer; Producer; Producer; Producer; Producer; Producer;
            Consumer; Consumer]
           {| buffer := {| write_idx_ := 1; read_idx_ := 0;
                           buffer_ := [11; 0; 0; 0] |};
              todo := [12; 13]; producer_pc := PushSlot 1 2;
              remaining := 3; consumer_pc := PopSlot 0;
              tick := 0; received := [] |} 0).
  - split; reflexivity.
  - reflexivity.
  - reflexivity.
  - reflexivity.
Defined.

(** * Release and acquire on the two cursors *)

Section ReleaseAcquire.

Variable Size : Z.

(** Every access of a thread belongs to one of its calls. *)
Lemma calls_actions_lookup call loads trace i a :
  calls_actions call loads = Some trace →
  trace !! i = Some a →
  ∃ own other actions before after (j : nat),
    call own other = Some actions ∧
    trace = before ++ actions ++ after ∧
    i = (length before + j)%nat ∧
    actions !! j = Some a.
Proof.
  revert trace i.
  induction loads as [|[own other] loads IH]; intros trace i Hrun Hi.
  { simpl in Hrun. by simplify_eq. }
  simpl in Hrun.
  destruct (call own other) as [actions|] eqn:Hcall; [|done].
  destruct (calls_actions call loads) as [rest|] eqn:Hrest; [|done].
  simpl in Hrun. simplify_eq.
  destruct (decide (i < length actions)%nat) as [Hlt|Hge].
  - rewrite lookup_app_l in Hi by done.
    exists own, other, actions, [], rest, i. by rewrite app_nil_l.
  - rewrite lookup_app_r in Hi by lia.
    destruct (IH rest _ eq_refl Hi)
      as (own' & other' & actions' & before & after & j & ? & -> & Hj & ?).
    exists own', other', actions', (actions ++ before), after, j.
    split; [done|]. split; [by rewrite <- app_assoc|].
    split; [|done]. rewrite length_app. lia.
Qed.

Lemma lookup_in_call {A} (before actions after : list A) (j : nat) :
  (j < length actions)%nat →
  (before ++ actions ++ after) !! (length before + j)%nat = actions !! j.
Proof.
  intros Hj. rewrite lookup_app_r by lia.
  replace (length before + j - length before)%nat with j by lia.
  by rewrite lookup_app_l.
Qed.

(** The accesses are those of the calls: on a buffer whose cursors hold
    what the two loads return, [TryPush] is defined exactly when its
    sequence of accesses is, it returns true exactly when the sequence
    assigns the slot, and the cursor it leaves is the value stored. *)
Lemma TryPush_actions_agree {T} (rb : LockFreeRingBuffer T) (item : T) :
  length (buffer_ rb) = Z.to_nat Size → 0 ≤ write_idx_ rb →
  match TryPush Size rb item,
        TryPush_actions Size (write_idx_ rb) (read_idx_ rb) with
  | Some (true, rb', _), Some actions =>
      actions =
        [AtomicLoad WriteIdx memory_order_relaxed (write_idx_ rb);
         AtomicLoad ReadIdx memory_order_acquire (read_idx_ rb);
         SlotAssign (write_idx_ rb);
         AtomicStore WriteIdx memory_order_release (write_idx_ rb')]
  | Some (false, rb', _), Some actions =>
      rb' = rb ∧
      actions =
        [AtomicLoad WriteIdx memory_order_relaxed (write_idx_ rb);
         AtomicLoad ReadIdx memory_order_acquire (read_idx_ rb)]
  | None, None => True
  | _, _ => False
  end.
Proof.
  intros Hlen Hw. unfold TryPush, TryPush_actions, StdArray.set.
  destruct (SizeT.rem (SizeT.add (write_idx_ rb) 1) Size) as [next|];
    [|done].
  simpl. repeat case_decide; simpl; try done; lia.
Qed.

Lemma TryPop_actions_agree {T} moved_from (rb : LockFreeRingBuffer T)
    (output : T) :
  length (buffer_ rb) = Z.to_nat Size → 0 ≤ read_idx_ rb →
  match TryPop Size moved_from rb output,
        TryPop_actions Size (read_idx_ rb) (write_idx_ rb) with
  | Some (true, rb', _), Some actions =>
      actions =
        [AtomicLoad ReadIdx memory_order_relaxed (read_idx_ rb);
         AtomicLoad WriteIdx memory_order_acquire (write_idx_ rb);
         SlotMoveOut (read_idx_ rb);
         AtomicStore ReadIdx memory_order_release (read_idx_ rb')]
  | Some (false, rb', _), Some actions =>
      rb' = rb ∧
      actions =
        [AtomicLoad ReadIdx memory_order_relaxed (read_idx_ rb);
         AtomicLoad WriteIdx memory_order_acquire (write_idx_ rb)]
  | None, None => True
  | _, _ => False
  end.
Proof.
  intros Hlen Hr. unfold TryPop, TryPop_actions, StdArray.get, StdArray.set.
  case_decide; [done|].
  destruct (buffer_ rb !! Z.to_nat (read_idx_ rb)) as [v|] eqn:Hv; simpl.
  - apply lookup_lt_Some in Hv.
    rewrite decide_True by done. simpl.
    rewrite decide_True by lia.
    by destruct (SizeT.rem (SizeT.add (read_idx_ rb) 1) Size).
  - apply lookup_ge_None in Hv. by rewrite decide_False by lia.
Qed.

(** [TryPush]: the slot is assigned between the acquire load of
    [read_idx_] and the release store of [write_idx_]. *)
Lemma producer_slot_assign loads trace w k :
  producer_actions Size loads = Some trace →
  trace !! w = Some (SlotAssign k) →
  ∃ seen next,
    SizeT.rem (SizeT.add k 1) Size = Some next ∧ next ≠ seen ∧
    0 ≤ k < Size ∧ (1 ≤ w)%nat ∧
    trace !! pred w = Some (AtomicLoad ReadIdx memory_order_acquire seen) ∧
    trace !! S w = Some (AtomicStore WriteIdx memory_order_release next).
Proof.
  intros Hrun Hw.
  destruct (calls_actions_lookup _ _ _ _ _ Hrun Hw)
    as (cw & rd & actions & before & after & j & Hcall & -> & -> & Hj).
  unfold TryPush_actions in Hcall.
  destruct (SizeT.rem (SizeT.add cw 1) Size) as [next|] eqn:Hnext; [|done].
  simpl in Hcall. repeat case_decide; simplify_eq.
  - by destruct j as [|[|[|]]].
  - destruct j as [|[|[|[|]]]]; simpl in Hj; simplify_eq.
    exists rd, next. repeat split; [done|done|lia|lia|lia|..].
    + replace (pred (length before + 2)) with (length before + 1)%nat by lia.
      by rewrite lookup_in_call by (simpl; lia).
    + replace (S (length before + 2)) with (length before + 3)%nat by lia.
      by rewrite lookup_in_call by (simpl; lia).
Qed.

(** [TryPop]: the slot is moved out between the acquire load of
    [write_idx_] and the release store of [read_idx_]. *)
Lemma consumer_slot_move_out loads trace r k :
  consumer_actions Size loads = Some trace →
  trace !! r = Some (SlotMoveOut k) →
  ∃ seen next,
    SizeT.rem (SizeT.add k 1) Size = Some next ∧ k ≠ seen ∧
    0 ≤ k < Size ∧ (1 ≤ r)%nat ∧
    trace !! pred r = Some (AtomicLoad WriteIdx memory_order_acquire seen) ∧
    trace !! S r = Some (AtomicStore ReadIdx memory_order_release next).
Proof.
  intros Hrun Hr.
  destruct (calls_actions_lookup _ _ _ _ _ Hrun Hr)
    as (cr & wr & actions & before & after & j & Hcall & -> & -> & Hj).
  unfold TryPop_actions in Hcall.
  repeat case_decide; simplify_eq.
  - by destruct j as [|[|[|]]].
  - destruct (SizeT.rem (SizeT.add cr 1) Size) as [next|] eqn:Hnext; [|done].
    simpl in Hcall. simplify_eq.
    destruct j as [|[|[|[|]]]]; simpl in Hj; simplify_eq.
    exists wr, next. repeat split; [done|done|lia|lia|lia|..].
    + replace (pred (length before + 2)) with (length before + 1)%nat by lia.
      by rewrite lookup_in_call by (simpl; lia).
    + replace (S (length before + 2)) with (length before + 3)%nat by lia.
      by rewrite lookup_in_call by (simpl; lia).
Qed.

(** The memory orders of the producer: it stores to [write_idx_] only,
    with release; it loads [read_idx_] with acquire and its own cursor
    relaxed. *)
Lemma producer_orders loads trace i :
  producer_actions Size loads = Some trace →
  match trace !! i with
  | Some (AtomicStore x order _) =>
      x = WriteIdx ∧ order = memory_order_release
  | Some (AtomicLoad ReadIdx order _) => order = memory_order_acquire
  | Some (AtomicLoad WriteIdx order _) => order = memory_order_relaxed
  | _ => True
  end.
Proof.
  intros Hrun. destruct (trace !! i) as [a|] eqn:Hi; [|done].
  destruct (calls_actions_lookup _ _ _ _ _ Hrun Hi)
    as (cw & rd & actions & before & after & j & Hcall & -> & -> & Hj).
  unfold TryPush_actions in Hcall.
  destruct (SizeT.rem (SizeT.add cw 1) Size) as [next|] eqn:Hnext; [|done].
  simpl in Hcall. repeat case_decide; simplify_eq.
  - by destruct j as [|[|[|]]]; simplify_eq/=.
  - by destruct j as [|[|[|[|[|]]]]]; simplify_eq/=.
Qed.

(** The memory orders of the consumer, likewise. *)
Lemma consumer_orders loads trace i :
  consumer_actions Size loads = Some trace →
  match trace !! i with
  | Some (AtomicStore x order _) =>
      x = ReadIdx ∧ order = memory_order_release
  | Some (AtomicLoad WriteIdx order _) => order = memory_order_acquire
  | Some (AtomicLoad ReadIdx order _) => order = memory_order_relaxed
  | _ => True
  end.
Proof.
  intros Hrun. destruct (trace !! i) as [a|] eqn:Hi; [|done].
  destruct (calls_actions_lookup _ _ _ _ _ Hrun Hi)
    as (cr & wr & actions & before & after & j & Hcall & -> & -> & Hj).
  unfold TryPop_actions in Hcall.
  repeat case_decide; simplify_eq.
  - by destruct j as [|[|[|]]]; simplify_eq/=.
  - destruct (SizeT.rem (SizeT.add cr 1) Size) as [next|] eqn:Hnext; [|done].
    simpl in Hcall. simplify_eq.
    by destruct j as [|[|[|[|[|]]]]]; simplify_eq/=.
Qed.

Lemma action_ids_elem X a :
  is_Some (action_of X a) → a ∈ action_ids X.
Proof.
  destruct a as [[] p]; unfold action_of, action_ids; simpl;
    intros Hp%lookup_lt_is_Some; apply elem_of_app; [left|right];
    apply list_elem_of_fmap; exists p; (split; [done|]);
    apply elem_of_seq; lia.
Qed.

Lemma reads_from_wf_at X l :
  reads_from_wf X → is_Some (action_of X l) → reads_from_ok X l = true.
Proof.
  unfold reads_from_wf. rewrite forallb_forall. intros Hwf Hl.
  by apply Hwf, list_elem_of_In, action_ids_elem.
Qed.

Lemma reads_from_wf_elem X a b :
  reads_from_wf X → is_Some (action_of X b) → reads_from X b = Some a →
  ∃ x order_a order_b value,
    action_of X a = Some (AtomicStore x order_a value) ∧
    action_of X b = Some (AtomicLoad x order_b value).
Proof.
  intros Hwf Hb Hrf. pose proof (reads_from_wf_at _ _ Hwf Hb) as Hok.
  unfold reads_from_ok in Hok. rewrite Hrf in Hok.
  destruct (action_of X b) as [[y order_b loaded | | |]|]; try done.
  destruct (action_of X a) as [[| x order_a stored | |]|]; try done.
  apply bool_decide_eq_true in Hok as [-> ->]. by eexists _, _, _, _.
Qed.

(** In an execution of the two threads, a load of one thread that reads
    from a store of the other synchronizes with it: every such store is a
    release and every such load an acquire. *)
Lemma cross_thread_synchronizes X producer_loads consumer_loads s l :
  producer_actions Size producer_loads = Some (producer_trace X) →
  consumer_actions Size consumer_loads = Some (consumer_trace X) →
  reads_from_wf X →
  (is_Some (consumer_trace X !! l) →
   reads_from X (Consumer, l) = Some (Producer, s) →
   synchronizes_with X (Producer, s) (Consumer, l)) ∧
  (is_Some (producer_trace X !! l) →
   reads_from X (Producer, l) = Some (Consumer, s) →
   synchronizes_with X (Consumer, s) (Producer, l)).
Proof.
  intros Hp Hc Hwf. split; intros Hload Hin.
  - destruct (reads_from_wf_elem X _ (Consumer, l) Hwf Hload Hin)
      as (x & oa & ob & v & Ha & Hb).
    split; [done|]. exists x, oa, ob, v. split; [done|]. split; [done|].
    unfold action_of in Ha, Hb. simpl in Ha, Hb.
    pose proof (producer_orders _ _ s Hp) as Hs. rewrite Ha in Hs.
    destruct Hs as [-> ->].
    pose proof (consumer_orders _ _ l Hc) as Hl. rewrite Hb in Hl.
    by subst ob.
  - destruct (reads_from_wf_elem X _ (Producer, l) Hwf Hload Hin)
      as (x & oa & ob & v & Ha & Hb).
    split; [done|]. exists x, oa, ob, v. split; [done|]. split; [done|].
    unfold action_of in Ha, Hb. simpl in Ha, Hb.
    pose proof (consumer_orders _ _ s Hc) as Hs. rewrite Ha in Hs.
    destruct Hs as [-> ->].
    pose proof (producer_orders _ _ l Hp) as Hl. rewrite Hb in Hl.
    by subst ob.
Qed.

(** Sequenced before a release store, which an acquire load reads, which
    is sequenced before: happens before. *)
Lemma happens_before_through X a s l b :
  sequenced_before X a s → synchronizes_with X s l →
  sequenced_before X l b → happens_before X a b.
Proof.
  intros Has Hsl Hlb.
  eapply happens_before_trans; [by apply happens_before_sequenced|].
  eapply happens_before_trans; [by apply happens_before_synchronizes|].
  by apply happens_before_sequenced.
Qed.

(** The memory orders matter: a relaxed store synchronizes with nothing,
    and where nothing synchronizes nothing happens before anything in the
    other thread. *)
Lemma relaxed_store_no_synchronizes_with X a b x value :
  action_of X a = Some (AtomicStore x memory_order_relaxed value) →
  ¬ synchronizes_with X a b.
Proof.
  intros Ha (_ & y & oa & ob & v & Ha' & _ & Hrel & _).
  rewrite Ha in Ha'. by simplify_eq.
Qed.

Lemma happens_before_within_thread X :
  (∀ a b, ¬ synchronizes_with X a b) →
  ∀ a b, happens_before X a b → a.1 = b.1.
Proof.
  intros Hno a b Hab.
  induction Hab as [a b Hsb|a b Hsw|a b c _ IHab _ IHbc].
  - by destruct Hsb.
  - by destruct (Hno a b).
  - congruence.
Qed.

(** C8.  One producer thread calling [TryPush] and one consumer thread
    calling [TryPop], whatever their loads return.  The producer assigns
    slot [k] after an acquire load of [read_idx_] and before its release
    store of the advanced [write_idx_]; the consumer moves slot [k] out
    after an acquire load of [write_idx_] and before its release store of
    the advanced [read_idx_].  Hence: once a load of the consumer that
    comes before its read of slot [k] reads from a store of the producer
    that comes after the write of slot [k], the write happens before the
    read; and symmetrically, once a load of the producer that comes before
    its write of slot [k] reads from a store of the consumer that comes
    after the read of slot [k], the read happens before the write: the
    producer does not overwrite a slot the consumer is still reading. *)
Theorem release_acquire_happens_before
    (X : execution) (producer_loads consumer_loads : list (Z * Z)) :
  producer_actions Size producer_loads = Some (producer_trace X) →
  consumer_actions Size consumer_loads = Some (consumer_trace X) →
  reads_from_wf X →
  ∀ (w r : nat) (k : Z),
    producer_trace X !! w = Some (SlotAssign k) →
    consumer_trace X !! r = Some (SlotMoveOut k) →
    (∃ next,
       SizeT.rem (SizeT.add k 1) Size = Some next ∧
       producer_trace X !! S w =
         Some (AtomicStore WriteIdx memory_order_release next) ∧
       consumer_trace X !! S r =
         Some (AtomicStore ReadIdx memory_order_release next)) ∧
    (∃ seen,
       (1 ≤ r)%nat ∧ seen ≠ k ∧
       consumer_trace X !! pred r =
         Some (AtomicLoad WriteIdx memory_order_acquire seen)) ∧
    (∃ seen,
       (1 ≤ w)%nat ∧ SizeT.rem (SizeT.add k 1) Size ≠ Some seen ∧
       producer_trace X !! pred w =
         Some (AtomicLoad ReadIdx memory_order_acquire seen)) ∧
    (∀ s l : nat,
       (w < s)%nat → (l < r)%nat →
       reads_from X (Consumer, l) = Some (Producer, s) →
       happens_before X (Producer, w) (Consumer, r)) ∧
    (∀ s l : nat,
       (r < s)%nat → (l < w)%nat →
       reads_from X (Producer, l) = Some (Consumer, s) →
       happens_before X (Consumer, r) (Producer, w)).
Proof.
  intros Hp Hc Hwf w r k Hw Hr.
  destruct (producer_slot_assign _ _ _ _ Hp Hw)
    as (pseen & pnext & Hpnext & Hpne & _ & Hw1 & Hpload & Hpstore).
  destruct (consumer_slot_move_out _ _ _ _ Hc Hr)
    as (cseen & cnext & Hcnext & Hcne & _ & Hr1 & Hcload & Hcstore).
  assert (cnext = pnext) as -> by congruence.
  split; [by exists pnext|].
  split; [by exists cseen|].
  split; [exists pseen; split; [done|]; split; [|done]; congruence|].
  split; intros s l Hs Hl Hin.
  - assert (is_Some (consumer_trace X !! l)) as Hload
      by (apply lookup_lt_is_Some; apply lookup_lt_Some in Hr; lia).
    destruct (reads_from_wf_elem X _ (Consumer, l) Hwf Hload Hin)
      as (x & oa & ob & v & Ha & Hb).
    apply (happens_before_through X _ (Producer, s) (Consumer, l)).
    + split; [done|]. split; [done|]. by rewrite Ha.
    + by eapply cross_thread_synchronizes.
    + split; [done|]. split; [done|].
      unfold action_of; simpl. by rewrite Hr.
  - assert (is_Some (producer_trace X !! l)) as Hload
      by (apply lookup_lt_is_Some; apply lookup_lt_Some in Hw; lia).
    destruct (reads_from_wf_elem X _ (Producer, l) Hwf Hload Hin)
      as (x & oa & ob & v & Ha & Hb).
    apply (happens_before_through X _ (Consumer, s) (Producer, l)).
    + split; [done|]. split; [done|]. by rewrite Ha.
    + by eapply cross_thread_synchronizes.
    + split; [done|]. split; [done|].
      unfold action_of; simpl. by rewrite Hw.
Qed.

End ReleaseAcquire.

(** ** Worked instance: a buffer of two slots, three pushes and two pops *)

Lemma release_acquire_happens_before_witness :
  producer_actions 2 [(0, 0); (1, 1); (0, 0)]
    = Some (producer_trace two_slot_execution) ∧
  consumer_actions 2 [(0, 1); (1, 0)]
    = Some (consumer_trace two_slot_execution) ∧
  reads_from_wf two_slot_execution ∧
  happens_before two_slot_execution (Producer, 2%nat) (Consumer, 2%nat) ∧
  happens_before two_slot_execution (Consumer, 2%nat) (Producer, 10%nat).
Proof.
  assert (reads_from_wf two_slot_execution) as Hwf by reflexivity.
  split; [reflexivity|]. split; [reflexivity|]. split; [exact Hwf|].
  split.
  - destruct (release_acquire_happens_before 2 two_slot_execution
                [(0, 0); (1, 1); (0, 0)] [(0, 1); (1, 0)]
                eq_refl eq_refl Hwf 2%nat 2%nat 0 eq_refl eq_refl)
      as (_ & _ & _ & Hhb & _).
    apply (Hhb 3%nat 1%nat); [lia|lia|reflexivity].
  - destruct (release_acquire_happens_before 2 two_slot_execution
                [(0, 0); (1, 1); (0, 0)] [(0, 1); (1, 0)]
                eq_refl eq_refl Hwf 10%nat 2%nat 0 eq_refl eq_refl)
      as (_ & _ & _ & _ & Hhb).
    apply (Hhb 7%nat 9%nat); [lia|lia|reflexivity].
Defined.

(** * The slots are never accessed concurrently *)

(** ** Counting the stores of a thread *)

Lemma stores_before_S trace p :
  stores_before trace (S p) =
    (stores_before trace p +
     match trace !! p with
     | Some a => if is_store a then 1 else 0
     | None => 0
     end)%nat.
Proof.
  unfold stores_before. destruct (trace !! p) as [a|] eqn:Hp.
  - rewrite (take_S_r _ _ _ Hp), filter_app, length_app. f_equal.
    rewrite filter_cons, filter_nil. by destruct (is_store a).
  - apply lookup_ge_None in Hp. rewrite !take_ge by lia. lia.
Qed.

Lemma stores_before_mono trace p q :
  (p ≤ q)%nat → (stores_before trace p ≤ stores_before trace q)%nat.
Proof.
  induction 1 as [|q _ IH]; [done|]. rewrite stores_before_S. lia.
Qed.

Lemma stores_before_store trace p a :
  trace !! p = Some a → is_store a = true →
  stores_before trace (S p) = S (stores_before trace p).
Proof. intros Hp Ha. rewrite stores_before_S, Hp, Ha. lia. Qed.

Lemma stores_before_other trace p a :
  trace !! p = Some a → is_store a = false →
  stores_before trace (S p) = stores_before trace p.
Proof. intros Hp Ha. rewrite stores_before_S, Hp, Ha. lia. Qed.

Lemma stores_before_lt trace p q a :
  trace !! p = Some a → is_store a = true → (p < q)%nat →
  (stores_before trace p < stores_before trace q)%nat.
Proof.
  intros Hp Ha Hpq.
  pose proof (stores_before_mono trace (S p) q Hpq).
  rewrite (stores_before_store _ _ _ Hp Ha) in *. lia.
Qed.

(** The store number [n + 1], when there are more than [n] stores. *)
Lemma stores_before_find trace p n :
  (n < stores_before trace p)%nat →
  ∃ s a, (s < p)%nat ∧ trace !! s = Some a ∧ is_store a = true ∧
         stores_before trace s = n.
Proof.
  induction p as [|p IH]; intros Hn.
  { unfold stores_before in Hn. simpl in Hn. lia. }
  rewrite stores_before_S in Hn.
  destruct (decide (n < stores_before trace p)%nat) as [Hlt|Hge].
  { destruct (IH Hlt) as (s & a & ? & ? & ? & ?).
    exists s, a. repeat split; [lia|done..]. }
  destruct (trace !! p) as [a|] eqn:Hp; [|lia].
  destruct (is_store a) eqn:Ha; [|lia].
  exists p, a. repeat split; [lia|done|done|lia].
Qed.

(** After the last store before [p] there is one store more than before
    it. *)
Lemma stores_before_last trace p s a :
  trace !! s = Some a → is_store a = true → (s < p)%nat →
  (∀ s' a', (s' < p)%nat → trace !! s' = Some a' → is_store a' = true →
            (s' ≤ s)%nat) →
  stores_before trace p = S (stores_before trace s).
Proof.
  intros Hs Ha Hsp Hlast.
  pose proof (stores_before_lt _ _ _ _ Hs Ha Hsp) as Hlt.
  destruct (decide (S (stores_before trace s) < stores_before trace p)%nat)
    as [Hmore|]; [|lia].
  destruct (stores_before_find _ _ _ Hmore)
    as (s' & a' & Hs'p & Hs' & Ha' & Hn).
  pose proof (Hlast _ _ Hs'p Hs' Ha') as Hle.
  pose proof (stores_before_mono trace s' s Hle). lia.
Qed.

Lemma stores_before_none trace p :
  (∀ s a, (s < p)%nat → trace !! s = Some a → is_store a = false) →
  stores_before trace p = 0%nat.
Proof.
  intros Hnone.
  destruct (decide (0 < stores_before trace p)%nat) as [Hpos|]; [|lia].
  destruct (stores_before_find _ _ _ Hpos) as (s & a & Hsp & Hs & Ha & _).
  rewrite (Hnone _ _ Hsp Hs) in Ha. done.
Qed.

(** Stores are numbered in program order. *)
Lemma stores_before_order trace p q a b :
  trace !! p = Some a → is_store a = true →
  trace !! q = Some b → is_store b = true →
  (stores_before trace p < stores_before trace q)%nat → (p < q)%nat.
Proof.
  intros Hp Ha Hq Hb Hlt.
  destruct (decide (p < q)%nat) as [|Hge]; [done|].
  pose proof (stores_before_mono trace q p ltac:(lia)). lia.
Qed.

(** The loads and the slot access of a call do not count. *)
Lemma stores_before_call trace s a b :
  (2 ≤ s)%nat →
  trace !! (s - 2)%nat = Some a → is_store a = false →
  trace !! (s - 1)%nat = Some b → is_store b = false →
  stores_before trace s = stores_before trace (s - 2).
Proof.
  intros Hs Ha Hna Hb Hnb.
  replace s with (S (S (s - 2))) at 1 by lia.
  rewrite (stores_before_other _ (S (s - 2)) b);
    [|by replace (S (s - 2)) with (s - 1)%nat by lia|done].
  by rewrite (stores_before_other _ (s - 2)%nat a).
Qed.

Lemma stores_before_call3 trace s a b c :
  (3 ≤ s)%nat →
  trace !! (s - 3)%nat = Some a → is_store a = false →
  trace !! (s - 2)%nat = Some b → is_store b = false →
  trace !! (s - 1)%nat = Some c → is_store c = false →
  stores_before trace s = stores_before trace (s - 3).
Proof.
  intros Hs Ha Hna Hb Hnb Hc Hnc.
  rewrite (stores_before_call trace s b c) by (done || lia).
  replace (s - 2)%nat with (S (s - 3)) by lia.
  by rewrite (stores_before_other _ (s - 3)%nat a).
Qed.

(** ** What coherence gives *)

Lemma coherent_spec X t p q :
  coherent X = true → (p < q)%nat → coherent_at X t p q = true.
Proof.
  intros Hcoh Hpq.
  destruct (decide (q < length (thread_trace X t))%nat) as [Hq|Hq].
  - unfold coherent in Hcoh. rewrite forallb_forall in Hcoh.
    assert (In t [Producer; Consumer]) as Ht
      by (destruct t; simpl; tauto).
    apply Hcoh in Ht. rewrite forallb_forall in Ht.
    assert (In q (seq 0 (length (thread_trace X t)))) as Hq'
      by (apply in_seq; lia).
    apply Ht in Hq'. rewrite forallb_forall in Hq'.
    apply Hq', in_seq. lia.
  - unfold coherent_at.
    rewrite (proj2 (lookup_ge_None (thread_trace X t) q)) by lia.
    by destruct (thread_trace X t !! p) as [[]|].
Qed.

Lemma coherent_read_read X t p q x op vp oq vq :
  coherent X = true → (p < q)%nat →
  thread_trace X t !! p = Some (AtomicLoad x op vp) →
  thread_trace X t !! q = Some (AtomicLoad x oq vq) →
  mo_le (reads_from X (t, p)) (reads_from X (t, q)) = true.
Proof.
  intros Hcoh Hpq Hp Hq. pose proof (coherent_spec X t p q Hcoh Hpq) as H.
  unfold coherent_at in H. rewrite Hp, Hq in H. by rewrite decide_True in H.
Qed.

Lemma coherent_write_read X t p q x op vp oq vq :
  coherent X = true → (p < q)%nat →
  thread_trace X t !! p = Some (AtomicStore x op vp) →
  thread_trace X t !! q = Some (AtomicLoad x oq vq) →
  mo_le (Some (t, p)) (reads_from X (t, q)) = true.
Proof.
  intros Hcoh Hpq Hp Hq. pose proof (coherent_spec X t p q Hcoh Hpq) as H.
  unfold coherent_at in H. rewrite Hp, Hq in H. by rewrite decide_True in H.
Qed.

Lemma coherent_read_write X t p q x op vp oq vq :
  coherent X = true → (p < q)%nat →
  thread_trace X t !! p = Some (AtomicLoad x op vp) →
  thread_trace X t !! q = Some (AtomicStore x oq vq) →
  mo_lt (reads_from X (t, p)) (Some (t, q)) = true.
Proof.
  intros Hcoh Hpq Hp Hq. pose proof (coherent_spec X t p q Hcoh Hpq) as H.
  unfold coherent_at in H. rewrite Hp, Hq in H. by rewrite decide_True in H.
Qed.

Lemma mo_lt_Some t s t' s' :
  mo_lt (Some (t, s)) (Some (t', s')) = true → t = t' ∧ (s < s')%nat.
Proof.
  unfold mo_lt. intros [Ht Hs]%bool_decide_eq_true. simpl in Ht, Hs. done.
Qed.

Lemma mo_le_Some t s t' s' :
  mo_le (Some (t, s)) (Some (t', s')) = true → t = t' ∧ (s ≤ s')%nat.
Proof.
  unfold mo_le. intros [Heq|Hlt]%orb_true_iff.
  - apply bool_decide_eq_true in Heq. by simplify_eq.
  - apply mo_lt_Some in Hlt as [-> ?]. split; [done|lia].
Qed.

(** Later in the modification order, later in the count of stores. *)
Lemma mo_le_index X a b :
  mo_le a b = true → (mo_index X a ≤ mo_index X b)%nat.
Proof.
  destruct a as [[t s]|], b as [[t' s']|]; simpl; try lia.
  - intros [-> Hle]%mo_le_Some.
    pose proof (stores_before_mono (thread_trace X t') s s' Hle). lia.
  - unfold mo_le, mo_lt. by case_bool_decide.
Qed.

(** ** One thread and its own cursor

    A thread [t] that alone stores to the cursor [own], each store
    publishing the successor of what the thread loaded from [own] three
    accesses earlier: the shape of [TryPush] and of [TryPop]. *)

Section OwnCursor.

Variable Size : Z.
Variable X : execution.
Variable t : thread.
Variable own : cursor.

Hypothesis Hsize : valid_size Size.
Hypothesis Hconsistent : consistent X.

Hypothesis Hwriter : ∀ a x order value,
  action_of X a = Some (AtomicStore x order value) → x = own → a.1 = t.

Hypothesis Hcall : ∀ s x order value,
  thread_trace X t !! s = Some (AtomicStore x order value) →
  x = own ∧
  ∃ current order' check slot,
    (3 ≤ s)%nat ∧
    thread_trace X t !! (s - 3)%nat = Some (AtomicLoad own order' current) ∧
    thread_trace X t !! (s - 2)%nat = Some check ∧ is_store check = false ∧
    thread_trace X t !! (s - 1)%nat = Some slot ∧ is_store slot = false ∧
    0 ≤ current < Size ∧
    SizeT.rem (SizeT.add current 1) Size = Some value.

Lemma store_is_store a :
  is_store a = true → ∃ x order value, a = AtomicStore x order value.
Proof. destruct a; try done. eauto. Qed.

(** A load of the own cursor reads the last store before it, or the
    initial value if there is none. *)
Lemma own_load_source p order current :
  thread_trace X t !! p = Some (AtomicLoad own order current) →
  (reads_from X (t, p) = None ∧ current = 0 ∧
   stores_before (thread_trace X t) p = 0%nat) ∨
  (∃ s order', (s < p)%nat ∧ reads_from X (t, p) = Some (t, s) ∧
     thread_trace X t !! s = Some (AtomicStore own order' current) ∧
     stores_before (thread_trace X t) p =
       S (stores_before (thread_trace X t) s)).
Proof.
  intros Hp. destruct Hconsistent as [Hwf Hcoh].
  assert (is_Some (action_of X (t, p))) as Hsome
    by (unfold action_of; simpl; by rewrite Hp).
  pose proof (reads_from_wf_at _ _ Hwf Hsome) as Hok.
  unfold reads_from_ok, action_of in Hok. simpl in Hok. rewrite Hp in Hok.
  destruct (reads_from X (t, p)) as [[t' s]|] eqn:Hrf.
  - right. simpl in Hok.
    destruct (thread_trace X t' !! s) as [[|x order' stored| |]|] eqn:Hs;
      try done.
    apply bool_decide_eq_true in Hok as [<- ->].
    assert (t' = t) as -> by (by apply (Hwriter (t', s) _ _ _ Hs)).
    assert (s < p)%nat as Hsp.
    { destruct (decide (s < p)%nat) as [|Hge]; [done|].
      assert (s ≠ p) by (intros ->; by simplify_eq).
      assert (p < s)%nat as Hps by lia.
      pose proof (coherent_read_write _ _ _ _ _ _ _ _ _ Hcoh Hps Hp Hs) as H'.
      rewrite Hrf in H'. apply mo_lt_Some in H'. lia. }
    exists s, order'. split; [done|]. split; [done|]. split; [done|].
    apply (stores_before_last _ _ _ _ Hs eq_refl Hsp).
    intros s' a' Hs'p Hs' Ha'.
    apply store_is_store in Ha' as (x' & o' & v' & ->).
    destruct (Hcall _ _ _ _ Hs') as [-> _].
    pose proof (coherent_write_read _ _ _ _ _ _ _ _ _ Hcoh Hs'p Hs' Hp) as H'.
    rewrite Hrf in H'. by apply mo_le_Some in H' as [_ ?].
  - left. split; [done|]. apply bool_decide_eq_true in Hok.
    split; [done|]. apply stores_before_none. intros s a Hsp Hs.
    destruct (is_store a) eqn:Ha; [|done].
    apply store_is_store in Ha as (x' & o' & v' & ->).
    destruct (Hcall _ _ _ _ Hs) as [-> _].
    pose proof (coherent_write_read _ _ _ _ _ _ _ _ _ Hcoh Hsp Hs Hp) as H'.
    rewrite Hrf in H'. unfold mo_le, mo_lt in H'. by case_bool_decide.
Qed.

Lemma successor_mod (n : nat) :
  (Z.of_nat n `mod` Size + 1) `mod` Size = Z.of_nat (S n) `mod` Size.
Proof.
  rewrite Nat2Z.inj_succ, Z.add_mod_idemp_l by (unfold valid_size in *; lia).
  by rewrite <- Z.add_1_r.
Qed.

(** The cursor a thread loads counts its stores, modulo [Size]. *)
Lemma own_load_value p order current :
  thread_trace X t !! p = Some (AtomicLoad own order current) →
  current = Z.of_nat (stores_before (thread_trace X t) p) `mod` Size.
Proof.
  revert order current. induction p as [p IH] using lt_wf_ind.
  intros order current Hp.
  destruct (own_load_source _ _ _ Hp)
    as [(_ & -> & ->)|(s & order' & Hsp & _ & Hs & ->)].
  { rewrite Z.mod_0_l; [done|]. unfold valid_size in *. lia. }
  destruct (Hcall _ _ _ _ Hs)
    as (_ & prev & o1 & a2 & a3 & Hs3 & Hl & Ha2 & Hn2 & Ha3 & Hn3
        & Hrange & Hnext).
  rewrite (next_cursor Size prev Hsize Hrange) in Hnext. simplify_eq.
  rewrite (IH (s - 3)%nat ltac:(lia) _ _ Hl).
  rewrite (stores_before_call3 _ s _ a2 a3 Hs3 Hl eq_refl Ha2 Hn2 Ha3 Hn3).
  apply successor_mod.
Qed.

(** The [n]-th store of a thread stores [n] modulo [Size]. *)
Lemma store_value s x order value :
  thread_trace X t !! s = Some (AtomicStore x order value) →
  value = Z.of_nat (S (stores_before (thread_trace X t) s)) `mod` Size.
Proof.
  intros Hs.
  destruct (Hcall _ _ _ _ Hs)
    as (_ & prev & o1 & a2 & a3 & Hs3 & Hl & Ha2 & Hn2 & Ha3 & Hn3
        & Hrange & Hnext).
  rewrite (next_cursor Size prev Hsize Hrange) in Hnext. simplify_eq.
  rewrite (own_load_value _ _ _ Hl).
  rewrite (stores_before_call3 _ s _ a2 a3 Hs3 Hl eq_refl Ha2 Hn2 Ha3 Hn3).
  apply successor_mod.
Qed.

End OwnCursor.

(** ** The two threads of the buffer *)

Section SlotsOrdered.

Variable Size : Z.
Variable X : execution.
Variable producer_loads : list (Z * Z).
Variable consumer_loads : list (Z * Z).

Hypothesis Hsize : valid_size Size.
Hypothesis Hproducer :
  producer_actions Size producer_loads = Some (producer_trace X).
Hypothesis Hconsumer :
  consumer_actions Size consumer_loads = Some (consumer_trace X).
Hypothesis Hconsistent : consistent X.

(** The call around a store of the producer. *)
Lemma producer_store_call s x order value :
  producer_trace X !! s = Some (AtomicStore x order value) →
  x = WriteIdx ∧
  ∃ current seen,
    (3 ≤ s)%nat ∧
    producer_trace X !! (s - 3)%nat =
      Some (AtomicLoad WriteIdx memory_order_relaxed current) ∧
    producer_trace X !! (s - 2)%nat =
      Some (AtomicLoad ReadIdx memory_order_acquire seen) ∧
    producer_trace X !! (s - 1)%nat = Some (SlotAssign current) ∧
    0 ≤ current < Size ∧
    SizeT.rem (SizeT.add current 1) Size = Some value ∧
    value ≠ seen.
Proof.
  intros Hs.
  destruct (calls_actions_lookup _ _ _ _ _ Hproducer Hs)
    as (cw & rd & actions & before & after & j & Hcall & Htrace & -> & Hj).
  rewrite Htrace. clear Htrace.
  unfold TryPush_actions in Hcall.
  destruct (SizeT.rem (SizeT.add cw 1) Size) as [next|] eqn:Hnext; [|done].
  simpl in Hcall. repeat case_decide; simplify_eq.
  - by destruct j as [|[|[|]]].
  - destruct j as [|[|[|[|[|]]]]]; simpl in Hj; simplify_eq.
    split; [done|]. exists cw, rd. split; [lia|].
    replace (length before + 3 - 3)%nat with (length before + 0)%nat by lia.
    replace (length before + 3 - 2)%nat with (length before + 1)%nat by lia.
    replace (length before + 3 - 1)%nat with (length before + 2)%nat by lia.
    rewrite !lookup_in_call by (simpl; lia). done.
Qed.

(** The call around a store of the consumer. *)
Lemma consumer_store_call s x order value :
  consumer_trace X !! s = Some (AtomicStore x order value) →
  x = ReadIdx ∧
  ∃ current seen,
    (3 ≤ s)%nat ∧
    consumer_trace X !! (s - 3)%nat =
      Some (AtomicLoad ReadIdx memory_order_relaxed current) ∧
    consumer_trace X !! (s - 2)%nat =
      Some (AtomicLoad WriteIdx memory_order_acquire seen) ∧
    consumer_trace X !! (s - 1)%nat = Some (SlotMoveOut current) ∧
    0 ≤ current < Size ∧
    SizeT.rem (SizeT.add current 1) Size = Some value ∧
    current ≠ seen.
Proof.
  intros Hs.
  destruct (calls_actions_lookup _ _ _ _ _ Hconsumer Hs)
    as (cr & wr & actions & before & after & j & Hcall & Htrace & -> & Hj).
  rewrite Htrace. clear Htrace.
  unfold TryPop_actions in Hcall.
  repeat case_decide; simplify_eq.
  - by destruct j as [|[|[|]]].
  - destruct (SizeT.rem (SizeT.add cr 1) Size) as [next|] eqn:Hnext; [|done].
    simpl in Hcall. simplify_eq.
    destruct j as [|[|[|[|[|]]]]]; simpl in Hj; simplify_eq.
    split; [done|]. exists cr, wr. split; [lia|].
    replace (length before + 3 - 3)%nat with (length before + 0)%nat by lia.
    replace (length before + 3 - 2)%nat with (length before + 1)%nat by lia.
    replace (length before + 3 - 1)%nat with (length before + 2)%nat by lia.
    rewrite !lookup_in_call by (simpl; lia). done.
Qed.

(** The call around a slot access. *)
Lemma producer_slot_call w k :
  producer_trace X !! w = Some (SlotAssign k) →
  ∃ order value,
    producer_trace X !! S w = Some (AtomicStore WriteIdx order value).
Proof.
  intros Hw.
  destruct (producer_slot_assign _ _ _ _ _ Hproducer Hw)
    as (seen & next & _ & _ & _ & _ & _ & Hstore).
  eauto.
Qed.

Lemma consumer_slot_call r k :
  consumer_trace X !! r = Some (SlotMoveOut k) →
  ∃ order value,
    consumer_trace X !! S r = Some (AtomicStore ReadIdx order value).
Proof.
  intros Hr.
  destruct (consumer_slot_move_out _ _ _ _ _ Hconsumer Hr)
    as (seen & next & _ & _ & _ & _ & _ & Hstore).
  eauto.
Qed.

(** Who stores to which cursor. *)
Lemma write_idx_writer a x order value :
  action_of X a = Some (AtomicStore x order value) →
  x = WriteIdx → a.1 = Producer.
Proof.
  destruct a as [[] s]; [done|]. unfold action_of. simpl. intros Hs ->.
  by destruct (consumer_store_call _ _ _ _ Hs).
Qed.

Lemma read_idx_writer a x order value :
  action_of X a = Some (AtomicStore x order value) →
  x = ReadIdx → a.1 = Consumer.
Proof.
  destruct a as [[] s]; [|done]. unfold action_of. simpl. intros Hs ->.
  by destruct (producer_store_call _ _ _ _ Hs).
Qed.

Lemma producer_own_call s x order value :
  thread_trace X Producer !! s = Some (AtomicStore x order value) →
  x = WriteIdx ∧
  ∃ current order' check slot,
    (3 ≤ s)%nat ∧
    thread_trace X Producer !! (s - 3)%nat =
      Some (AtomicLoad WriteIdx order' current) ∧
    thread_trace X Producer !! (s - 2)%nat = Some check ∧
    is_store check = false ∧
    thread_trace X Producer !! (s - 1)%nat = Some slot ∧
    is_store slot = false ∧
    0 ≤ current < Size ∧
    SizeT.rem (SizeT.add current 1) Size = Some value.
Proof.
  intros Hs. destruct (producer_store_call _ _ _ _ Hs)
    as (-> & cw & seen & ? & ? & ? & ? & ? & ? & _).
  split; [done|]. by eexists _, _, _, _.
Qed.

Lemma consumer_own_call s x order value :
  thread_trace X Consumer !! s = Some (AtomicStore x order value) →
  x = ReadIdx ∧
  ∃ current order' check slot,
    (3 ≤ s)%nat ∧
    thread_trace X Consumer !! (s - 3)%nat =
      Some (AtomicLoad ReadIdx order' current) ∧
    thread_trace X Consumer !! (s - 2)%nat = Some check ∧
    is_store check = false ∧
    thread_trace X Consumer !! (s - 1)%nat = Some slot ∧
    is_store slot = false ∧
    0 ≤ current < Size ∧
    SizeT.rem (SizeT.add current 1) Size = Some value.
Proof.
  intros Hs. destruct (consumer_store_call _ _ _ _ Hs)
    as (-> & cw & seen & ? & ? & ? & ? & ? & ? & _).
  split; [done|]. by eexists _, _, _, _.
Qed.

(** The cursors count the calls that returned true. *)
Lemma producer_current_write p order current :
  producer_trace X !! p = Some (AtomicLoad WriteIdx order current) →
  current = Z.of_nat (stores_before (producer_trace X) p) `mod` Size.
Proof.
  apply (own_load_value Size X Producer WriteIdx Hsize Hconsistent
           write_idx_writer producer_own_call).
Qed.

Lemma consumer_current_read p order current :
  consumer_trace X !! p = Some (AtomicLoad ReadIdx order current) →
  current = Z.of_nat (stores_before (consumer_trace X) p) `mod` Size.
Proof.
  apply (own_load_value Size X Consumer ReadIdx Hsize Hconsistent
           read_idx_writer consumer_own_call).
Qed.

Lemma producer_store_value s x order value :
  producer_trace X !! s = Some (AtomicStore x order value) →
  value = Z.of_nat (S (stores_before (producer_trace X) s)) `mod` Size.
Proof.
  apply (store_value Size X Producer WriteIdx Hsize Hconsistent
           write_idx_writer producer_own_call).
Qed.

Lemma consumer_store_value s x order value :
  consumer_trace X !! s = Some (AtomicStore x order value) →
  value = Z.of_nat (S (stores_before (consumer_trace X) s)) `mod` Size.
Proof.
  apply (store_value Size X Consumer ReadIdx Hsize Hconsistent
           read_idx_writer consumer_own_call).
Qed.

(** What a thread reads from the other thread's cursor counts the calls
    of the other thread that it has seen return true. *)
Lemma producer_seen_value l order seen :
  producer_trace X !! l = Some (AtomicLoad ReadIdx order seen) →
  seen = Z.of_nat (mo_index X (reads_from X (Producer, l))) `mod` Size.
Proof.
  intros Hl. destruct Hconsistent as [Hwf _].
  assert (is_Some (action_of X (Producer, l))) as Hsome
    by (unfold action_of; simpl; by rewrite Hl).
  pose proof (reads_from_wf_at _ _ Hwf Hsome) as Hok.
  unfold reads_from_ok, action_of in Hok. simpl in Hok. rewrite Hl in Hok.
  destruct (reads_from X (Producer, l)) as [[t s]|] eqn:Hrf; simpl in *.
  - destruct (thread_trace X t !! s) as [[|x order' stored| |]|] eqn:Hs;
      try done.
    apply bool_decide_eq_true in Hok as [<- ->].
    assert (t = Consumer) as ->
      by (by apply (read_idx_writer (t, s) _ _ _ Hs)).
    by apply consumer_store_value in Hs.
  - apply bool_decide_eq_true in Hok as ->.
    rewrite Z.mod_0_l; [done|]. unfold valid_size in *. lia.
Qed.

Lemma consumer_seen_value l order seen :
  consumer_trace X !! l = Some (AtomicLoad WriteIdx order seen) →
  seen = Z.of_nat (mo_index X (reads_from X (Consumer, l))) `mod` Size.
Proof.
  intros Hl. destruct Hconsistent as [Hwf _].
  assert (is_Some (action_of X (Consumer, l))) as Hsome
    by (unfold action_of; simpl; by rewrite Hl).
  pose proof (reads_from_wf_at _ _ Hwf Hsome) as Hok.
  unfold reads_from_ok, action_of in Hok. simpl in Hok. rewrite Hl in Hok.
  destruct (reads_from X (Consumer, l)) as [[t s]|] eqn:Hrf; simpl in *.
  - destruct (thread_trace X t !! s) as [[|x order' stored| |]|] eqn:Hs;
      try done.
    apply bool_decide_eq_true in Hok as [<- ->].
    assert (t = Producer) as ->
      by (by apply (write_idx_writer (t, s) _ _ _ Hs)).
    by apply producer_store_value in Hs.
  - apply bool_decide_eq_true in Hok as ->.
    rewrite Z.mod_0_l; [done|]. unfold valid_size in *. lia.
Qed.

Lemma mod_differs (a b : Z) :
  a `mod` Size ≠ b `mod` Size → a ≠ b + Size ∧ a ≠ b.
Proof.
  intros Hne. split; intros ->; apply Hne; [|done].
  rewrite <- (Z_mod_plus_full b 1 Size). by rewrite Z.mul_1_l.
Qed.

(** The consumer never sees fewer pushes than it has made pops. *)
Lemma consumer_check l order seen :
  consumer_trace X !! l = Some (AtomicLoad WriteIdx order seen) →
  (stores_before (consumer_trace X) l
   ≤ mo_index X (reads_from X (Consumer, l)))%nat.
Proof.
  revert order seen. induction l as [l IH] using lt_wf_ind.
  intros order seen Hl.
  destruct (decide (0 < stores_before (consumer_trace X) l)%nat)
    as [Hpos|]; [|lia].
  destruct (stores_before_find (consumer_trace X) l
              (stores_before (consumer_trace X) l - 1) ltac:(lia))
    as (s & a & Hsl & Hs & Ha & Hn).
  apply store_is_store in Ha as (x & o & v & ->).
  destruct (consumer_store_call _ _ _ _ Hs)
    as (_ & cr & seen' & Hs3 & Hown & Hload & Hslot & Hrange & Hnext & Hne).
  pose proof (IH (s - 2)%nat ltac:(lia) _ _ Hload) as Hprev.
  pose proof (consumer_seen_value _ _ _ Hload) as Hseen.
  pose proof (consumer_current_read _ _ _ Hown) as Hcr.
  assert (stores_before (consumer_trace X) s
          = stores_before (consumer_trace X) (s - 2)) as Heq
    by (eapply (stores_before_call _ s); [lia|exact Hload|done
                                             |exact Hslot|done]).
  assert (stores_before (consumer_trace X) (s - 2)
          = stores_before (consumer_trace X) (s - 3)) as Heq'.
  { replace (s - 2)%nat with (S (s - 3)) by lia.
    by rewrite (stores_before_other _ (s - 3)%nat _ Hown). }
  rewrite Hcr, Hseen, <- Heq' in Hne. apply mod_differs in Hne as [_ Hne].
  assert (s - 2 < l)%nat as Hlt by lia.
  pose proof (coherent_read_read X Consumer _ _ _ _ _ _ _
                (proj2 Hconsistent) Hlt Hload Hl) as Hrr.
  apply (mo_le_index X) in Hrr. lia.
Qed.

(** The producer never sees fewer pops than would leave room for the
    pushes it has made. *)
Lemma producer_check l order seen :
  producer_trace X !! l = Some (AtomicLoad ReadIdx order seen) →
  Z.of_nat (stores_before (producer_trace X) l) + 1
  ≤ Z.of_nat (mo_index X (reads_from X (Producer, l))) + Size.
Proof.
  revert order seen. induction l as [l IH] using lt_wf_ind.
  intros order seen Hl.
  destruct (decide (0 < stores_before (producer_trace X) l)%nat)
    as [Hpos|]; [|unfold valid_size in *; lia].
  destruct (stores_before_find (producer_trace X) l
              (stores_before (producer_trace X) l - 1) ltac:(lia))
    as (s & a & Hsl & Hs & Ha & Hn).
  apply store_is_store in Ha as (x & o & v & ->).
  destruct (producer_store_call _ _ _ _ Hs)
    as (_ & cw & seen' & Hs3 & Hown & Hload & Hslot & Hrange & Hnext & Hne).
  pose proof (IH (s - 2)%nat ltac:(lia) _ _ Hload) as Hprev.
  pose proof (producer_seen_value _ _ _ Hload) as Hseen.
  pose proof (producer_store_value _ _ _ _ Hs) as Hv.
  assert (stores_before (producer_trace X) s
          = stores_before (producer_trace X) (s - 2)) as Heq
    by (eapply (stores_before_call _ s); [lia|exact Hload|done
                                             |exact Hslot|done]).
  rewrite Hv, Hseen in Hne. apply mod_differs in Hne as [Hne _].
  assert (s - 2 < l)%nat as Hlt by lia.
  pose proof (coherent_read_read X Producer _ _ _ _ _ _ _
                (proj2 Hconsistent) Hlt Hload Hl) as Hrr.
  apply (mo_le_index X) in Hrr. lia.
Qed.

(** A successful pop has seen more pushes than pops were made. *)
Lemma consumer_slot_seen r k :
  consumer_trace X !! r = Some (SlotMoveOut k) →
  (1 ≤ r)%nat ∧
  k = Z.of_nat (stores_before (consumer_trace X) r) `mod` Size ∧
  (stores_before (consumer_trace X) r
   < mo_index X (reads_from X (Consumer, (r - 1)%nat)))%nat.
Proof.
  intros Hr. destruct (consumer_slot_call _ _ Hr) as (o & v & Hs).
  destruct (consumer_store_call _ _ _ _ Hs)
    as (_ & cr & seen & Hs3 & Hown & Hload & Hslot & Hrange & Hnext & Hne).
  replace (S r - 1)%nat with r in Hslot by lia.
  replace (S r - 2)%nat with (r - 1)%nat in Hload by lia.
  replace (S r - 3)%nat with (r - 2)%nat in Hown by lia.
  rewrite Hr in Hslot. simplify_eq.
  pose proof (consumer_check _ _ _ Hload) as Hle.
  pose proof (consumer_seen_value _ _ _ Hload) as Hseen.
  pose proof (consumer_current_read _ _ _ Hown) as Hcr.
  assert (stores_before (consumer_trace X) r
          = stores_before (consumer_trace X) (r - 1)) as Heq.
  { replace r with (S (r - 1)) at 1 by lia.
    by rewrite (stores_before_other _ (r - 1)%nat _ Hload). }
  assert (stores_before (consumer_trace X) (r - 1)
          = stores_before (consumer_trace X) (r - 2)) as Heq'.
  { replace (r - 1)%nat with (S (r - 2)) by lia.
    by rewrite (stores_before_other _ (r - 2)%nat _ Hown). }
  split; [lia|]. split; [by rewrite Heq, Heq'|].
  rewrite Hcr, Hseen, <- Heq' in Hne. apply mod_differs in Hne as [_ Hne].
  lia.
Qed.

(** A successful push has seen enough pops for its slot to be free. *)
Lemma producer_slot_seen w k :
  producer_trace X !! w = Some (SlotAssign k) →
  (1 ≤ w)%nat ∧
  k = Z.of_nat (stores_before (producer_trace X) w) `mod` Size ∧
  Z.of_nat (stores_before (producer_trace X) w) + 2
  ≤ Z.of_nat (mo_index X (reads_from X (Producer, (w - 1)%nat))) + Size.
Proof.
  intros Hw. destruct (producer_slot_call _ _ Hw) as (o & v & Hs).
  destruct (producer_store_call _ _ _ _ Hs)
    as (_ & cw & seen & Hs3 & Hown & Hload & Hslot & Hrange & Hnext & Hne).
  replace (S w - 1)%nat with w in Hslot by lia.
  replace (S w - 2)%nat with (w - 1)%nat in Hload by lia.
  replace (S w - 3)%nat with (w - 2)%nat in Hown by lia.
  rewrite Hw in Hslot. simplify_eq.
  pose proof (producer_check _ _ _ Hload) as Hle.
  pose proof (producer_seen_value _ _ _ Hload) as Hseen.
  pose proof (producer_current_write _ _ _ Hown) as Hcw.
  pose proof (producer_store_value _ _ _ _ Hs) as Hv.
  rewrite (stores_before_other _ w _ Hw eq_refl) in Hv.
  assert (stores_before (producer_trace X) w
          = stores_before (producer_trace X) (w - 1)) as Heq.
  { replace w with (S (w - 1)) at 1 by lia.
    by rewrite (stores_before_other _ (w - 1)%nat _ Hload). }
  assert (stores_before (producer_trace X) (w - 1)
          = stores_before (producer_trace X) (w - 2)) as Heq'.
  { replace (w - 1)%nat with (S (w - 2)) by lia.
    by rewrite (stores_before_other _ (w - 2)%nat _ Hown). }
  split; [lia|]. split; [by rewrite Heq, Heq'|].
  rewrite Hv, Hseen in Hne. apply mod_differs in Hne as [Hne _].
  lia.
Qed.

(** The store a check has seen, when it has not seen the initial
    value. *)
Lemma consumer_seen_store l order seen :
  consumer_trace X !! l = Some (AtomicLoad WriteIdx order seen) →
  (0 < mo_index X (reads_from X (Consumer, l)))%nat →
  ∃ s a,
    reads_from X (Consumer, l) = Some (Producer, s) ∧
    producer_trace X !! s = Some a ∧ is_store a = true ∧
    mo_index X (reads_from X (Consumer, l))
      = S (stores_before (producer_trace X) s).
Proof.
  intros Hl Hpos. destruct Hconsistent as [Hwf _].
  destruct (reads_from X (Consumer, l)) as [[t s]|] eqn:Hrf;
    [|simpl in Hpos; lia].
  assert (is_Some (action_of X (Consumer, l))) as Hsome
    by (unfold action_of; simpl; by rewrite Hl).
  destruct (reads_from_wf_elem X (t, s) (Consumer, l) Hwf Hsome Hrf)
    as (x & oa & ob & v & Ha & Hb).
  unfold action_of in Hb. simpl in Hb. rewrite Hl in Hb. simplify_eq.
  assert (t = Producer) as ->
    by (by apply (write_idx_writer (t, s) _ _ _ Ha)).
  by exists s, (AtomicStore WriteIdx oa v).
Qed.

Lemma producer_seen_store l order seen :
  producer_trace X !! l = Some (AtomicLoad ReadIdx order seen) →
  (0 < mo_index X (reads_from X (Producer, l)))%nat →
  ∃ s a,
    reads_from X (Producer, l) = Some (Consumer, s) ∧
    consumer_trace X !! s = Some a ∧ is_store a = true ∧
    mo_index X (reads_from X (Producer, l))
      = S (stores_before (consumer_trace X) s).
Proof.
  intros Hl Hpos. destruct Hconsistent as [Hwf _].
  destruct (reads_from X (Producer, l)) as [[t s]|] eqn:Hrf;
    [|simpl in Hpos; lia].
  assert (is_Some (action_of X (Producer, l))) as Hsome
    by (unfold action_of; simpl; by rewrite Hl).
  destruct (reads_from_wf_elem X (t, s) (Producer, l) Hwf Hsome Hrf)
    as (x & oa & ob & v & Ha & Hb).
  unfold action_of in Hb. simpl in Hb. rewrite Hl in Hb. simplify_eq.
  assert (t = Consumer) as ->
    by (by apply (read_idx_writer (t, s) _ _ _ Ha)).
  by exists s, (AtomicStore ReadIdx oa v).
Qed.

Lemma producer_before_consumer w s l r :
  (w < s)%nat → (l < r)%nat →
  is_Some (consumer_trace X !! r) →
  reads_from X (Consumer, l) = Some (Producer, s) →
  happens_before X (Producer, w) (Consumer, r).
Proof.
  intros Hws Hlr Hr Hrf. destruct Hconsistent as [Hwf _].
  assert (is_Some (consumer_trace X !! l)) as Hl.
  { apply lookup_lt_is_Some. apply lookup_lt_is_Some in Hr. lia. }
  destruct (reads_from_wf_elem X _ (Consumer, l) Hwf Hl Hrf)
    as (x & oa & ob & v & Ha & Hb).
  apply (happens_before_through X _ (Producer, s) (Consumer, l)).
  - split; [done|]. split; [done|]. by rewrite Ha.
  - by eapply cross_thread_synchronizes.
  - by split.
Qed.

Lemma consumer_before_producer r s l w :
  (r < s)%nat → (l < w)%nat →
  is_Some (producer_trace X !! w) →
  reads_from X (Producer, l) = Some (Consumer, s) →
  happens_before X (Consumer, r) (Producer, w).
Proof.
  intros Hrs Hlw Hw Hrf. destruct Hconsistent as [Hwf _].
  assert (is_Some (producer_trace X !! l)) as Hl.
  { apply lookup_lt_is_Some. apply lookup_lt_is_Some in Hw. lia. }
  destruct (reads_from_wf_elem X _ (Producer, l) Hwf Hl Hrf)
    as (x & oa & ob & v & Ha & Hb).
  apply (happens_before_through X _ (Consumer, s) (Producer, l)).
  - split; [done|]. split; [done|]. by rewrite Ha.
  - by eapply cross_thread_synchronizes.
  - by split.
Qed.

Lemma stores_before_find_le trace b a n :
  trace !! b = Some a → is_store a = true →
  (n ≤ stores_before trace b)%nat →
  ∃ s a', (s ≤ b)%nat ∧ trace !! s = Some a' ∧ is_store a' = true ∧
          stores_before trace s = n.
Proof.
  intros Hb Ha Hn.
  destruct (decide (n = stores_before trace b)) as [->|Hne].
  { by exists b, a. }
  destruct (stores_before_find trace b n) as (s & a' & ? & ? & ? & ?);
    [lia|].
  exists s, a'. repeat split; [lia|done..].
Qed.

Lemma same_slot_gap (m n : nat) :
  (n < m)%nat →
  Z.of_nat m `mod` Size = Z.of_nat n `mod` Size →
  Z.of_nat n + Size ≤ Z.of_nat m.
Proof.
  intros Hnm Hmod. unfold valid_size in Hsize.
  destruct (decide (Z.of_nat n + Size ≤ Z.of_nat m)) as [|Hlt]; [done|].
  assert ((Z.of_nat m - Z.of_nat n) `mod` Size = 0) as Hzero.
  { rewrite Zminus_mod, Hmod, Z.sub_diag. apply Z.mod_0_l. lia. }
  rewrite Z.mod_small in Hzero by lia. lia.
Qed.

(** The slot a store publishes. *)
Lemma producer_store_slot s a :
  producer_trace X !! s = Some a → is_store a = true →
  (1 ≤ s)%nat ∧
  producer_trace X !! (s - 1)%nat =
    Some (SlotAssign
            (Z.of_nat (stores_before (producer_trace X) s) `mod` Size)) ∧
  stores_before (producer_trace X) (s - 1)
    = stores_before (producer_trace X) s.
Proof.
  intros Hs Ha. apply store_is_store in Ha as (x & o & v & ->).
  destruct (producer_store_call _ _ _ _ Hs)
    as (_ & cw & seen & Hs3 & _ & _ & Hslot & _).
  destruct (producer_slot_seen _ _ Hslot) as (_ & Hk & _).
  assert (stores_before (producer_trace X) s
          = stores_before (producer_trace X) (s - 1)) as Heq.
  { replace s with (S (s - 1)) at 1 by lia.
    by rewrite (stores_before_other _ (s - 1)%nat _ Hslot). }
  split; [lia|]. by rewrite Heq, <- Hk.
Qed.

(** X21.  Every slot access of the one thread is ordered by
    happens-before with every access of the other thread to the same slot,
    in every execution that the coherence of the two cursors allows,
    whatever the loads return.  The pop number [n] reads the slot that the
    push number [n] wrote, after it; a push and a pop on the same slot are
    ordered by their numbers: the push first if it is not the later one,
    the pop first otherwise. *)
Theorem slot_accesses_ordered :
  (∀ r k,
     consumer_trace X !! r = Some (SlotMoveOut k) →
     ∃ w,
       producer_trace X !! w = Some (SlotAssign k) ∧
       stores_before (producer_trace X) w
         = stores_before (consumer_trace X) r ∧
       happens_before X (Producer, w) (Consumer, r)) ∧
  (∀ w r k,
     producer_trace X !! w = Some (SlotAssign k) →
     consumer_trace X !! r = Some (SlotMoveOut k) →
     ((stores_before (producer_trace X) w
       ≤ stores_before (consumer_trace X) r)%nat →
      happens_before X (Producer, w) (Consumer, r)) ∧
     ((stores_before (consumer_trace X) r
       < stores_before (producer_trace X) w)%nat →
      happens_before X (Consumer, r) (Producer, w))).
Proof.
  assert (∀ r k,
            consumer_trace X !! r = Some (SlotMoveOut k) →
            ∃ s a,
              (stores_before (consumer_trace X) r
               ≤ stores_before (producer_trace X) s)%nat ∧
              producer_trace X !! s = Some a ∧ is_store a = true ∧
              ∀ w, (w < s)%nat →
                   happens_before X (Producer, w) (Consumer, r))
    as Hseen.
  { intros r k Hr.
    destruct (consumer_slot_seen _ _ Hr) as (Hr1 & _ & Hlt).
    destruct (consumer_slot_move_out _ _ _ _ _ Hconsumer Hr)
      as (seen & next & _ & _ & _ & _ & Hload & _).
    replace (pred r) with (r - 1)%nat in Hload by lia.
    destruct (consumer_seen_store _ _ _ Hload)
      as (s & a & Hrf & Hs & Ha & Hidx); [lia|].
    exists s, a. split; [lia|]. split; [done|]. split; [done|].
    intros w Hws.
    apply (producer_before_consumer w s (r - 1)%nat r);
      [done|lia|by rewrite Hr|done]. }
  split.
  - intros r k Hr.
    destruct (Hseen _ _ Hr) as (s & a & Hle & Hs & Ha & Hhb).
    destruct (consumer_slot_seen _ _ Hr) as (_ & -> & _).
    destruct (stores_before_find_le _ _ _ _ Hs Ha Hle)
      as (s' & a' & Hs's & Hs' & Ha' & Hn).
    destruct (producer_store_slot _ _ Hs' Ha') as (Hs1 & Hslot & Heq).
    exists (s' - 1)%nat. rewrite Hn in Hslot.
    split; [done|]. split; [lia|]. apply Hhb. lia.
  - intros w r k Hw Hr. split; intros Horder.
    + destruct (Hseen _ _ Hr) as (s & a & Hle & Hs & Ha & Hhb).
      apply Hhb. destruct (decide (w < s)%nat) as [|Hge]; [done|].
      assert (s ≠ w) by (intros ->; by simplify_eq).
      pose proof (stores_before_lt _ s w _ Hs Ha). lia.
    + destruct (producer_slot_seen _ _ Hw) as (Hw1 & Hkw & Hroom).
      destruct (consumer_slot_seen _ _ Hr) as (_ & Hkr & _).
      pose proof (same_slot_gap _ _ Horder) as Hgap.
      rewrite <- Hkw, <- Hkr in Hgap. specialize (Hgap eq_refl).
      destruct (producer_slot_assign _ _ _ _ _ Hproducer Hw)
        as (seen & next & _ & _ & _ & _ & Hload & _).
      replace (pred w) with (w - 1)%nat in Hload by lia.
      destruct (producer_seen_store _ _ _ Hload)
        as (s & a & Hrf & Hs & Ha & Hidx); [lia|].
      apply (consumer_before_producer r s (w - 1)%nat w);
        [|lia|by rewrite Hw|done].
      destruct (decide (r < s)%nat) as [|Hge]; [done|].
      pose proof (stores_before_mono (consumer_trace X) s r). lia.
Qed.

End SlotsOrdered.

(** ** Worked instance: the slots of the two-slot buffer *)

Lemma slot_accesses_ordered_witness :
  valid_size 2 ∧
  producer_actions 2 [(0, 0); (1, 1); (0, 0)]
    = Some (producer_trace two_slot_execution) ∧
  consumer_actions 2 [(0, 1); (1, 0)]
    = Some (consumer_trace two_slot_execution) ∧
  consistent two_slot_execution ∧
  (∃ w,
     producer_trace two_slot_execution !! w = Some (SlotAssign 1) ∧
     stores_before (producer_trace two_slot_execution) w
       = stores_before (consumer_trace two_slot_execution) 6 ∧
     happens_before two_slot_execution (Producer, w) (Consumer, 6%nat)) ∧
  happens_before two_slot_execution (Producer, 2%nat) (Consumer, 2%nat) ∧
  happens_before two_slot_execution (Consumer, 2%nat) (Producer, 10%nat).
Proof.
  assert (valid_size 2) as Hsize by (unfold valid_size, SizeT.modulus; lia).
  assert (consistent two_slot_execution) as Hconsistent
    by (split; vm_compute; reflexivity).
  destruct (slot_accesses_ordered 2 two_slot_execution
              [(0, 0); (1, 1); (0, 0)] [(0, 1); (1, 0)]
              Hsize eq_refl eq_refl Hconsistent) as [Hread Hordered].
  split; [exact Hsize|]. split; [reflexivity|]. split; [reflexivity|].
  split; [exact Hconsistent|].
  split; [exact (Hread 6%nat 1 eq_refl)|].
  split.
  - apply (Hordered 2%nat 2%nat 0 eq_refl eq_refl). vm_compute. lia.
  - apply (Hordered 10%nat 2%nat 0 eq_refl eq_refl). vm_compute. lia.
Defined.
